(** * Standings engine of the tournament workspace

    A shallow embedding of the standings computation of the
    [TournamentWorkspace] component (points table, net run rate, ranking,
    result entry) and the properties its specification states about it.

    JavaScript numbers are IEEE-754 binary64 values.  The fields that only
    ever hold integers (runs, wickets, whole overs, balls, counters, points)
    are modelled by [Z]; the fields that hold fractions (over volumes, rates)
    are modelled by Rocq's primitive binary64 floats, whose [+], [-] and [/]
    are the operations JavaScript performs.

    Binary64 holds and adds integers exactly below 2^53 in absolute value.
    The result form holds runs to 9999 and wickets to 10, and an array has
    fewer than 2^32 elements, so the counters, the totals of runs and
    wickets and the points of the ball-count format (4, 2 and 0) stay far
    below.  The configured points are whole numbers, as the specification
    has them, and the creation form bounds them nowhere: [pointsExact] keeps
    every running total of a tournament below 2^53, [points_as_doubles]
    shows that the integers of the model are then the doubles of the
    program, and the properties of the totals of a table with configured
    points are stated under that condition.

    The file has three parts: the built-ins, data model and component, as
    they are in the source; the inputs and notions the properties are stated
    with; the facts and the properties, which are numbered C1 to C10.  The
    properties of the dashboard, the result form, the fixtures and the list
    of tournaments follow them, numbered from X1. *)

From Stdlib Require Import ZArith List Bool String Ascii Lia Permutation Sorted.
From Stdlib Require Import Floats.
From Stdlib Require DecimalString DecimalZ DecimalPos DecimalN.
Import ListNotations.

Local Open Scope string_scope.
Local Open Scope Z_scope.

(* ================================================================= *)
(** ** JavaScript built-ins used by the component *)

Module JS.

(** [Number(z)] for an integer-valued field: the double nearest to [z]
    (exact below 2^53). *)
Definition Z2F (z : Z) : float :=
  SF2Prim (binary_normalize prec emax z 0 false).

(** [x || 0] on a possibly-undefined integer field. *)
Definition orZero (x : option Z) : Z :=
  match x with Some z => z | None => 0 end.

(** [x || d] on an integer: [0] is falsy. *)
Definition orDefault (x d : Z) : Z := if x =? 0 then d else x.

(** [x || d] on a double: [0], [-0] and [NaN] are falsy. *)
Definition orDefaultF (x d : float) : float :=
  if (PrimFloat.is_nan x || PrimFloat.eqb x 0)%bool then d else x.

(** [s || d] on a possibly-undefined string: the empty string is falsy. *)
Definition orString (s : option string) (d : string) : string :=
  match s with
  | Some EmptyString | None => d
  | Some s => s
  end.

(** *** Number parsing *)

(** ASCII white space skipped by [parseInt] and [parseFloat]. *)
Definition isWhite (c : ascii) : bool :=
  let n := N_of_ascii c in
  ((9 <=? n) && (n <=? 13) || (n =? 32))%N.

Fixpoint skipWhite (s : string) : string :=
  match s with
  | String c r => if isWhite c then skipWhite r else s
  | EmptyString => s
  end.

Definition digitVal (c : ascii) : option Z :=
  let n := Z.of_N (N_of_ascii c) in
  if (48 <=? n) && (n <=? 57) then Some (n - 48) else None.

Definition hexVal (c : ascii) : option Z :=
  let n := Z.of_N (N_of_ascii c) in
  if (48 <=? n) && (n <=? 57) then Some (n - 48)
  else if (97 <=? n) && (n <=? 102) then Some (n - 87)
  else if (65 <=? n) && (n <=? 70) then Some (n - 55)
  else None.

(** The longest prefix of digits of [s] in the given radix: its value on
    top of [acc], how many digits were read on top of [cnt], and the
    rest of the string. *)
Fixpoint readDigits (val : ascii -> option Z) (radix : Z)
         (s : string) (acc : Z) (cnt : nat) : Z * nat * string :=
  match s with
  | String c r =>
      match val c with
      | Some d => readDigits val radix r (acc * radix + d) (S cnt)
      | None => (acc, cnt, s)
      end
  | EmptyString => (acc, cnt, s)
  end.

(** An optional sign: [true] for a leading minus. *)
Definition readSign (s : string) : bool * string :=
  match s with
  | String "-" r => (true, r)
  | String "+" r => (false, r)
  | _ => (false, s)
  end.

(** [parseInt(s)] without a radix argument; [None] stands for [NaN]. *)
Definition parseInt (s : string) : option Z :=
  let '(neg, s1) := readSign (skipWhite s) in
  let '(radix, val, s2) :=
    match s1 with
    | String "0" (String "x" r) | String "0" (String "X" r) => (16, hexVal, r)
    | _ => (10, digitVal, s1)
    end in
  let '(v, cnt, _) := readDigits val radix s2 0 0%nat in
  match cnt with
  | O => None
  | _ => Some (if neg then - v else v)
  end.

(** The double nearest to [m * 10^e], for [0 <= m]. *)
Definition decimalToFloat (m e : Z) : float :=
  match m with
  | Zpos p =>
      if 0 <=? e
      then SF2Prim (binary_normalize prec emax (m * 10 ^ e) 0 false)
      else SF2Prim (SFdiv prec emax (S754_finite false p 0)
                          (S754_finite false (Z.to_pos (10 ^ (- e))) 0))
  | _ => 0%float
  end.

(** The exponent part of a decimal literal, when there is one. *)
Definition readExponent (s : string) : Z :=
  match s with
  | String c r =>
      if (Ascii.eqb c "e" || Ascii.eqb c "E")%bool then
        let '(neg, r1) := readSign r in
        let '(v, cnt, _) := readDigits digitVal 10 r1 0 0%nat in
        match cnt with
        | O => 0
        | _ => if neg then - v else v
        end
      else 0
  | EmptyString => 0
  end.

(** [parseFloat(s)]: the longest prefix of [s] that is a decimal literal. *)
Definition parseFloat (s : string) : float :=
  let '(neg, s1) := readSign (skipWhite s) in
  let withSign (f : float) := if neg then (- f)%float else f in
  if String.prefix "Infinity" s1 then withSign infinity
  else
    let '(ip, ni, s2) := readDigits digitVal 10 s1 0 0%nat in
    let '(m, nf, s3) :=
      match s2 with
      | String "." r => readDigits digitVal 10 r ip 0%nat
      | _ => (ip, 0%nat, s2)
      end in
    match (ni + nf)%nat with
    | O => nan
    | _ => withSign (decimalToFloat m (readExponent s3 - Z.of_nat nf))
    end.

(** *** [Array.prototype.sort]

    The sort is stable and reads only the sign of what the comparator
    returns: [x] moves behind [y] when [cmp x y > 0].  The comparator is
    represented by that sign.  For a consistent comparator the result of a
    stable sort does not depend on the algorithm; insertion is the simplest
    one. *)
Section Sort.
Context {A : Type} (cmp : A -> A -> Z).

Fixpoint insert (x : A) (l : list A) : list A :=
  match l with
  | [] => [x]
  | y :: l' => if 0 <? cmp x y then y :: insert x l' else x :: l
  end.

Definition sort (l : list A) : list A := fold_right insert [] l.
End Sort.

(** The sign of a double, as [Array.prototype.sort] reads it ([NaN] counts
    as [0]). *)
Definition signF (f : float) : Z :=
  if PrimFloat.ltb 0 f then 1 else if PrimFloat.ltb f 0 then -1 else 0.

(** [arr.some((o, idx) => p(o, idx))], indices counted from [i]. *)
Fixpoint someFrom {A : Type} (p : A -> nat -> bool) (i : nat) (l : list A) : bool :=
  match l with
  | [] => false
  | o :: l' => p o i || someFrom p (S i) l'
  end.

Definition some {A : Type} (p : A -> nat -> bool) (l : list A) : bool :=
  someFrom p 0 l.

(** [arr.map((s, i) => f(s, i))], indices counted from [i]. *)
Fixpoint mapFrom {A B : Type} (f : A -> nat -> B) (i : nat) (l : list A) : list B :=
  match l with
  | [] => []
  | x :: l' => f x i :: mapFrom f (S i) l'
  end.

End JS.

(* ================================================================= *)
(** ** Data model ([types.ts]) *)

Module Team.
(** The identity of a team.  The statistics fields of [Team] are all
    overwritten when the standings are built and are not read before. *)
Record t := mk { id : string; name : string }.
End Team.

Inductive MatchResultType :=
  T1_WIN | T2_WIN | DRAW | TIE | NO_RESULT | ABANDONED.

Inductive MatchStatus := NOT_STARTED | IN_PROGRESS | COMPLETED.

Module Match.
(** Optional fields are [None] when undefined. *)
Record t := mk {
  id : string;
  round : Z;
  team1Id : string;
  team2Id : string;
  status : MatchStatus;
  winnerId : option string;
  resultType : option MatchResultType;
  t1Runs : option Z;
  t1Wickets : option Z;
  t1OversWhole : option Z;
  t1Balls : option Z;
  t2Runs : option Z;
  t2Wickets : option Z;
  t2OversWhole : option Z;
  t2Balls : option Z
}.
End Match.

Record TournamentConfig := {
  oversPerMatch : option string;
  pointsForWin : Z;
  pointsForDraw : Z;
  pointsForLoss : Z
}.

Module ResultLog.
(** An entry of the log of actions. *)
Record t := mk {
  id : string;
  timestamp : string;
  action : string;
  reason : string;
  user : string
}.
End ResultLog.

(** The fields of [Tournament] the standings are computed from.  The others
    are read by none of the functions below and are left out.  One of them,
    [logs], the list of actions, is written at every update that is given a
    caption: it is kept beside the tournament, as a list of its own (see
    [newLogs]).  An equation between tournaments here is an equation
    between the four fields. *)
Record Tournament := {
  isLocked : bool;
  teams : list Team.t;
  matches : list Match.t;
  config : TournamentConfig
}.

Module Standing.
(** An entry of [stats]: [Team & { actualPoints, wicketsTaken, scoringRate,
    economyRate }]. *)
Record t := mk {
  id : string;
  name : string;
  matchesPlayed : Z;
  matchesWon : Z;
  matchesLost : Z;
  matchesDrawn : Z;
  matchesTie : Z;
  matchesNR : Z;
  totalPoints : Z;
  runsScored : Z;
  oversFaced : float;
  runsConceded : Z;
  oversBowled : float;
  nrr : float;
  actualPoints : Z;
  wicketsTaken : Z;
  scoringRate : float;
  economyRate : float
}.

(** Field updates, one for each field the component assigns. *)
Definition with_matchesPlayed (f : Z -> Z) (s : t) : t :=
  mk (id s) (name s) (f (matchesPlayed s)) (matchesWon s) (matchesLost s)
     (matchesDrawn s) (matchesTie s) (matchesNR s) (totalPoints s)
     (runsScored s) (oversFaced s) (runsConceded s) (oversBowled s) (nrr s)
     (actualPoints s) (wicketsTaken s) (scoringRate s) (economyRate s).
Definition with_matchesWon (f : Z -> Z) (s : t) : t :=
  mk (id s) (name s) (matchesPlayed s) (f (matchesWon s)) (matchesLost s)
     (matchesDrawn s) (matchesTie s) (matchesNR s) (totalPoints s)
     (runsScored s) (oversFaced s) (runsConceded s) (oversBowled s) (nrr s)
     (actualPoints s) (wicketsTaken s) (scoringRate s) (economyRate s).
Definition with_runsScored (f : Z -> Z) (s : t) : t :=
  mk (id s) (name s) (matchesPlayed s) (matchesWon s) (matchesLost s)
     (matchesDrawn s) (matchesTie s) (matchesNR s) (totalPoints s)
     (f (runsScored s)) (oversFaced s) (runsConceded s) (oversBowled s) (nrr s)
     (actualPoints s) (wicketsTaken s) (scoringRate s) (economyRate s).
Definition with_oversFaced (f : float -> float) (s : t) : t :=
  mk (id s) (name s) (matchesPlayed s) (matchesWon s) (matchesLost s)
     (matchesDrawn s) (matchesTie s) (matchesNR s) (totalPoints s)
     (runsScored s) (f (oversFaced s)) (runsConceded s) (oversBowled s) (nrr s)
     (actualPoints s) (wicketsTaken s) (scoringRate s) (economyRate s).
Definition with_runsConceded (f : Z -> Z) (s : t) : t :=
  mk (id s) (name s) (matchesPlayed s) (matchesWon s) (matchesLost s)
     (matchesDrawn s) (matchesTie s) (matchesNR s) (totalPoints s)
     (runsScored s) (oversFaced s) (f (runsConceded s)) (oversBowled s) (nrr s)
     (actualPoints s) (wicketsTaken s) (scoringRate s) (economyRate s).
Definition with_oversBowled (f : float -> float) (s : t) : t :=
  mk (id s) (name s) (matchesPlayed s) (matchesWon s) (matchesLost s)
     (matchesDrawn s) (matchesTie s) (matchesNR s) (totalPoints s)
     (runsScored s) (oversFaced s) (runsConceded s) (f (oversBowled s)) (nrr s)
     (actualPoints s) (wicketsTaken s) (scoringRate s) (economyRate s).
Definition with_actualPoints (f : Z -> Z) (s : t) : t :=
  mk (id s) (name s) (matchesPlayed s) (matchesWon s) (matchesLost s)
     (matchesDrawn s) (matchesTie s) (matchesNR s) (totalPoints s)
     (runsScored s) (oversFaced s) (runsConceded s) (oversBowled s) (nrr s)
     (f (actualPoints s)) (wicketsTaken s) (scoringRate s) (economyRate s).
Definition with_wicketsTaken (f : Z -> Z) (s : t) : t :=
  mk (id s) (name s) (matchesPlayed s) (matchesWon s) (matchesLost s)
     (matchesDrawn s) (matchesTie s) (matchesNR s) (totalPoints s)
     (runsScored s) (oversFaced s) (runsConceded s) (oversBowled s) (nrr s)
     (actualPoints s) (f (wicketsTaken s)) (scoringRate s) (economyRate s).
Definition with_rates (n sr er : float) (s : t) : t :=
  mk (id s) (name s) (matchesPlayed s) (matchesWon s) (matchesLost s)
     (matchesDrawn s) (matchesTie s) (matchesNR s) (totalPoints s)
     (runsScored s) (oversFaced s) (runsConceded s) (oversBowled s) n
     (actualPoints s) (wicketsTaken s) sr er.
End Standing.

(** The result-entry form: every field is the text of an input box. *)
Record ResultForm := {
  f_t1Runs : string; f_t1Wickets : string; f_t1OversWhole : string; f_t1Balls : string;
  f_t2Runs : string; f_t2Wickets : string; f_t2OversWhole : string; f_t2Balls : string
}.

(* ================================================================= *)
(** ** The [stats] object

    [stats] is a [Record<string, Standing>] filled by assignment and read
    back with [Object.values].  Team ids are made by the creation wizard as
    [team-<i>-<timestamp>], never array-index keys, so the enumeration order
    of the object is the order in which its keys were first assigned: an
    association list in insertion order. *)

Definition Stats := list (string * Standing.t).

(** [stats[k]] *)
Fixpoint lookup (k : string) (stats : Stats) : option Standing.t :=
  match stats with
  | [] => None
  | (k', v) :: rest => if String.eqb k' k then Some v else lookup k rest
  end.

(** [stats[k] = v]: an existing key keeps its place. *)
Fixpoint assign (k : string) (v : Standing.t) (stats : Stats) : Stats :=
  match stats with
  | [] => [(k, v)]
  | (k', v') :: rest =>
      if String.eqb k' k then (k', v) :: rest else (k', v') :: assign k v rest
  end.

(** A mutation [f] of the object held under key [k], as in [t1.matchesPlayed++]
    for [t1 = stats[k]]. *)
Definition mutate (k : string) (f : Standing.t -> Standing.t) (stats : Stats) : Stats :=
  map (fun kv => if String.eqb (fst kv) k then (fst kv, f (snd kv)) else kv) stats.

Definition Object_values (stats : Stats) : list Standing.t := map snd stats.

(* ================================================================= *)
(** ** The component [TournamentWorkspace] *)

Notation "x |> f" := (f x) (at level 51, left associativity, only parsing).

Record PointsConfig := { win : Z; draw : Z; loss : Z }.

(** A row of the leaderboard snapshot. *)
Record SnapshotRow := {
  row_position : nat;
  row_name : string;
  row_tie : bool;
  row_points : Z;
  row_nrr : float
}.

Section TournamentWorkspace.
Variable tournament : Tournament.

(** [tournament.config.oversPerMatch === '100 Balls'] *)
Definition isHundred : bool :=
  match oversPerMatch (config tournament) with
  | Some s => String.eqb s "100 Balls"
  | None => false
  end.

(** The points of a win, a draw and a loss: fixed in the ball-count format,
    else the configured values with [|| 2], [|| 1] and [|| 0]. *)
Definition pointsConfig : PointsConfig :=
  {| win := if isHundred then 4 else JS.orDefault (pointsForWin (config tournament)) 2;
     draw := if isHundred then 2 else JS.orDefault (pointsForDraw (config tournament)) 1;
     loss := if isHundred then 0 else JS.orDefault (pointsForLoss (config tournament)) 0 |}.

(** [Number(whole) + Number(balls) / 6] *)
Definition toDecimalOvers (whole balls : Z) : float :=
  (JS.Z2F whole + JS.Z2F balls / 6)%float.

(** The accumulator every team starts from: [{ ...t, matchesPlayed: 0, ... }]. *)
Definition freshStanding (t : Team.t) : Standing.t :=
  {| Standing.id := Team.id t; Standing.name := Team.name t;
     Standing.matchesPlayed := 0; Standing.matchesWon := 0;
     Standing.matchesLost := 0; Standing.matchesDrawn := 0;
     Standing.matchesTie := 0; Standing.matchesNR := 0;
     Standing.totalPoints := 0; Standing.runsScored := 0;
     Standing.oversFaced := 0%float; Standing.runsConceded := 0;
     Standing.oversBowled := 0%float; Standing.nrr := 0%float;
     Standing.actualPoints := 0; Standing.wicketsTaken := 0;
     Standing.scoringRate := 0%float; Standing.economyRate := 0%float |}.

(** [stats] after [tournament.teams.forEach(t => { stats[t.id] = ... })]. *)
Definition initialStats : Stats :=
  fold_left (fun stats t => assign (Team.id t) (freshStanding t) stats)
            (teams tournament) [].

(** [isHundred ? 100 : (parseFloat(oversPerMatch || '20') || 20)] *)
Definition maxOvers : float :=
  if isHundred then 100%float
  else JS.orDefaultF
         (JS.parseFloat (JS.orString (oversPerMatch (config tournament)) "20"))
         20%float.

(** [w === 10] *)
Definition allOut (w : option Z) : bool :=
  match w with Some 10 => true | _ => false end.

(** The over volume of each side of a match. *)
Definition t1VolFaced (m : Match.t) : float :=
  if isHundred
  then if allOut (Match.t1Wickets m) then 100%float
       else JS.Z2F (JS.orZero (Match.t1OversWhole m))
  else if allOut (Match.t1Wickets m) then maxOvers
       else toDecimalOvers (JS.orZero (Match.t1OversWhole m))
                           (JS.orZero (Match.t1Balls m)).

Definition t2VolFaced (m : Match.t) : float :=
  if isHundred
  then if allOut (Match.t2Wickets m) then 100%float
       else JS.Z2F (JS.orZero (Match.t2OversWhole m))
  else if allOut (Match.t2Wickets m) then maxOvers
       else toDecimalOvers (JS.orZero (Match.t2OversWhole m))
                           (JS.orZero (Match.t2Balls m)).

(** The updates one completed match makes to the objects of its two
    teams, in the order of the source.  The over volumes are added in
    binary64; the points are added as integers, which is what the binary64
    addition of the source does as long as the totals stay below 2^53 in
    absolute value (see [pointsExact]). *)
Definition applyMatch (m : Match.t) (stats : Stats) : Stats :=
  let t1 := mutate (Match.team1Id m) in
  let t2 := mutate (Match.team2Id m) in
  stats
  |> t1 (Standing.with_matchesPlayed Z.succ)
  |> t2 (Standing.with_matchesPlayed Z.succ)
  |> match Match.resultType m with
     | Some T1_WIN => fun stats =>
         stats
         |> t1 (Standing.with_matchesWon Z.succ)
         |> t1 (Standing.with_actualPoints (fun p => p + win pointsConfig))
         |> t2 (Standing.with_actualPoints (fun p => p + loss pointsConfig))
     | Some T2_WIN => fun stats =>
         stats
         |> t2 (Standing.with_matchesWon Z.succ)
         |> t2 (Standing.with_actualPoints (fun p => p + win pointsConfig))
         |> t1 (Standing.with_actualPoints (fun p => p + loss pointsConfig))
     | _ => fun stats =>
         stats
         |> t1 (Standing.with_actualPoints (fun p => p + draw pointsConfig))
         |> t2 (Standing.with_actualPoints (fun p => p + draw pointsConfig))
     end
  |> t1 (Standing.with_runsScored (fun r => r + JS.orZero (Match.t1Runs m)))
  |> t1 (Standing.with_oversFaced (fun o => o + t1VolFaced m)%float)
  |> t1 (Standing.with_runsConceded (fun r => r + JS.orZero (Match.t2Runs m)))
  |> t1 (Standing.with_oversBowled (fun o => o + t2VolFaced m)%float)
  |> t2 (Standing.with_runsScored (fun r => r + JS.orZero (Match.t2Runs m)))
  |> t2 (Standing.with_oversFaced (fun o => o + t2VolFaced m)%float)
  |> t2 (Standing.with_runsConceded (fun r => r + JS.orZero (Match.t1Runs m)))
  |> t2 (Standing.with_oversBowled (fun o => o + t1VolFaced m)%float)
  |> t1 (Standing.with_wicketsTaken (fun w => w + JS.orZero (Match.t2Wickets m)))
  |> t2 (Standing.with_wicketsTaken (fun w => w + JS.orZero (Match.t1Wickets m))).

(** The body of the loop over the completed matches: a match that names a
    team absent from [stats] is skipped. *)
Definition recordMatch (m : Match.t) (stats : Stats) : Stats :=
  match lookup (Match.team1Id m) stats, lookup (Match.team2Id m) stats with
  | Some _, Some _ => applyMatch m stats
  | _, _ => stats
  end.

(** [m.status === 'COMPLETED'] *)
Definition isCompleted (m : Match.t) : bool :=
  match Match.status m with COMPLETED => true | _ => false end.

(** The totals after the loop over the completed matches. *)
Definition aggregate : Stats :=
  fold_left (fun stats m => recordMatch m stats)
            (filter isCompleted (matches tournament)) initialStats.

(** The body of the loop over [Object.values(stats)]. *)
Definition computeRates (s : Standing.t) : Standing.t :=
  let rrS := if PrimFloat.ltb 0 (Standing.oversFaced s)
             then (JS.Z2F (Standing.runsScored s) / Standing.oversFaced s)%float
             else 0%float in
  let rrC := if PrimFloat.ltb 0 (Standing.oversBowled s)
             then (JS.Z2F (Standing.runsConceded s) / Standing.oversBowled s)%float
             else 0%float in
  Standing.with_rates (rrS - rrC)%float rrS rrC s.

(** The value of the memo [standingsMap]. *)
Definition standingsMap : Stats :=
  map (fun kv => (fst kv, computeRates (snd kv))) aggregate.

(** The comparator of the ranking; the value is the sign of the number the
    JavaScript comparator returns. *)
Definition compareStandings (a b : Standing.t) : Z :=
  if negb (Standing.actualPoints b =? Standing.actualPoints a)
  then Z.sgn (Standing.actualPoints b - Standing.actualPoints a)
  else if negb (PrimFloat.eqb (JS.orDefaultF (Standing.nrr b) 0)
                              (JS.orDefaultF (Standing.nrr a) 0))
  then JS.signF (JS.orDefaultF (Standing.nrr b) 0 - JS.orDefaultF (Standing.nrr a) 0)%float
  else JS.signF (Standing.scoringRate b - Standing.scoringRate a)%float.

(** The value of the memo [standings]: [Object.values(standingsMap).sort(...)]. *)
Definition standings : list Standing.t :=
  JS.sort compareStandings (Object_values standingsMap).

(** The rows of the leaderboard snapshot, [standings.slice(0, 4).map(...)]:
    the first four of the standings, each with its TIE badge. *)
Definition leaderboardSnapshot : list SnapshotRow :=
  JS.mapFrom
    (fun s i =>
       {| row_position := S i;
          row_name := Standing.name s;
          row_tie :=
            JS.some (fun o idx =>
                       negb (Nat.eqb idx i)
                       && (Standing.actualPoints o =? Standing.actualPoints s))
                    standings;
          row_points := Standing.actualPoints s;
          row_nrr := Standing.nrr s |})
    0%nat (firstn 4 standings).

(** The decision taken at result entry from the two run totals. *)
Definition classifyResult (m : Match.t) (t1R t2R : Z)
  : MatchResultType * option string :=
  if t2R <? t1R then (T1_WIN, Some (Match.team1Id m))
  else if t1R <? t2R then (T2_WIN, Some (Match.team2Id m))
  else (TIE, None).

(** [handleSaveResult(matchId)] with the current content of the form: the
    tournament passed to [onUpdateTournament], or the tournament itself when
    the handler returns early.  [handleUpdate], through which the tournament
    is passed, also puts one entry at the head of [logs], which is not among
    the fields of [Tournament]: that part of the update is
    [handleSaveResult_logs] below. *)
Definition handleSaveResult (resultForm : ResultForm) (matchId : string)
  : Tournament :=
  if isLocked tournament then tournament
  else
    match find (fun m => String.eqb (Match.id m) matchId) (matches tournament) with
    | None => tournament
    | Some m =>
        let t1R := JS.orZero (JS.parseInt (f_t1Runs resultForm)) in
        let t2R := JS.orZero (JS.parseInt (f_t2Runs resultForm)) in
        let '(type, winnerId) := classifyResult m t1R t2R in
        let updatedMatches :=
          map (fun match_ =>
                 if String.eqb (Match.id match_) matchId
                 then {| Match.id := Match.id match_;
                         Match.round := Match.round match_;
                         Match.team1Id := Match.team1Id match_;
                         Match.team2Id := Match.team2Id match_;
                         Match.status := COMPLETED;
                         Match.winnerId := winnerId;
                         Match.resultType := Some type;
                         Match.t1Runs := Some t1R;
                         Match.t1Wickets := Some (JS.orZero (JS.parseInt (f_t1Wickets resultForm)));
                         Match.t1OversWhole := Some (JS.orZero (JS.parseInt (f_t1OversWhole resultForm)));
                         Match.t1Balls := Some (JS.orZero (JS.parseInt (f_t1Balls resultForm)));
                         Match.t2Runs := Some t2R;
                         Match.t2Wickets := Some (JS.orZero (JS.parseInt (f_t2Wickets resultForm)));
                         Match.t2OversWhole := Some (JS.orZero (JS.parseInt (f_t2OversWhole resultForm)));
                         Match.t2Balls := Some (JS.orZero (JS.parseInt (f_t2Balls resultForm))) |}
                 else match_)
              (matches tournament) in
        {| isLocked := isLocked tournament;
           teams := teams tournament;
           matches := updatedMatches;
           config := config tournament |}
    end.

End TournamentWorkspace.

(* ================================================================= *)
(** ** The rest of the component: dashboard, result form, fixtures *)

(** [z.toString()] for an integer: its decimal digits, with a sign when
    negative (the form JavaScript prints below 10^21). *)
Definition Number_toString (z : Z) : string :=
  DecimalString.NilZero.string_of_int (Z.to_int z).

(** [hay.includes(needle)] *)
Fixpoint String_includes (needle hay : string) : bool :=
  String.prefix needle hay
  || match hay with
     | EmptyString => false
     | String _ rest => String_includes needle rest
     end.

(** [x < c] and [x > c] for a parsed number: both are false for [NaN]. *)
Definition Number_lt (x : option Z) (c : Z) : bool :=
  match x with Some n => n <? c | None => false end.

Definition Number_gt (x : option Z) (c : Z) : bool :=
  match x with Some n => c <? n | None => false end.

(** *** The log of actions *)

Section Log.
(** [s.toUpperCase()]; nothing is assumed of it. *)
Variable toUpperCase : string -> string.
(** The clock at the time of the update: [Date.now()] and
    [new Date().toLocaleTimeString()]. *)
Variable now : Z.
Variable time : string.

(** [newLogs] of [handleUpdate(updates, logAction)]: with a caption, which
    is a string that is not empty, the log with one more entry at its
    head; without, the log.  [logs] is [tournament.logs || []]. *)
Definition newLogs (logAction : option string) (logs : list ResultLog.t)
  : list ResultLog.t :=
  match logAction with
  | None | Some EmptyString => logs
  | Some caption =>
      {| ResultLog.id := Number_toString now;
         ResultLog.timestamp := time;
         ResultLog.action := toUpperCase caption;
         ResultLog.reason := "Admin Action";
         ResultLog.user := "SYSTEM_ADMIN" |} :: logs
  end.

(** The log [handleSaveResult(matchId)] passes to [onUpdateTournament], or
    the log itself when the handler returns early. *)
Definition handleSaveResult_logs (tournament : Tournament) (matchId : string)
           (logs : list ResultLog.t) : list ResultLog.t :=
  if isLocked tournament then logs
  else
    match find (fun m => String.eqb (Match.id m) matchId) (matches tournament) with
    | None => logs
    | Some _ => newLogs (Some ("Result Entered: Match " ++ matchId)) logs
    end.

End Log.

Module RoundProgress.
Record t := mk { round : Z; completed : nat; total : nat }.
End RoundProgress.

Section Dashboard.
Variable tournament : Tournament.

(** The superlatives of [dashMetrics]: [[...standings].sort(cmp)[0]]. *)
Definition mostRunsTeam : option Standing.t :=
  hd_error
    (JS.sort (fun a b => Z.sgn (Standing.runsScored b - Standing.runsScored a))
             (standings tournament)).

(** The comparator of the team with the most wickets,
    [b.wicketsTaken - a.wicketsTaken || a.economyRate - b.economyRate], as
    the sign the sort reads. *)
Definition byWickets (a b : Standing.t) : Z :=
  if negb (Standing.wicketsTaken b - Standing.wicketsTaken a =? 0)
  then Z.sgn (Standing.wicketsTaken b - Standing.wicketsTaken a)
  else JS.signF (Standing.economyRate a - Standing.economyRate b)%float.

Definition mostWicketsTeam : option Standing.t :=
  hd_error (JS.sort byWickets (standings tournament)).

Definition highestScoringRateTeam : option Standing.t :=
  hd_error
    (JS.sort (fun a b => JS.signF (Standing.scoringRate b - Standing.scoringRate a)%float)
             (standings tournament)).

Definition bestEconomyTeam : option Standing.t :=
  hd_error
    (JS.sort (fun a b => JS.signF (Standing.economyRate a - Standing.economyRate b)%float)
             (filter (fun s => PrimFloat.ltb 0 (Standing.oversBowled s))
                     (standings tournament))).

(** [Math.max(0, ...tournament.matches.map(m => m.round))] *)
Definition totalRounds : Z :=
  fold_right Z.max 0 (map Match.round (matches tournament)).

(** [Array.from({ length: totalRounds }, (_, i) => ...)] *)
Definition roundProgress : list RoundProgress.t :=
  map (fun i =>
         let r := Z.of_nat i + 1 in
         let roundMatches := filter (fun m => Match.round m =? r) (matches tournament) in
         let done := List.length (filter isCompleted roundMatches) in
         {| RoundProgress.round := r;
            RoundProgress.completed := done;
            RoundProgress.total := List.length roundMatches |})
      (seq 0 (Z.to_nat totalRounds)).

(** The points a result card shows for the two sides of a match. *)
Definition t1Earned (m : Match.t) : Z :=
  match Match.resultType m with
  | Some T1_WIN => win (pointsConfig tournament)
  | Some TIE => draw (pointsConfig tournament)
  | _ => loss (pointsConfig tournament)
  end.

Definition t2Earned (m : Match.t) : Z :=
  match Match.resultType m with
  | Some T2_WIN => win (pointsConfig tournament)
  | Some TIE => draw (pointsConfig tournament)
  | _ => loss (pointsConfig tournament)
  end.

End Dashboard.

(** *** The result form *)

(** [{ ...prev, [field]: value }] on the fields of the form that are read
    when a result is saved; another key leaves them as they are. *)
Definition setField (field value : string) (f : ResultForm) : ResultForm :=
  if String.eqb field "t1Runs" then
    {| f_t1Runs := value; f_t1Wickets := f_t1Wickets f;
       f_t1OversWhole := f_t1OversWhole f; f_t1Balls := f_t1Balls f;
       f_t2Runs := f_t2Runs f; f_t2Wickets := f_t2Wickets f;
       f_t2OversWhole := f_t2OversWhole f; f_t2Balls := f_t2Balls f |}
  else if String.eqb field "t1Wickets" then
    {| f_t1Runs := f_t1Runs f; f_t1Wickets := value;
       f_t1OversWhole := f_t1OversWhole f; f_t1Balls := f_t1Balls f;
       f_t2Runs := f_t2Runs f; f_t2Wickets := f_t2Wickets f;
       f_t2OversWhole := f_t2OversWhole f; f_t2Balls := f_t2Balls f |}
  else if String.eqb field "t1OversWhole" then
    {| f_t1Runs := f_t1Runs f; f_t1Wickets := f_t1Wickets f;
       f_t1OversWhole := value; f_t1Balls := f_t1Balls f;
       f_t2Runs := f_t2Runs f; f_t2Wickets := f_t2Wickets f;
       f_t2OversWhole := f_t2OversWhole f; f_t2Balls := f_t2Balls f |}
  else if String.eqb field "t1Balls" then
    {| f_t1Runs := f_t1Runs f; f_t1Wickets := f_t1Wickets f;
       f_t1OversWhole := f_t1OversWhole f; f_t1Balls := value;
       f_t2Runs := f_t2Runs f; f_t2Wickets := f_t2Wickets f;
       f_t2OversWhole := f_t2OversWhole f; f_t2Balls := f_t2Balls f |}
  else if String.eqb field "t2Runs" then
    {| f_t1Runs := f_t1Runs f; f_t1Wickets := f_t1Wickets f;
       f_t1OversWhole := f_t1OversWhole f; f_t1Balls := f_t1Balls f;
       f_t2Runs := value; f_t2Wickets := f_t2Wickets f;
       f_t2OversWhole := f_t2OversWhole f; f_t2Balls := f_t2Balls f |}
  else if String.eqb field "t2Wickets" then
    {| f_t1Runs := f_t1Runs f; f_t1Wickets := f_t1Wickets f;
       f_t1OversWhole := f_t1OversWhole f; f_t1Balls := f_t1Balls f;
       f_t2Runs := f_t2Runs f; f_t2Wickets := value;
       f_t2OversWhole := f_t2OversWhole f; f_t2Balls := f_t2Balls f |}
  else if String.eqb field "t2OversWhole" then
    {| f_t1Runs := f_t1Runs f; f_t1Wickets := f_t1Wickets f;
       f_t1OversWhole := f_t1OversWhole f; f_t1Balls := f_t1Balls f;
       f_t2Runs := f_t2Runs f; f_t2Wickets := f_t2Wickets f;
       f_t2OversWhole := value; f_t2Balls := f_t2Balls f |}
  else if String.eqb field "t2Balls" then
    {| f_t1Runs := f_t1Runs f; f_t1Wickets := f_t1Wickets f;
       f_t1OversWhole := f_t1OversWhole f; f_t1Balls := f_t1Balls f;
       f_t2Runs := f_t2Runs f; f_t2Wickets := f_t2Wickets f;
       f_t2OversWhole := f_t2OversWhole f; f_t2Balls := value |}
  else f.

(** The initial state of the form. *)
Definition emptyForm : ResultForm :=
  {| f_t1Runs := ""; f_t1Wickets := ""; f_t1OversWhole := ""; f_t1Balls := "0";
     f_t2Runs := ""; f_t2Wickets := ""; f_t2OversWhole := ""; f_t2Balls := "0" |}.

(** [x?.toString() || d] *)
Definition textOf (x : option Z) (d : string) : string :=
  match x with
  | Some z => match Number_toString z with EmptyString => d | s => s end
  | None => d
  end.

(** The form as it is filled when the card of a match is opened. *)
Definition openForm (m : Match.t) : ResultForm :=
  {| f_t1Runs := textOf (Match.t1Runs m) "";
     f_t1Wickets := textOf (Match.t1Wickets m) "";
     f_t1OversWhole := textOf (Match.t1OversWhole m) "";
     f_t1Balls := textOf (Match.t1Balls m) "0";
     f_t2Runs := textOf (Match.t2Runs m) "";
     f_t2Wickets := textOf (Match.t2Wickets m) "";
     f_t2OversWhole := textOf (Match.t2OversWhole m) "";
     f_t2Balls := textOf (Match.t2Balls m) "0" |}.

Section ResultEntry.
Variable tournament : Tournament.

(** The whole-overs limit of the form:
    [isHundred ? 100 : (parseInt(oversPerMatch || '20') || 20)]. *)
Definition oversLimit : Z :=
  if isHundred tournament then 100
  else JS.orDefault
         (JS.orZero (JS.parseInt (JS.orString (oversPerMatch (config tournament)) "20")))
         20.

(** [handleScoreChange(field, value)]: the next state of the form. *)
Definition handleScoreChange (resultForm : ResultForm) (field value : string)
  : ResultForm :=
  let num := JS.parseInt value in
  if String_includes "Runs" field then
    if Number_lt num 0 then resultForm
    else setField field (if Number_gt num 9999 then "9999" else value) resultForm
  else if String_includes "Wickets" field then
    let finalValue := if Number_lt num 0 then "0" else value in
    let finalValue := if Number_gt num 10 then "10" else finalValue in
    setField field finalValue resultForm
  else if String_includes "OversWhole" field then
    let limit := oversLimit in
    let finalValue := if Number_lt num 0 then "0" else value in
    let finalValue := if Number_gt num limit then Number_toString limit else finalValue in
    setField field finalValue resultForm
  else setField field value resultForm.

End ResultEntry.

(** *** The fixtures *)

(** [teams.splice(1, 0, teams.pop())]: the last id moves to the second
    place.  The list is never empty where the schedule rotates it: the
    handler has returned when there are fewer than two teams. *)
Definition rotate (teams : list string) : list string :=
  match rev teams with
  | [] => []
  | x :: r => (firstn 1 (rev r) ++ x :: skipn 1 (rev r))%list
  end.

(** A fixture as [generateSchedule] pushes it. *)
Definition fixtureOf (counter : nat) (r : nat) (team1 team2 : string) : Match.t :=
  {| Match.id := "M-" ++ Number_toString (Z.of_nat counter);
     Match.round := Z.of_nat r + 1;
     Match.team1Id := team1; Match.team2Id := team2;
     Match.status := NOT_STARTED;
     Match.winnerId := None; Match.resultType := None;
     Match.t1Runs := None; Match.t1Wickets := None;
     Match.t1OversWhole := None; Match.t1Balls := None;
     Match.t2Runs := None; Match.t2Wickets := None;
     Match.t2OversWhole := None; Match.t2Balls := None |}.

(** The inner loop, [for (let m = 0; m < teams.length / 2; m++)]: the
    fixtures of round [r], numbered from [counter]. *)
Definition roundFixtures (r : nat) (teams : list string) (counter : nat)
  : list Match.t :=
  map (fun m => fixtureOf (counter + m) r
                          (nth m teams "")
                          (nth (List.length teams - 1 - m) teams ""))
      (seq 0 ((List.length teams + 1) / 2)).

(** The outer loop from round [r] on, [rounds] rounds to go. *)
Fixpoint roundsFrom (rounds r : nat) (teams : list string) (counter : nat)
  : list Match.t :=
  match rounds with
  | O => []
  | S k =>
      (roundFixtures r teams counter
       ++ roundsFrom k (S r) (rotate teams)
                     (counter + (List.length teams + 1) / 2))%list
  end.

(** [generateSchedule()]: the tournament passed on, or the tournament itself
    when the handler returns early.  [venues] are the ids of the stadiums;
    the venue of a fixture is drawn at random and is not among the fields
    of [Match.t]. *)
Definition generateSchedule (tournament : Tournament) (venues : list string)
  : Tournament :=
  if isLocked tournament then tournament
  else
    let ids := map Team.id (teams tournament) in
    if (List.length ids <? 2)%nat || (List.length venues =? 0)%nat then tournament
    else
      {| isLocked := isLocked tournament;
         teams := teams tournament;
         matches := roundsFrom (List.length ids - 1) 0 ids 1;
         config := config tournament |}.

(** *** The list of saved tournaments *)

Module ManageTournamentList.
Inductive Status := Upcoming | Ongoing | Completed.

(** The status shown for a tournament. *)
Definition status (t : Tournament) : Status :=
  let completed := List.length (filter isCompleted (matches t)) in
  if (completed =? 0)%nat then Upcoming
  else if (completed =? List.length (matches t))%nat then Completed
  else Ongoing.
End ManageTournamentList.

(** *** The creation form *)

Module CreateTournamentForm.
(** [`team-${i}-${Date.now()}`] *)
Definition teamId (i : nat) (now : Z) : string :=
  "team-" ++ Number_toString (Z.of_nat i) ++ "-" ++ Number_toString now.

(** [teams[i]?.name || ''] *)
Definition nameAt (teams : list Team.t) (i : nat) : string :=
  match nth_error teams i with
  | Some t => Team.name t
  | None => ""
  end.

(** The team list the form makes when the number of teams changes,
    [Array.from({ length: numTeams }, (_, i) => ({ id: ..., name: ... }))]:
    [numTeams] elements; [now i] is what [Date.now()] returns when element
    [i] is made. *)
Definition newTeams (numTeams : nat) (now : nat -> Z) (teams : list Team.t)
  : list Team.t :=
  map (fun i => {| Team.id := teamId i (now i); Team.name := nameAt teams i |})
      (seq 0 numTeams).
End CreateTournamentForm.

(* ================================================================= *)
(** ** The scenario of the specification *)

Module Scenario.
Definition A := Team.mk "team-0-1700000000000" "A".
Definition B := Team.mk "team-1-1700000000000" "B".

Definition fixture : Match.t :=
  {| Match.id := "M-1"; Match.round := 1;
     Match.team1Id := Team.id A; Match.team2Id := Team.id B;
     Match.status := NOT_STARTED;
     Match.winnerId := None; Match.resultType := None;
     Match.t1Runs := None; Match.t1Wickets := None;
     Match.t1OversWhole := None; Match.t1Balls := None;
     Match.t2Runs := None; Match.t2Wickets := None;
     Match.t2OversWhole := None; Match.t2Balls := None |}.

Definition before : Tournament :=
  {| isLocked := false; teams := [A; B]; matches := [fixture];
     config := {| oversPerMatch := Some "20"; pointsForWin := 2;
                  pointsForDraw := 1; pointsForLoss := 0 |} |}.

(** A 180/6 in 20.0 overs, B 150/10 in 18.3 overs. *)
Definition form : ResultForm :=
  {| f_t1Runs := "180"; f_t1Wickets := "6"; f_t1OversWhole := "20"; f_t1Balls := "0";
     f_t2Runs := "150"; f_t2Wickets := "10"; f_t2OversWhole := "18"; f_t2Balls := "3" |}.

Definition after : Tournament := handleSaveResult before form "M-1".
End Scenario.


(** A second entry of results: win points configured as 0. *)
Module ZeroWinPoints.
Definition before : Tournament :=
  {| isLocked := false; teams := [Scenario.A; Scenario.B];
     matches := [Scenario.fixture];
     config := {| oversPerMatch := Some "20"; pointsForWin := 0;
                  pointsForDraw := 1; pointsForLoss := -1 |} |}.

Definition after : Tournament := handleSaveResult before Scenario.form "M-1".
End ZeroWinPoints.

(** Six completed matches entered in two orders.  A beats B three times,
    batting 17.0, 17.1 and 19.1 overs; C beats D three times, batting 16.0
    overs each time. *)
Module TwoOrders.
Definition C := Team.mk "team-2-1700000000000" "C".
Definition D := Team.mk "team-3-1700000000000" "D".

Definition played (id : string) (home away : Team.t)
           (runs1 wickets1 overs1 balls1 runs2 wickets2 overs2 balls2 : Z)
  : Match.t :=
  {| Match.id := id; Match.round := 1;
     Match.team1Id := Team.id home; Match.team2Id := Team.id away;
     Match.status := COMPLETED;
     Match.winnerId := Some (Team.id home); Match.resultType := Some T1_WIN;
     Match.t1Runs := Some runs1; Match.t1Wickets := Some wickets1;
     Match.t1OversWhole := Some overs1; Match.t1Balls := Some balls1;
     Match.t2Runs := Some runs2; Match.t2Wickets := Some wickets2;
     Match.t2OversWhole := Some overs2; Match.t2Balls := Some balls2 |}.

Definition m1 := played "M-1" Scenario.A Scenario.B 170 4 17 0 150 10 19 2.
Definition m2 := played "M-2" Scenario.A Scenario.B 160 4 17 1 150 10 19 2.
Definition m3 := played "M-3" Scenario.A Scenario.B 170 4 19 1 150 10 19 2.
Definition m4 := played "M-4" C D 140 4 16 0 110 5 16 0.
Definition m5 := played "M-5" C D 140 4 16 0 110 5 16 0.
Definition m6 := played "M-6" C D 140 4 16 0 110 5 16 0.

Definition firstOrder : Tournament :=
  {| isLocked := false; teams := [Scenario.A; Scenario.B; C; D];
     matches := [m1; m2; m3; m4; m5; m6];
     config := {| oversPerMatch := Some "20"; pointsForWin := 2;
                  pointsForDraw := 1; pointsForLoss := 0 |} |}.

End TwoOrders.

(** Points beyond the range of exact sums: a win is worth 2^53 points and a
    loss 1 point; A beats B once and loses to B twice, entered with the win
    first or with the win last. *)
Module LargePoints.
Definition won := TwoOrders.played "M-1" Scenario.A Scenario.B 170 4 20 0 150 10 19 2.
Definition lost1 := TwoOrders.played "M-2" Scenario.B Scenario.A 170 4 20 0 150 10 19 2.
Definition lost2 := TwoOrders.played "M-3" Scenario.B Scenario.A 170 4 20 0 150 10 19 2.

Definition winFirst : Tournament :=
  {| isLocked := false; teams := [Scenario.A; Scenario.B];
     matches := [won; lost1; lost2];
     config := {| oversPerMatch := Some "20"; pointsForWin := 2 ^ 53;
                  pointsForDraw := 1; pointsForLoss := 1 |} |}.

Definition winLast : list Match.t := [lost1; lost2; won].
End LargePoints.

(** A tournament in the ball-count format, configured with points 3/1/0:
    A makes 140/5 off 85 balls, B is all out for 120 off 92 balls. *)
Module Hundred.
Definition game : Match.t :=
  {| Match.id := "M-1"; Match.round := 1;
     Match.team1Id := Team.id Scenario.A; Match.team2Id := Team.id Scenario.B;
     Match.status := COMPLETED;
     Match.winnerId := Some (Team.id Scenario.A); Match.resultType := Some T1_WIN;
     Match.t1Runs := Some 140; Match.t1Wickets := Some 5;
     Match.t1OversWhole := Some 85; Match.t1Balls := Some 0;
     Match.t2Runs := Some 120; Match.t2Wickets := Some 10;
     Match.t2OversWhole := Some 92; Match.t2Balls := Some 0 |}.

Definition tournament : Tournament :=
  {| isLocked := false; teams := [Scenario.A; Scenario.B]; matches := [game];
     config := {| oversPerMatch := Some "100 Balls"; pointsForWin := 3;
                  pointsForDraw := 1; pointsForLoss := 0 |} |}.
End Hundred.

(** Five teams before any match is played. *)
Module FiveTeams.
Definition E := Team.mk "team-4-1700000000000" "E".

Definition tournament : Tournament :=
  {| isLocked := false;
     teams := [Scenario.A; Scenario.B; TwoOrders.C; TwoOrders.D; E];
     matches := [];
     config := {| oversPerMatch := Some "20"; pointsForWin := 2;
                  pointsForDraw := 1; pointsForLoss := 0 |} |}.
End FiveTeams.

(* ================================================================= *)
(** ** Notions the properties are stated with *)

Definition keys (stats : Stats) : list string := map fst stats.

(** The order in which the keys of a list are first assigned. *)
Definition insertionOrder (ks : list string) : list string :=
  fold_left (fun acc k => if existsb (String.eqb k) acc then acc else (acc ++ [k])%list)
            ks [].

(** The integer totals of a standing, with the identity of its team:
    id, name, played, won, lost, points, runs scored, runs conceded,
    wickets taken. *)
Definition counters (s : Standing.t)
  : string * string * Z * Z * Z * Z * Z * Z * Z :=
  (Standing.id s, Standing.name s, Standing.matchesPlayed s,
   Standing.matchesWon s, Standing.matchesLost s, Standing.actualPoints s,
   Standing.runsScored s, Standing.runsConceded s, Standing.wicketsTaken s).

(** The net run rate as the comparator reads it. *)
Definition nrrKey (s : Standing.t) : float := JS.orDefaultF (Standing.nrr s) 0.

(** [a] stands no lower than [b] in the three-level descending order: more
    points; or the same points and a higher net run rate; or the same points
    and net run rate and a scoring rate at least as high. *)
Definition ranksNoLower (a b : Standing.t) : Prop :=
  Standing.actualPoints b < Standing.actualPoints a
  \/ (Standing.actualPoints a = Standing.actualPoints b
      /\ (PrimFloat.ltb (nrrKey b) (nrrKey a) = true
          \/ (PrimFloat.eqb (nrrKey a) (nrrKey b) = true
              /\ PrimFloat.leb (Standing.scoringRate b) (Standing.scoringRate a) = true))).

(** [s] is level with [z] on all three levels. *)
Definition levelWith (z s : Standing.t) : bool :=
  (Standing.actualPoints z =? Standing.actualPoints s)
  && PrimFloat.eqb (nrrKey z) (nrrKey s)
  && PrimFloat.eqb (Standing.scoringRate z) (Standing.scoringRate s).

(** The team at position [i] of the standings is shown with the TIE badge. *)
Definition flagged (t : Tournament) (i : nat) : Prop :=
  exists row, nth_error (leaderboardSnapshot t) i = Some row /\ row_tie row = true.

(** A standing at another position than [i] has the points of [s]. *)
Definition sharesPoints (t : Tournament) (i : nat) (s : Standing.t) : Prop :=
  exists j o, j <> i /\ nth_error (standings t) j = Some o
              /\ Standing.actualPoints o = Standing.actualPoints s.

(** The same tournament with another list of matches. *)
Definition withMatches (t : Tournament) (ms : list Match.t) : Tournament :=
  {| isLocked := isLocked t; teams := teams t; matches := ms; config := config t |}.

(** What [applyMatch] makes of one entry of [stats]. *)
Definition touch (t : Tournament) (m : Match.t) (kv : string * Standing.t)
  : string * Standing.t :=
  hd kv (applyMatch t m [kv]).

(** The guard of [recordMatch]: both teams of the match are in [stats]. *)
Definition bothKnown (m : Match.t) (stats : Stats) : bool :=
  match lookup (Match.team1Id m) stats, lookup (Match.team2Id m) stats with
  | Some _, Some _ => true
  | _, _ => false
  end.

(** An entry of [stats] seen through its key and integer totals. *)
Definition view (kv : string * Standing.t) :=
  (fst kv, counters (snd kv)).

(** *** The order of the doubles *)

Module FloatOrder.
(** A key that orders the numbers among the floating-point data as
    [SFcompare] does: class, then exponent, then mantissa. *)
Definition key (x : spec_float) : Z * Z * Z :=
  match x with
  | S754_nan => (0, 0, 0)
  | S754_zero _ => (0, 0, 0)
  | S754_infinity s => (if s then -2 else 2, 0, 0)
  | S754_finite s m e => if s then (-1, - e, Z.neg m) else (1, e, Z.pos m)
  end.

Definition isNumber (x : spec_float) : bool :=
  match x with S754_nan => false | _ => true end.

Definition lexCompare (a b : Z * Z * Z) : comparison :=
  let '(a1, a2, a3) := a in
  let '(b1, b2, b3) := b in
  match a1 ?= b1 with
  | Eq => match a2 ?= b2 with Eq => a3 ?= b3 | c => c end
  | c => c
  end.

Definition number (x : float) : bool := isNumber (Prim2SF x).

Definition fkey (x : float) : Z * Z * Z := key (Prim2SF x).

Definition lexLt (a b : Z * Z * Z) : Prop :=
  let '(a1, a2, a3) := a in
  let '(b1, b2, b3) := b in
  a1 < b1 \/ (a1 = b1 /\ (a2 < b2 \/ (a2 = b2 /\ a3 < b3))).

(** A nonzero number of sign [s]. *)
Definition signedNonzero (s : bool) (x : spec_float) : Prop :=
  x = S754_infinity s \/ exists m e, x = S754_finite s m e.

End FloatOrder.

(** The seven integers a standing is ranked by: its points, the key of its
    net run rate, the key of its scoring rate. *)
Definition rank (s : Standing.t) : Z * (Z * Z * Z) * (Z * Z * Z) :=
  (Standing.actualPoints s, FloatOrder.fkey (nrrKey s),
   FloatOrder.fkey (Standing.scoringRate s)).

Definition rankLt (a b : Z * (Z * Z * Z) * (Z * Z * Z)) : Prop :=
  let '(p, (k1, k2, k3), (s1, s2, s3)) := a in
  let '(p', (k1', k2', k3'), (s1', s2', s3')) := b in
  p < p' \/ (p = p' /\
  (k1 < k1' \/ (k1 = k1' /\ (k2 < k2' \/ (k2 = k2' /\ (k3 < k3' \/ (k3 = k3' /\
  (s1 < s1' \/ (s1 = s1' /\ (s2 < s2' \/ (s2 = s2' /\ s3 < s3'))))))))))).

(** The scoring rate of [s] is a number. *)
Definition rated (s : Standing.t) : Prop :=
  PrimFloat.is_nan (Standing.scoringRate s) = false.

(** [x] may stand before [y] for a comparator [cmp]: the sort never moves
    [x] behind [y]. *)
Definition keeps {A : Type} (cmp : A -> A -> Z) (x y : A) : Prop :=
  (0 <? cmp x y) = false.

(** *** Notions for the further properties *)

(** The sum of a quantity over a list. *)
Definition total {A : Type} (f : A -> Z) (l : list A) : Z :=
  fold_right (fun x acc => f x + acc) 0 l.

(** The matches the loop counts: completed, with both teams in the team list. *)
Definition counted (t : Tournament) : list Match.t :=
  filter (fun m => isCompleted m && bothKnown m (initialStats t)) (matches t).

(** The value of a run of decimal digits read after [acc]. *)
Fixpoint digitsValue (d : Decimal.uint) (acc : Z) : Z :=
  match d with
  | Decimal.Nil => acc
  | Decimal.D0 d => digitsValue d (acc * 10 + 0)
  | Decimal.D1 d => digitsValue d (acc * 10 + 1)
  | Decimal.D2 d => digitsValue d (acc * 10 + 2)
  | Decimal.D3 d => digitsValue d (acc * 10 + 3)
  | Decimal.D4 d => digitsValue d (acc * 10 + 4)
  | Decimal.D5 d => digitsValue d (acc * 10 + 5)
  | Decimal.D6 d => digitsValue d (acc * 10 + 6)
  | Decimal.D7 d => digitsValue d (acc * 10 + 7)
  | Decimal.D8 d => digitsValue d (acc * 10 + 8)
  | Decimal.D9 d => digitsValue d (acc * 10 + 9)
  end.

(** The number a text of the form is saved as: [parseInt(text) || 0]. *)
Definition savedAs (text : string) : Z := JS.orZero (JS.parseInt text).

(** The form after a run of edits [(field, value)], each passed through
    [handleScoreChange]. *)
Definition typed (t : Tournament) (edits : list (string * string))
           (f : ResultForm) : ResultForm :=
  fold_left (fun f e => handleScoreChange t f (fst e) (snd e)) edits f.

(** The numbers of the form are within the limits of the entry: runs
    0 to 9999, wickets 0 to 10, whole overs between 0 and the limit. *)
Definition withinLimits (t : Tournament) (f : ResultForm) : Prop :=
  (0 <= savedAs (f_t1Runs f) <= 9999 /\ 0 <= savedAs (f_t2Runs f) <= 9999)
  /\ (0 <= savedAs (f_t1Wickets f) <= 10 /\ 0 <= savedAs (f_t2Wickets f) <= 10)
  /\ (Z.min 0 (oversLimit t) <= savedAs (f_t1OversWhole f) <= Z.max 0 (oversLimit t)
      /\ Z.min 0 (oversLimit t) <= savedAs (f_t2OversWhole f) <= Z.max 0 (oversLimit t)).

(** The match has the given id. *)
Definition hasId (matchId : string) (m : Match.t) : bool :=
  String.eqb (Match.id m) matchId.

(** The eight numbers of a score, absent ones read as 0. *)
Definition score (m : Match.t) : list Z :=
  [JS.orZero (Match.t1Runs m); JS.orZero (Match.t1Wickets m);
   JS.orZero (Match.t1OversWhole m); JS.orZero (Match.t1Balls m);
   JS.orZero (Match.t2Runs m); JS.orZero (Match.t2Wickets m);
   JS.orZero (Match.t2OversWhole m); JS.orZero (Match.t2Balls m)].

(** A match as [handleSaveResult] rewrites it with the numbers of a form. *)
Definition completedWith (form : ResultForm) (type : MatchResultType)
           (winnerId : option string) (match_ : Match.t) : Match.t :=
  {| Match.id := Match.id match_;
     Match.round := Match.round match_;
     Match.team1Id := Match.team1Id match_;
     Match.team2Id := Match.team2Id match_;
     Match.status := COMPLETED;
     Match.winnerId := winnerId;
     Match.resultType := Some type;
     Match.t1Runs := Some (savedAs (f_t1Runs form));
     Match.t1Wickets := Some (savedAs (f_t1Wickets form));
     Match.t1OversWhole := Some (savedAs (f_t1OversWhole form));
     Match.t1Balls := Some (savedAs (f_t1Balls form));
     Match.t2Runs := Some (savedAs (f_t2Runs form));
     Match.t2Wickets := Some (savedAs (f_t2Wickets form));
     Match.t2OversWhole := Some (savedAs (f_t2OversWhole form));
     Match.t2Balls := Some (savedAs (f_t2Balls form)) |}.

(** What the schedule fixes of a match: its id, round and two sides. *)
Definition pairing (m : Match.t) : string * Z * string * string :=
  (Match.id m, Match.round m, Match.team1Id m, Match.team2Id m).

(** 1 when the team with id [k] is the first side of [m], else 0; and the
    same for the second side.  A match of a team against itself has the
    team on both sides. *)
Definition side1 (k : string) (m : Match.t) : Z :=
  if String.eqb k (Match.team1Id m) then 1 else 0.

Definition side2 (k : string) (m : Match.t) : Z :=
  if String.eqb k (Match.team2Id m) then 1 else 0.

(** The match was won by its first side, by its second side, by either. *)
Definition wonBy1 (m : Match.t) : bool :=
  match Match.resultType m with Some T1_WIN => true | _ => false end.

Definition wonBy2 (m : Match.t) : bool :=
  match Match.resultType m with Some T2_WIN => true | _ => false end.

Definition decided (m : Match.t) : bool := wonBy1 m || wonBy2 m.

(** The points the loop over the completed matches adds to the first and
    to the second side of a match. *)
Definition awarded1 (t : Tournament) (m : Match.t) : Z :=
  if wonBy1 m then win (pointsConfig t)
  else if wonBy2 m then loss (pointsConfig t)
  else draw (pointsConfig t).

Definition awarded2 (t : Tournament) (m : Match.t) : Z :=
  if wonBy2 m then win (pointsConfig t)
  else if wonBy1 m then loss (pointsConfig t)
  else draw (pointsConfig t).

(** An entry of [stats] after a run of matches that all pass the guard. *)
Definition evolve (t : Tournament) (ms : list Match.t) (kv : string * Standing.t)
  : string * Standing.t :=
  fold_left (fun kv m => touch t m kv) ms kv.

(** The matches of a round, as the progress by round selects them. *)
Definition inRound (r : Z) (ms : list Match.t) : list Match.t :=
  filter (fun m => Match.round m =? r) ms.

(** The id of the fixture numbered [i]. *)
Definition fixtureId (i : nat) : string := "M-" ++ Number_toString (Z.of_nat i).

(** The two teams [a] and [b] are the two sides of the match. *)
Definition meets (a b : string) (m : Match.t) : bool :=
  (String.eqb (Match.team1Id m) a && String.eqb (Match.team2Id m) b)
  || (String.eqb (Match.team1Id m) b && String.eqb (Match.team2Id m) a).

(** Where [teams.splice(1, 0, teams.pop())] puts the element at position
    [p] of a list of [n] elements: the first stays, the last comes second,
    the others move up by one. *)
Definition moved (n p : nat) : nat :=
  if (p =? 0)%nat then 0%nat
  else if (p =? n - 1)%nat then 1%nat
  else S p.

(** The position, after [r] rotations, of the element first at position
    [q] of a list of [n] elements. *)
Definition place (n r q : nat) : nat :=
  if (q =? 0)%nat then 0%nat
  else S ((q - 1 + r) mod (n - 1)).

(** The six integer totals of a row: matches played and won, points, runs
    scored and conceded, wickets taken. *)
Definition tally (s : Standing.t) : list Z :=
  [Standing.matchesPlayed s; Standing.matchesWon s; Standing.actualPoints s;
   Standing.runsScored s; Standing.runsConceded s; Standing.wicketsTaken s].

(** What a counted match adds to the six totals of the team with id [k]. *)
Definition share (t : Tournament) (k : string) (m : Match.t) : list Z :=
  [side1 k m + side2 k m;
   side1 k m * (if wonBy1 m then 1 else 0) + side2 k m * (if wonBy2 m then 1 else 0);
   side1 k m * awarded1 t m + side2 k m * awarded2 t m;
   side1 k m * JS.orZero (Match.t1Runs m) + side2 k m * JS.orZero (Match.t2Runs m);
   side1 k m * JS.orZero (Match.t2Runs m) + side2 k m * JS.orZero (Match.t1Runs m);
   side1 k m * JS.orZero (Match.t2Wickets m) + side2 k m * JS.orZero (Match.t1Wickets m)].

(** What one of two rows has scored and faced, the other has conceded and
    bowled. *)
Definition mirrored (x y : Standing.t) : Prop :=
  Standing.runsScored x = Standing.runsConceded y
  /\ Standing.runsConceded x = Standing.runsScored y
  /\ Standing.oversFaced x = Standing.oversBowled y
  /\ Standing.oversBowled x = Standing.oversFaced y.

(** *** Notions for the exactness of the points and for the overs setting *)

(** The double [x] is the whole number [a], of absolute value below 2^53. *)
Definition wholeNumber (x : spec_float) (a : Z) : Prop :=
  match x with
  | S754_zero s => s = false /\ a = 0
  | S754_finite s m e =>
      bounded prec emax m e = true /\ e <= 0
      /\ Z.pos m = Z.abs a * 2 ^ (- e) /\ s = (a <? 0)
  | _ => False
  end.

(** The points of the table are added up exactly.  [actualPoints += v] is
    an addition of doubles, which is the addition of integers as long as
    the sum stays below 2^53 in absolute value.  A team is given at most two
    awards by a match (two when it is set against itself), each one of the
    three values of [pointsConfig], so under this condition no running total
    of any team reaches 2^53, whatever the order of the matches. *)
Definition pointsExact (t : Tournament) : Prop :=
  2 * Z.of_nat (List.length (matches t))
  * Z.max (Z.abs (win (pointsConfig t)))
          (Z.max (Z.abs (draw (pointsConfig t))) (Z.abs (loss (pointsConfig t))))
  < 2 ^ 53.

(** The points a team with id [k] is given by a match. *)
Definition award (t : Tournament) (k : string) (m : Match.t) : Z :=
  side1 k m * awarded1 t m + side2 k m * awarded2 t m.

(** The points of the team with id [k] after one more match, as the loop
    adds them: one binary64 addition for each side the team is on, the
    winning side first when a side has won, else the first side first. *)
Definition addAward (t : Tournament) (k : string) (m : Match.t) (p : float) : float :=
  let on1 (p : float) :=
    if String.eqb k (Match.team1Id m) then (p + JS.Z2F (awarded1 t m))%float else p in
  let on2 (p : float) :=
    if String.eqb k (Match.team2Id m) then (p + JS.Z2F (awarded2 t m))%float else p in
  if wonBy2 m then on1 (on2 p) else on2 (on1 p).

(** The points of the team with id [k] after a run of matches, added up in
    binary64 from 0. *)
Definition pointsAdded (t : Tournament) (k : string) (ms : list Match.t) : float :=
  fold_left (fun p m => addAward t k m p) ms 0%float.

(** The overs limit [z] is set for the matches of the tournament in one of
    the ways the creation form writes it: the text [100 Balls] for the
    ball-count format, the digits of a whole number of overs, or no text,
    which stands for 20 overs. *)
Definition oversSet (t : Tournament) (z : Z) : Prop :=
  match oversPerMatch (config t) with
  | None => z = 20
  | Some s =>
      (s = EmptyString /\ z = 20)
      \/ (s = "100 Balls"%string /\ z = 100)
      \/ (s = Number_toString z /\ 0 < z < 2 ^ 53)
  end.

(* ================================================================= *)
(** ** Facts about binary64 comparison and subtraction

    The comparator of the ranking returns differences of doubles; the sort
    reads their sign.  This part derives, from the specification of the
    primitive operations, that the sign of [x - y] is the outcome of
    comparing [x] with [y]. *)

Module FloatFacts.
Import FloatOrder.

Lemma SFcompare_key x y :
  SFcompare x y =
  if isNumber x && isNumber y then Some (lexCompare (key x) (key y)) else None.
Proof.
  destruct x as [sx|sx| |sx mx ex], y as [sy|sy| |sy my ey]; simpl;
    try reflexivity;
    try (destruct sx; reflexivity); try (destruct sy; reflexivity);
    try (destruct sx, sy; reflexivity).
  destruct sx, sy; simpl; try reflexivity.
  rewrite Z.compare_opp, (Z.compare_antisym ex ey).
  destruct (ex ?= ey); reflexivity.
Qed.

(** *** The order of the primitive comparisons *)

Lemma lexCompare_Lt a b : lexCompare a b = Lt <-> lexLt a b.
Proof.
  destruct a as [[a1 a2] a3], b as [[b1 b2] b3]; simpl.
  destruct (Z.compare_spec a1 b1), (Z.compare_spec a2 b2), (Z.compare_spec a3 b3);
    split; intros Hc; try discriminate; try reflexivity; try lia.
Qed.

Lemma lexCompare_Eq a b : lexCompare a b = Eq <-> a = b.
Proof.
  destruct a as [[a1 a2] a3], b as [[b1 b2] b3]; simpl.
  destruct (Z.compare_spec a1 b1), (Z.compare_spec a2 b2), (Z.compare_spec a3 b3);
    split; intros Hc; try discriminate; try reflexivity;
    try (injection Hc; intros; lia); subst; reflexivity.
Qed.

Lemma ltb_key x y :
  PrimFloat.ltb x y = true <->
  number x = true /\ number y = true /\ lexLt (fkey x) (fkey y).
Proof.
  rewrite ltb_spec. unfold SFltb, number, fkey. rewrite SFcompare_key.
  destruct (isNumber (Prim2SF x)), (isNumber (Prim2SF y)); simpl;
    try (split; [discriminate | intros (? & ? & ?); discriminate]).
  destruct (lexCompare (key (Prim2SF x)) (key (Prim2SF y))) eqn:E.
  - split; [discriminate |]. intros (_ & _ & H).
    apply lexCompare_Lt in H. congruence.
  - apply lexCompare_Lt in E. tauto.
  - split; [discriminate |]. intros (_ & _ & H).
    apply lexCompare_Lt in H. congruence.
Qed.

Lemma eqb_key x y :
  PrimFloat.eqb x y = true <->
  number x = true /\ number y = true /\ fkey x = fkey y.
Proof.
  rewrite eqb_spec. unfold SFeqb, number, fkey. rewrite SFcompare_key.
  destruct (isNumber (Prim2SF x)), (isNumber (Prim2SF y)); simpl;
    try (split; [discriminate | intros (? & ? & ?); discriminate]).
  destruct (lexCompare (key (Prim2SF x)) (key (Prim2SF y))) eqn:E.
  - apply lexCompare_Eq in E. tauto.
  - split; [discriminate |]. intros (_ & _ & H).
    apply lexCompare_Eq in H. congruence.
  - split; [discriminate |]. intros (_ & _ & H).
    apply lexCompare_Eq in H. congruence.
Qed.

Lemma number_is_nan x : number x = negb (PrimFloat.is_nan x).
Proof.
  unfold PrimFloat.is_nan. rewrite negb_involutive.
  destruct (PrimFloat.eqb x x) eqn:E.
  - apply eqb_key in E. tauto.
  - destruct (number x) eqn:N; [| reflexivity].
    assert (PrimFloat.eqb x x = true) by (apply eqb_key; auto). congruence.
Qed.


(** *** The sign of a difference *)

Lemma digits2_pos_bounds m :
  2 ^ (Z.pos (digits2_pos m) - 1) <= Z.pos m < 2 ^ Z.pos (digits2_pos m).
Proof.
  induction m as [m IH | m IH |]; simpl digits2_pos.
  - rewrite Pos2Z.inj_succ.
    replace (Z.succ (Z.pos (digits2_pos m)) - 1) with (Z.succ (Z.pos (digits2_pos m) - 1)) by lia.
    rewrite !Z.pow_succ_r by lia. lia.
  - rewrite Pos2Z.inj_succ.
    replace (Z.succ (Z.pos (digits2_pos m)) - 1) with (Z.succ (Z.pos (digits2_pos m) - 1)) by lia.
    rewrite !Z.pow_succ_r by lia. lia.
  - simpl. lia.
Qed.

Lemma pos_iter_xO m d : Z.pos (Pos.iter xO m d) = Z.pos m * 2 ^ Z.pos d.
Proof.
  induction d as [| d IH] using Pos.peano_ind.
  - simpl. lia.
  - rewrite Pos.iter_succ, Pos2Z.inj_succ, Z.pow_succ_r by lia.
    rewrite Pos2Z.inj_xO, IH. lia.
Qed.

Lemma shl_align_value mx ex ez :
  ez <= ex -> Z.pos (fst (shl_align mx ex ez)) = Z.pos mx * 2 ^ (ex - ez).
Proof.
  intros H. unfold shl_align.
  destruct (ez - ex) as [| d | d] eqn:E; simpl fst.
  - replace (ex - ez) with 0 by lia. simpl. lia.
  - lia.
  - rewrite pos_iter_xO. f_equal. f_equal. lia.
Qed.

Lemma bounded_inv m e :
  bounded prec emax m e = true ->
  Z.pos (digits2_pos m) <= 53 /\ -1074 <= e /\
  (-1074 < e -> Z.pos (digits2_pos m) = 53).
Proof.
  unfold bounded, canonical_mantissa, fexp, SpecFloat.emin, prec, emax.
  intros H. apply andb_prop in H. destruct H as [H _].
  apply Z.eqb_eq in H. lia.
Qed.

Lemma bounded_lt m1 e1 m2 e2 :
  bounded prec emax m1 e1 = true -> bounded prec emax m2 e2 = true ->
  e1 < e2 -> Z.pos m1 < Z.pos m2 * 2 ^ (e2 - e1).
Proof.
  intros B1 B2 Hlt.
  apply bounded_inv in B1. apply bounded_inv in B2.
  destruct B1 as (D1 & E1 & _), B2 as (_ & _ & D2).
  pose proof (digits2_pos_bounds m1) as [_ U1].
  pose proof (digits2_pos_bounds m2) as [L2 _].
  rewrite D2 in L2 by lia.
  assert (2 ^ Z.pos (digits2_pos m1) <= 2 ^ 53)
    by (apply Z.pow_le_mono_r; lia).
  assert (2 ^ 1 <= 2 ^ (e2 - e1)) by (apply Z.pow_le_mono_r; lia).
  change (2 ^ 53) with (2 ^ (53 - 1) * 2 ^ 1) in H.
  assert (2 ^ (53 - 1) * 2 ^ 1 <= Z.pos m2 * 2 ^ (e2 - e1))
    by (apply Z.mul_le_mono_nonneg; lia).
  lia.
Qed.

Lemma shr_1_m r : 0 <= shr_m r -> shr_m (shr_1 r) = shr_m r / 2.
Proof.
  destruct r as [m r s]; simpl. intros H.
  rewrite <- Z.div2_div.
  destruct m as [| [p | p |] | p]; try reflexivity; lia.
Qed.

Lemma iter_shr_1_m p : forall r,
  0 <= shr_m r -> shr_m (iter_pos shr_1 p r) = shr_m r / 2 ^ Z.pos p.
Proof.
  assert (Hnn : forall q r, 0 <= shr_m r ->
            shr_m (iter_pos shr_1 q r) = shr_m r / 2 ^ Z.pos q ->
            0 <= shr_m (iter_pos shr_1 q r)).
  { intros q r H E. rewrite E. apply Z.div_pos; lia. }
  induction p as [p IH | p IH |]; intros r H; simpl iter_pos.
  - assert (H1 : 0 <= shr_m (shr_1 r))
      by (rewrite shr_1_m by lia; apply Z.div_pos; lia).
    pose proof (IH _ H1) as E1.
    rewrite IH by (apply Hnn; assumption).
    rewrite E1, shr_1_m by lia.
    rewrite !Z.div_div by lia.
    f_equal.
    replace (Z.pos p~1) with (1 + Z.pos p + Z.pos p) by lia.
    rewrite !Z.pow_add_r by lia. lia.
  - pose proof (IH _ H) as E1.
    rewrite IH by (apply Hnn; assumption).
    rewrite E1, Z.div_div by lia.
    f_equal.
    replace (Z.pos p~0) with (Z.pos p + Z.pos p) by lia.
    rewrite Z.pow_add_r by lia. lia.
  - rewrite shr_1_m by lia. reflexivity.
Qed.

Lemma shr_record_of_loc_m m l : shr_m (shr_record_of_loc m l) = m.
Proof. destruct l as [| []]; reflexivity. Qed.

(** Shifting a positive mantissa to its canonical exponent never shifts
    all of it out. *)
Lemma shr_fexp_pos m e l :
  0 < m -> SpecFloat.emin prec emax <= e ->
  0 < shr_m (fst (shr_fexp prec emax m e l)) /\
  SpecFloat.emin prec emax <= snd (shr_fexp prec emax m e l).
Proof.
  intros Hm He. unfold shr_fexp, shr.
  destruct m as [| p | p]; try lia. simpl Zdigits2.
  pose proof (digits2_pos_bounds p) as [L _].
  unfold fexp, SpecFloat.emin, prec, emax in *.
  destruct (Z.max (Z.pos (digits2_pos p) + e - 53) (3 - 1024 - 53) - e)
    as [| q | q] eqn:E; simpl fst; simpl snd;
    try (rewrite shr_record_of_loc_m; lia).
  rewrite iter_shr_1_m by (rewrite shr_record_of_loc_m; lia).
  rewrite shr_record_of_loc_m. split; [| lia].
  apply Z.div_str_pos. split; [lia |].
  assert (2 ^ Z.pos q <= 2 ^ (Z.pos (digits2_pos p) - 1))
    by (apply Z.pow_le_mono_r; lia).
  lia.
Qed.

Lemma round_nearest_even_pos m l : 0 < m -> 0 < round_nearest_even m l.
Proof.
  intros H. unfold round_nearest_even.
  destruct l as [| []]; try lia. destruct (Z.even m); lia.
Qed.

Lemma binary_round_aux_pos sx mx ex lx :
  0 < mx -> SpecFloat.emin prec emax <= ex ->
  signedNonzero sx (binary_round_aux prec emax sx mx ex lx).
Proof.
  intros Hm He. unfold binary_round_aux.
  pose proof (shr_fexp_pos mx ex lx Hm He) as [P1 E1].
  destruct (shr_fexp prec emax mx ex lx) as [mrs' e']. simpl fst in *; simpl snd in *.
  pose proof (shr_fexp_pos _ e' loc_Exact
                (round_nearest_even_pos _ (loc_of_shr_record mrs') P1) E1) as [P2 _].
  destruct (shr_fexp prec emax (round_nearest_even (shr_m mrs') (loc_of_shr_record mrs')) e' loc_Exact)
    as [mrs'' e'']. simpl fst in *.
  destruct (shr_m mrs'') as [| m | m]; try lia.
  destruct (e'' <=? emax - prec); [right; eauto | left; reflexivity].
Qed.

Lemma binary_round_aux_sign sx mx ex lx :
  SFltb (S754_zero false) (binary_round_aux prec emax sx mx ex lx) = true ->
  sx = false.
Proof.
  unfold binary_round_aux.
  destruct (shr_fexp prec emax mx ex lx) as [mrs' e'].
  destruct (shr_fexp prec emax _ e' loc_Exact) as [mrs'' e''].
  destruct (shr_m mrs''); [| destruct (e'' <=? emax - prec) |];
    destruct sx; intros H; try reflexivity; cbv in H; discriminate.
Qed.

Lemma binary_normalize_pos D e :
  SpecFloat.emin prec emax <= e ->
  SFltb (S754_zero false) (binary_normalize prec emax D e false) = (0 <? D).
Proof.
  intros He. destruct D as [| p | p]; simpl binary_normalize.
  - reflexivity.
  - change (0 <? Z.pos p) with true. unfold binary_round.
    assert (He' : SpecFloat.emin prec emax
                  <= snd (shl_align p e (fexp prec emax (Z.pos (digits2_pos p) + e)))).
    { unfold shl_align, fexp.
      destruct (Z.max (Z.pos (digits2_pos p) + e - prec) (SpecFloat.emin prec emax) - e);
        simpl snd; lia. }
    destruct (shl_align p e (fexp prec emax (Z.pos (digits2_pos p) + e))) as [mz ez].
    simpl snd in He'.
    destruct (binary_round_aux_pos false (Z.pos mz) ez loc_Exact) as [-> | (m' & e' & ->)];
      try lia; reflexivity.
  - change (0 <? Z.neg p) with false. unfold binary_round.
    destruct (shl_align p e (fexp prec emax (Z.pos (digits2_pos p) + e))) as [mz ez].
    destruct (SFltb (S754_zero false) (binary_round_aux prec emax true (Z.pos mz) ez loc_Exact)) eqn:E;
      [| reflexivity].
    apply binary_round_aux_sign in E. discriminate.
Qed.

Lemma SFsub_pos x y :
  valid_binary x = true -> valid_binary y = true ->
  SFltb (S754_zero false) (SFsub prec emax x y) = SFltb y x.
Proof.
  destruct x as [sx | sx | | sx mx ex], y as [sy | sy | | sy my ey];
    intros Vx Vy; try reflexivity;
    try (destruct sx; reflexivity); try (destruct sy; reflexivity);
    try (destruct sx, sy; reflexivity).
  simpl in Vx, Vy. unfold SFsub.
  pose proof (bounded_inv _ _ Vx) as (_ & Ex & _).
  pose proof (bounded_inv _ _ Vy) as (_ & Ey & _).
  rewrite binary_normalize_pos
    by (unfold SpecFloat.emin, prec, emax; lia).
  rewrite !shl_align_value by lia.
  unfold SFltb, SFcompare.
  change (PosDef.Pos.compare_cont Eq my mx) with (my ?= mx)%positive.
  destruct (Z.compare_spec ey ex) as [E | L | G].
  - subst ey. rewrite Z.min_id, Z.sub_diag, Z.pow_0_r, !Z.mul_1_r.
    destruct (Pos.compare_spec my mx), sx, sy; unfold cond_Zopp;
      match goal with |- (0 <? ?D) = _ => destruct (Z.ltb_spec 0 D) end;
      try reflexivity; lia.
  - pose proof (bounded_lt _ _ _ _ Vy Vx L).
    rewrite Z.min_r, Z.sub_diag, Z.pow_0_r, !Z.mul_1_r by lia.
    destruct sx, sy; unfold cond_Zopp;
      match goal with |- (0 <? ?D) = _ => destruct (Z.ltb_spec 0 D) end;
      try reflexivity; lia.
  - pose proof (bounded_lt _ _ _ _ Vx Vy G).
    rewrite Z.min_l, Z.sub_diag, Z.pow_0_r, !Z.mul_1_r by lia.
    destruct sx, sy; unfold cond_Zopp;
      match goal with |- (0 <? ?D) = _ => destruct (Z.ltb_spec 0 D) end;
      try reflexivity; lia.
Qed.

(** The difference of two doubles is positive exactly when the first is
    the larger one: a rounded difference keeps its sign. *)
Theorem sub_pos x y : PrimFloat.ltb 0 (x - y) = PrimFloat.ltb y x.
Proof.
  rewrite !ltb_spec, sub_spec.
  replace (Prim2SF 0) with (S754_zero false) by (vm_compute; reflexivity).
  apply SFsub_pos; apply Prim2SF_valid.
Qed.
End FloatFacts.

(* ================================================================= *)
(** ** Facts about binary64 sums of whole numbers

    Whole numbers below 2^53 in absolute value are doubles, and the double
    nearest to the sum of two of them is their sum when it is below 2^53
    too: [+] on such doubles is [+] on the integers. *)

Module ExactFacts.
Import FloatFacts.

Lemma digits2_pos_unique m d :
  2 ^ (d - 1) <= Z.pos m < 2 ^ d -> Z.pos (digits2_pos m) = d.
Proof.
  intros [L U]. pose proof (digits2_pos_bounds m) as [L' U'].
  assert (0 < d).
  { destruct (Z.ltb_spec 0 d); [assumption |].
    rewrite Z.pow_neg_r in U by lia || (destruct (Z.eq_dec d 0); subst; simpl in U; lia).
    lia. }
  destruct (Z.lt_trichotomy (Z.pos (digits2_pos m)) d) as [H1 | [H1 | H1]]; [| exact H1 |].
  - assert (2 ^ Z.pos (digits2_pos m) <= 2 ^ (d - 1)) by (apply Z.pow_le_mono_r; lia).
    lia.
  - assert (2 ^ d <= 2 ^ (Z.pos (digits2_pos m) - 1)) by (apply Z.pow_le_mono_r; lia).
    lia.
Qed.

Lemma digits2_pos_shift m m' k :
  0 <= k -> Z.pos m = Z.pos m' * 2 ^ k ->
  Z.pos (digits2_pos m) = Z.pos (digits2_pos m') + k.
Proof.
  intros Hk E. apply digits2_pos_unique.
  pose proof (digits2_pos_bounds m') as [L U].
  replace (Z.pos (digits2_pos m') + k - 1) with (Z.pos (digits2_pos m') - 1 + k) by lia.
  rewrite !Z.pow_add_r by lia. rewrite E.
  assert (0 < 2 ^ k) by (apply Z.pow_pos_nonneg; lia).
  split; [apply Z.mul_le_mono_nonneg_r; lia | apply Z.mul_lt_mono_pos_r; lia].
Qed.

(** Shifting out bits that are all 0 is exact. *)
Lemma iter_shr_1_exact p : forall m,
  0 <= m ->
  iter_pos shr_1 p {| shr_m := m * 2 ^ Z.pos p; shr_r := false; shr_s := false |}
  = {| shr_m := m; shr_r := false; shr_s := false |}.
Proof.
  assert (One : forall m, 0 <= m ->
            shr_1 {| shr_m := m * 2; shr_r := false; shr_s := false |}
            = {| shr_m := m; shr_r := false; shr_s := false |}).
  { intros m Hm. destruct m as [| q | q]; try lia; [reflexivity |].
    replace (Z.pos q * 2) with (Z.pos q~0) by lia. reflexivity. }
  induction p as [p IH | p IH |]; intros m Hm; cbn [iter_pos].
  - replace (m * 2 ^ Z.pos p~1) with ((m * 2 ^ Z.pos p) * 2 ^ Z.pos p * 2).
    2: { replace (Z.pos p~1) with (Z.pos p + Z.pos p + 1) by lia.
         rewrite !Z.pow_add_r by lia. lia. }
    assert (0 <= 2 ^ Z.pos p) by (apply Z.pow_nonneg; lia).
    rewrite One by nia. rewrite IH by nia. apply IH, Hm.
  - replace (m * 2 ^ Z.pos p~0) with ((m * 2 ^ Z.pos p) * 2 ^ Z.pos p).
    2: { replace (Z.pos p~0) with (Z.pos p + Z.pos p) by lia.
         rewrite !Z.pow_add_r by lia. lia. }
    assert (0 <= 2 ^ Z.pos p) by (apply Z.pow_nonneg; lia).
    rewrite IH by nia. apply IH, Hm.
  - change (2 ^ 1) with 2. apply One, Hm.
Qed.

Lemma bounded_canonical m e :
  bounded prec emax m e = true ->
  fexp prec emax (Z.pos (digits2_pos m) + e) = e /\ e <= emax - prec.
Proof.
  unfold bounded, canonical_mantissa. intros H.
  apply andb_prop in H. destruct H as [C B].
  apply Z.eqb_eq in C. apply Z.leb_le in B. split; assumption.
Qed.

(** A mantissa that ends in [k] zeros above a canonical mantissa is
    rounded to that mantissa. *)
Lemma binary_round_aux_exact sx mx ex m' k :
  0 <= k -> Z.pos mx = Z.pos m' * 2 ^ k ->
  bounded prec emax m' (ex + k) = true ->
  binary_round_aux prec emax sx (Z.pos mx) ex loc_Exact = S754_finite sx m' (ex + k).
Proof.
  intros Hk E B. destruct (bounded_canonical _ _ B) as [C Le].
  pose proof (digits2_pos_shift mx m' k Hk E) as D.
  assert (S1 : shr_fexp prec emax (Z.pos mx) ex loc_Exact
               = ({| shr_m := Z.pos m'; shr_r := false; shr_s := false |}, ex + k)).
  { unfold shr_fexp. cbn [Zdigits2 shr_record_of_loc]. rewrite D.
    replace (Z.pos (digits2_pos m') + k + ex) with (Z.pos (digits2_pos m') + (ex + k)) by lia.
    rewrite C. replace (ex + k - ex) with k by lia.
    unfold shr. destruct k as [| p | p]; try lia.
    - rewrite Z.pow_0_r, Z.mul_1_r in E. rewrite E, Z.add_0_r. reflexivity.
    - rewrite E, iter_shr_1_exact by lia. reflexivity. }
  assert (S2 : shr_fexp prec emax (Z.pos m') (ex + k) loc_Exact
               = ({| shr_m := Z.pos m'; shr_r := false; shr_s := false |}, ex + k)).
  { unfold shr_fexp. cbn [Zdigits2 shr_record_of_loc]. rewrite C, Z.sub_diag.
    reflexivity. }
  unfold binary_round_aux. rewrite S1.
  cbn [shr_m loc_of_shr_record round_nearest_even]. rewrite S2. cbn [shr_m].
  apply Z.leb_le in Le. rewrite Le. reflexivity.
Qed.

(** Rounding a whole number below 2^53, written with any number of zeros
    after it, gives that number. *)
Lemma binary_round_whole sx mx ex v :
  0 < v < 2 ^ 53 -> ex <= 0 -> Z.pos mx = v * 2 ^ (- ex) ->
  exists m' e', binary_round prec emax sx mx ex = S754_finite sx m' e'
                /\ bounded prec emax m' e' = true /\ e' <= 0
                /\ Z.pos m' = v * 2 ^ (- e').
Proof.
  intros Hv He E.
  destruct v as [| pv | pv]; try lia.
  pose proof (digits2_pos_bounds pv) as [Lv Uv].
  set (dv := Z.pos (digits2_pos pv)) in *.
  assert (Dv : dv <= 53).
  { destruct (Z.leb_spec dv 53); [assumption |].
    assert (2 ^ 53 <= 2 ^ (dv - 1)) by (apply Z.pow_le_mono_r; lia). lia. }
  assert (D : Z.pos (digits2_pos mx) = dv - ex).
  { replace (dv - ex) with (dv + - ex) by lia.
    apply digits2_pos_shift; [lia | exact E]. }
  set (f := dv - 53).
  assert (F : fexp prec emax (Z.pos (digits2_pos mx) + ex) = f).
  { rewrite D. unfold fexp, SpecFloat.emin, prec, emax, f. lia. }
  (* the canonical mantissa *)
  set (m' := Z.to_pos (Z.pos pv * 2 ^ (- f))).
  assert (P : 0 < 2 ^ (- f)) by (apply Z.pow_pos_nonneg; unfold f; lia).
  assert (M : Z.pos m' = Z.pos pv * 2 ^ (- f)).
  { unfold m'. rewrite Z2Pos.id; [reflexivity | lia]. }
  assert (Dm : Z.pos (digits2_pos m') = 53).
  { rewrite (digits2_pos_shift m' pv (- f)); unfold f; fold dv; [lia | lia |].
    exact M. }
  assert (B : bounded prec emax m' f = true).
  { unfold bounded, canonical_mantissa. rewrite Dm.
    apply andb_true_intro. split.
    - apply Z.eqb_eq. unfold fexp, SpecFloat.emin, prec, emax, f. lia.
    - apply Z.leb_le. unfold prec, emax, f. lia. }
  exists m', f. split; [| split; [exact B | split; [unfold f; lia | exact M]]].
  unfold binary_round. rewrite F. unfold shl_align.
  destruct (f - ex) as [| q | q] eqn:Q.
  - replace f with (ex + 0) by lia.
    apply binary_round_aux_exact; [lia | | replace (ex + 0) with f by lia; exact B].
    rewrite Z.pow_0_r, Z.mul_1_r, M, E. f_equal. f_equal. lia.
  - replace f with (ex + Z.pos q) by lia.
    apply binary_round_aux_exact;
      [lia | | replace (ex + Z.pos q) with f by lia; exact B].
    rewrite M, E, <- Z.mul_assoc, <- Z.pow_add_r by lia.
    f_equal. f_equal. lia.
  - replace f with (f + 0) at 2 by lia.
    apply binary_round_aux_exact; [lia | | replace (f + 0) with f by lia; exact B].
    rewrite Z.pow_0_r, Z.mul_1_r, pos_iter_xO, M, E.
    rewrite <- Z.mul_assoc, <- Z.pow_add_r by lia.
    f_equal. f_equal. lia.
Qed.

Lemma normalize_whole a j :
  Z.abs a < 2 ^ 53 -> 0 <= j ->
  wholeNumber (binary_normalize prec emax (a * 2 ^ j) (- j) false) a.
Proof.
  intros Ha Hj.
  assert (P : 0 < 2 ^ j) by (apply Z.pow_pos_nonneg; lia).
  destruct (Z.lt_trichotomy a 0) as [N | [-> | Pa]].
  - destruct (a * 2 ^ j) as [| p | p] eqn:E; try nia.
    cbn [binary_normalize].
    destruct (binary_round_whole true p (- j) (- a)) as (m' & e' & -> & B & Le & M).
    + lia.
    + lia.
    + rewrite Z.opp_involutive. lia.
    + cbn [wholeNumber]. repeat split; try assumption.
      * rewrite M. f_equal. lia.
      * symmetry. apply Z.ltb_lt, N.
  - cbn. split; reflexivity.
  - destruct (a * 2 ^ j) as [| p | p] eqn:E; try nia.
    cbn [binary_normalize].
    destruct (binary_round_whole false p (- j) a) as (m' & e' & -> & B & Le & M).
    + lia.
    + lia.
    + rewrite Z.opp_involutive. lia.
    + cbn [wholeNumber]. repeat split; try assumption.
      * rewrite M. f_equal. lia.
      * symmetry. apply Z.ltb_ge. lia.
Qed.

(** A whole number is one double. *)
Lemma wholeNumber_unique x y a : wholeNumber x a -> wholeNumber y a -> x = y.
Proof.
  destruct x as [s | s | | s m e], y as [s' | s' | | s' m' e']; cbn [wholeNumber];
    try tauto.
  - intros [-> _] [-> _]. reflexivity.
  - intros [_ ->] (_ & _ & M & _). simpl in M. lia.
  - intros (_ & _ & M & _) [_ ->]. simpl in M. lia.
  - intros (B & Le & M & ->) (B' & Le' & M' & ->).
    assert (e = e').
    { destruct (Z.lt_trichotomy e e') as [H | [H | H]]; [| exact H |].
      - pose proof (bounded_lt _ _ _ _ B B' H) as L.
        rewrite M, M' in L. rewrite <- Z.mul_assoc, <- Z.pow_add_r in L by lia.
        replace (- e' + (e' - e)) with (- e) in L by lia. lia.
      - pose proof (bounded_lt _ _ _ _ B' B H) as L.
        rewrite M, M' in L. rewrite <- Z.mul_assoc, <- Z.pow_add_r in L by lia.
        replace (- e + (e - e')) with (- e') in L by lia. lia. }
    subst e'. f_equal. apply Pos2Z.inj. congruence.
Qed.

Lemma wholeNumber_valid x a : wholeNumber x a -> valid_binary x = true.
Proof. destruct x; cbn; tauto || (intros H; apply H). Qed.

(** The binary64 sum of two whole numbers is their sum, when it is below
    2^53 in absolute value. *)
Lemma SFadd_whole x y a b :
  wholeNumber x a -> wholeNumber y b -> Z.abs (a + b) < 2 ^ 53 ->
  wholeNumber (SFadd prec emax x y) (a + b).
Proof.
  destruct x as [s | s | | s m e], y as [s' | s' | | s' m' e']; cbn [wholeNumber];
    try tauto.
  - intros [-> ->] [-> ->] _. cbn. split; reflexivity.
  - intros [-> ->] H _. exact H.
  - intros H [-> ->] _. rewrite Z.add_0_r. exact H.
  - intros (B & Le & M & ->) (B' & Le' & M' & ->) S.
    cbn [SFadd]. set (ez := Z.min e e').
    rewrite !shl_align_value by (unfold ez; lia).
    assert (V : cond_Zopp (a <? 0) (Z.pos m * 2 ^ (e - ez))
                + cond_Zopp (b <? 0) (Z.pos m' * 2 ^ (e' - ez))
                = (a + b) * 2 ^ (- ez)).
    { rewrite M, M', <- !Z.mul_assoc, <- !Z.pow_add_r by (unfold ez; lia).
      replace (- e + (e - ez)) with (- ez) by lia.
      replace (- e' + (e' - ez)) with (- ez) by lia.
      unfold cond_Zopp.
      destruct (Z.ltb_spec a 0), (Z.ltb_spec b 0); lia. }
    rewrite V. replace ez with (- - ez) at 2 by lia.
    apply normalize_whole; [exact S | unfold ez; lia].
Qed.

Lemma Z2F_whole a : Z.abs a < 2 ^ 53 -> wholeNumber (Prim2SF (JS.Z2F a)) a.
Proof.
  intros H. unfold JS.Z2F.
  pose proof (normalize_whole a 0 H ltac:(lia)) as W.
  rewrite Z.pow_0_r, Z.mul_1_r in W. change (- 0) with 0 in W.
  rewrite Prim2SF_SF2Prim by (apply (wholeNumber_valid _ a), W). exact W.
Qed.

(** Adding doubles that are whole numbers is adding the whole numbers, as
    long as the sum is below 2^53 in absolute value. *)
Theorem Z2F_plus a b :
  Z.abs a < 2 ^ 53 -> Z.abs b < 2 ^ 53 -> Z.abs (a + b) < 2 ^ 53 ->
  (JS.Z2F a + JS.Z2F b)%float = JS.Z2F (a + b).
Proof.
  intros Ha Hb Hs.
  rewrite <- (SF2Prim_Prim2SF (JS.Z2F a + JS.Z2F b)), <- (SF2Prim_Prim2SF (JS.Z2F (a + b))).
  f_equal. rewrite add_spec.
  apply (wholeNumber_unique _ _ (a + b)).
  - apply SFadd_whole; [apply Z2F_whole, Ha | apply Z2F_whole, Hb | exact Hs].
  - apply Z2F_whole, Hs.
Qed.

End ExactFacts.

(* ================================================================= *)
(** ** Facts about the stable sort *)

Section SortFacts.
Context {A : Type} (cmp : A -> A -> Z).

(** [x] may stand before [y]. *)
Let keeps := keeps cmp.

Lemma insert_perm x l : Permutation (JS.insert cmp x l) (x :: l).
Proof.
  induction l as [| y l IH]; simpl.
  - apply Permutation_refl.
  - destruct (0 <? cmp x y).
    + eapply perm_trans; [apply perm_skip, IH | apply perm_swap].
    + apply Permutation_refl.
Qed.

Lemma sort_perm l : Permutation (JS.sort cmp l) l.
Proof.
  induction l as [| x l IH]; simpl.
  - apply perm_nil.
  - eapply perm_trans; [apply insert_perm | apply perm_skip, IH].
Qed.

(** Sortedness needs a consistent comparator on the elements at hand. *)
Variable ok : A -> Prop.
Hypothesis cmp_asym : forall x y, ok x -> ok y ->
  (0 <? cmp x y) = true -> keeps y x.
Hypothesis cmp_trans : forall x y z, ok x -> ok y -> ok z ->
  keeps x y -> keeps y z -> keeps x z.

Lemma insert_sorted x l :
  ok x -> Forall ok l ->
  StronglySorted keeps l -> StronglySorted keeps (JS.insert cmp x l).
Proof.
  intros Hx Hl Hs. induction Hs as [| y l Hs IH Hy]; simpl.
  - constructor; constructor.
  - inversion Hl as [| ? ? Oy Ol]; subst.
    destruct (0 <? cmp x y) eqn:E.
    + constructor; [apply IH; assumption |].
      apply Forall_forall. intros z Hz.
      apply (Permutation_in _ (insert_perm x l)) in Hz.
      destruct Hz as [<- | Hz].
      * apply cmp_asym; assumption.
      * rewrite Forall_forall in Hy. apply Hy, Hz.
    + constructor; [constructor; assumption |].
      constructor; [exact E |].
      rewrite Forall_forall in Hy, Ol |- *. intros z Hz.
      apply (cmp_trans x y z); auto.
Qed.

Lemma sort_sorted l : Forall ok l -> StronglySorted keeps (JS.sort cmp l).
Proof.
  induction l as [| x l IH]; intros Hl; simpl.
  - constructor.
  - inversion Hl; subst. apply insert_sorted; auto.
    apply Forall_forall. intros z Hz.
    apply (Permutation_in _ (sort_perm l)) in Hz.
    rewrite Forall_forall in H2. auto.
Qed.

(** Stability: a class of elements the comparator never reorders keeps
    the order it had. *)
Variable cls : A -> bool.
Hypothesis cls_level : forall x y, cls x = true -> cls y = true -> keeps x y.

Lemma insert_stable x l :
  filter cls (JS.insert cmp x l) = filter cls (x :: l).
Proof.
  induction l as [| y l IH]; [reflexivity |].
  simpl JS.insert. destruct (0 <? cmp x y) eqn:E; [| reflexivity].
  simpl in *. rewrite IH.
  destruct (cls x) eqn:Cx, (cls y) eqn:Cy; try reflexivity.
  pose proof (cls_level x y Cx Cy) as K. unfold keeps in K. congruence.
Qed.

Lemma sort_stable l : filter cls (JS.sort cmp l) = filter cls l.
Proof.
  induction l as [| x l IH]; [reflexivity |].
  simpl JS.sort. rewrite insert_stable. simpl. rewrite IH. reflexivity.
Qed.
End SortFacts.

Local Close Scope string_scope.

(* ================================================================= *)
(** ** Facts about the [stats] object *)

Lemma mutate_keys k f s : keys (mutate k f s) = keys s.
Proof.
  unfold keys, mutate. rewrite map_map. apply map_ext.
  intros [k' v]; simpl. destruct (String.eqb k' k); reflexivity.
Qed.

Lemma mutate_one k f k' v :
  mutate k f [(k', v)] = [(k', (if String.eqb k' k then f else fun x => x) v)].
Proof.
  unfold mutate. cbn [map fst snd]. destruct (String.eqb k' k); reflexivity.
Qed.

(** Opens [touch t m (k, v)] into the chain of updates that apply to the
    entry, by cases on the result and on which side the entry is. *)
Ltac open_touch k m :=
  unfold touch, applyMatch;
  destruct (Match.resultType m) as [[] |];
  rewrite !mutate_one; cbn [hd];
  destruct (String.eqb k (Match.team1Id m)) eqn:?,
           (String.eqb k (Match.team2Id m)) eqn:?;
  cbv beta iota.

(** Reduces the projections of a chain of field updates. *)
Ltac fields :=
  cbv [view counters fst snd
       Standing.id Standing.name Standing.matchesPlayed Standing.matchesWon
       Standing.matchesLost Standing.matchesDrawn Standing.matchesTie
       Standing.matchesNR Standing.totalPoints Standing.runsScored
       Standing.oversFaced Standing.runsConceded Standing.oversBowled
       Standing.nrr Standing.actualPoints Standing.wicketsTaken
       Standing.scoringRate Standing.economyRate
       Standing.with_matchesPlayed Standing.with_matchesWon
       Standing.with_runsScored Standing.with_oversFaced
       Standing.with_runsConceded Standing.with_oversBowled
       Standing.with_actualPoints Standing.with_wicketsTaken
       Standing.with_rates].

Section StatsFacts.
Variable t : Tournament.

Lemma applyMatch_app m s1 s2 :
  applyMatch t m (s1 ++ s2) = applyMatch t m s1 ++ applyMatch t m s2.
Proof.
  unfold applyMatch, mutate.
  destruct (Match.resultType m) as [[] |]; rewrite !map_app; reflexivity.
Qed.

Lemma applyMatch_length m s :
  List.length (applyMatch t m s) = List.length s.
Proof.
  unfold applyMatch, mutate.
  destruct (Match.resultType m) as [[] |]; rewrite !length_map; reflexivity.
Qed.

Lemma applyMatch_one m kv : applyMatch t m [kv] = [touch t m kv].
Proof.
  unfold touch. pose proof (applyMatch_length m [kv]) as L.
  destruct (applyMatch t m [kv]) as [| a [| b l]]; try discriminate L.
  reflexivity.
Qed.

Lemma applyMatch_map m s : applyMatch t m s = map (touch t m) s.
Proof.
  induction s as [| kv s IH].
  - pose proof (applyMatch_length m []) as L.
    destruct (applyMatch t m []); [reflexivity | discriminate L].
  - change (kv :: s) with ([kv] ++ s).
    rewrite applyMatch_app, IH, applyMatch_one. reflexivity.
Qed.

Lemma lookup_known k s :
  lookup k s = None <-> ~ In k (keys s).
Proof.
  induction s as [| [k' v] s IH]; simpl.
  - tauto.
  - destruct (String.eqb_spec k' k).
    + split; [discriminate | tauto].
    + rewrite IH. tauto.
Qed.

Lemma bothKnown_keys m s :
  bothKnown m s = true <->
  In (Match.team1Id m) (keys s) /\ In (Match.team2Id m) (keys s).
Proof.
  unfold bothKnown.
  pose proof (lookup_known (Match.team1Id m) s) as H1.
  pose proof (lookup_known (Match.team2Id m) s) as H2.
  destruct (lookup (Match.team1Id m) s), (lookup (Match.team2Id m) s);
    split; intros H; try reflexivity; try discriminate.
  - split.
    + destruct (in_dec string_dec (Match.team1Id m) (keys s)); [assumption |].
      apply H1 in n. discriminate.
    + destruct (in_dec string_dec (Match.team2Id m) (keys s)); [assumption |].
      apply H2 in n. discriminate.
  - destruct H as [_ H]. exfalso. apply H2; auto.
  - destruct H as [H _]. exfalso. apply H1; auto.
  - destruct H as [H _]. exfalso. apply H1; auto.
Qed.

Lemma recordMatch_guard m s :
  recordMatch t m s = if bothKnown m s then map (touch t m) s else s.
Proof.
  unfold recordMatch, bothKnown. rewrite <- applyMatch_map.
  destruct (lookup (Match.team1Id m) s), (lookup (Match.team2Id m) s); reflexivity.
Qed.

Lemma touch_key m kv : fst (touch t m kv) = fst kv.
Proof. destruct kv as [k v]. open_touch k m; reflexivity. Qed.

Lemma touch_other m kv :
  fst kv <> Match.team1Id m -> fst kv <> Match.team2Id m -> touch t m kv = kv.
Proof.
  destruct kv as [k v]. cbn [fst]. intros H1 H2.
  apply String.eqb_neq in H1, H2.
  unfold touch, applyMatch.
  destruct (Match.resultType m) as [[] |];
    rewrite !mutate_one, ?H1, ?H2; reflexivity.
Qed.

(** What a match never changes in an entry. *)
Lemma touch_fixed m kv :
  Standing.id (snd (touch t m kv)) = Standing.id (snd kv)
  /\ Standing.name (snd (touch t m kv)) = Standing.name (snd kv)
  /\ Standing.matchesLost (snd (touch t m kv)) = Standing.matchesLost (snd kv).
Proof.
  destruct kv as [k v]. open_touch k m; cbn [snd]; auto.
Qed.

Lemma recordMatch_keys m s : keys (recordMatch t m s) = keys s.
Proof.
  rewrite recordMatch_guard. destruct (bothKnown m s); [| reflexivity].
  unfold keys. rewrite map_map. apply map_ext. intros kv. apply touch_key.
Qed.






Lemma bothKnown_same_keys m s s' :
  keys s = keys s' -> bothKnown m s = bothKnown m s'.
Proof.
  intros H. pose proof (bothKnown_keys m s) as K. pose proof (bothKnown_keys m s') as K'.
  rewrite H in K.
  destruct (bothKnown m s), (bothKnown m s'); try reflexivity.
  - symmetry. apply K', K. reflexivity.
  - apply K, K'. reflexivity.
Qed.







(** *** The initial accumulators *)

Lemma existsb_eqb_In k l : existsb (String.eqb k) l = true <-> In k l.
Proof.
  rewrite existsb_exists. split.
  - intros (x & Hx & E). apply String.eqb_eq in E. subst. assumption.
  - intros H. exists k. split; [assumption | apply String.eqb_refl].
Qed.

Lemma assign_keys k v s :
  keys (assign k v s)
  = if existsb (String.eqb k) (keys s) then keys s else keys s ++ [k].
Proof.
  unfold keys. induction s as [| [k' v'] s IH]; [reflexivity |].
  cbn [assign map fst existsb]. rewrite (String.eqb_sym k k').
  destruct (String.eqb k' k); cbn [orb map fst]; [reflexivity |].
  rewrite IH. destruct (existsb (String.eqb k) (map fst s)); reflexivity.
Qed.

Lemma assign_In kv k v s : In kv (assign k v s) -> kv = (k, v) \/ In kv s.
Proof.
  induction s as [| [k' v'] s IH]; simpl.
  - intros [<- | []]. auto.
  - destruct (String.eqb_spec k' k); simpl.
    + subst k'. intros [<- | H]; auto.
    + intros [<- | H]; auto. destruct (IH H); auto.
Qed.

Lemma fold_assign_keys l : forall acc,
  keys (fold_left (fun stats tm => assign (Team.id tm) (freshStanding tm) stats) l acc)
  = fold_left (fun acc k => if existsb (String.eqb k) acc then acc else acc ++ [k])
              (map Team.id l) (keys acc).
Proof.
  induction l as [| tm l IH]; intros acc; simpl; [reflexivity |].
  rewrite IH, assign_keys. reflexivity.
Qed.

Lemma initialStats_keys :
  keys (initialStats t) = insertionOrder (map Team.id (teams t)).
Proof. apply fold_assign_keys. Qed.

Lemma fold_assign_In l : forall acc kv,
  In kv (fold_left (fun stats tm => assign (Team.id tm) (freshStanding tm) stats) l acc) ->
  In kv acc \/ exists tm, In tm l /\ kv = (Team.id tm, freshStanding tm).
Proof.
  induction l as [| tm l IH]; intros acc kv H; simpl in H; [auto |].
  destruct (IH _ _ H) as [H1 | (tm' & Htm & E)].
  - destruct (assign_In _ _ _ _ H1) as [E | H2]; [| auto].
    right. exists tm. simpl. auto.
  - right. exists tm'. simpl. auto.
Qed.

Lemma initialStats_fresh kv :
  In kv (initialStats t) ->
  exists tm, In tm (teams t) /\ kv = (Team.id tm, freshStanding tm).
Proof.
  intros H. destruct (fold_assign_In _ _ _ H) as [[] | H']. exact H'.
Qed.

Lemma fold_insertion_spec l : forall acc,
  NoDup acc ->
  NoDup (fold_left (fun acc k => if existsb (String.eqb k) acc then acc else acc ++ [k]) l acc)
  /\ forall k,
       In k (fold_left (fun acc k => if existsb (String.eqb k) acc then acc else acc ++ [k]) l acc)
       <-> In k acc \/ In k l.
Proof.
  induction l as [| x l IH]; intros acc N; simpl.
  - split; [assumption | tauto].
  - destruct (existsb (String.eqb x) acc) eqn:E.
    + apply existsb_eqb_In in E. destruct (IH acc N) as [N' I]. split; [assumption |].
      intros k. rewrite I. split; [tauto |]. intros [H | [<- | H]]; auto.
    + assert (Hx : ~ In x acc).
      { intros H. apply existsb_eqb_In in H. congruence. }
      assert (N1 : NoDup (acc ++ [x])).
      { apply NoDup_app; [assumption | constructor; [tauto | constructor] |].
        intros y Hy [<- | []]. contradiction. }
      destruct (IH _ N1) as [N' I]. split; [assumption |].
      intros k. rewrite I, in_app_iff. simpl. tauto.
Qed.

Lemma insertionOrder_NoDup l : NoDup (insertionOrder l).
Proof. apply fold_insertion_spec. constructor. Qed.

Lemma insertionOrder_In l k : In k (insertionOrder l) <-> In k l.
Proof.
  unfold insertionOrder.
  destruct (fold_insertion_spec l [] (NoDup_nil _)) as [_ I].
  rewrite I. simpl. tauto.
Qed.

End StatsFacts.

Lemma lookup_map_touch t m k s :
  lookup k (map (touch t m) s)
  = option_map (fun v => snd (touch t m (k, v))) (lookup k s).
Proof.
  induction s as [| [k' v] s IH]; [reflexivity |].
  cbn [map lookup]. pose proof (touch_key t m (k', v)) as K. cbn [fst] in K.
  destruct (touch t m (k', v)) as [k'' v'] eqn:E. cbn [fst] in K. subst k''.
  destruct (String.eqb_spec k' k) as [-> | _]; [| exact IH].
  cbn [option_map]. rewrite E. reflexivity.
Qed.

(** What a match between two different teams adds to the points and to the
    over volumes of their two entries. *)
Lemma touch_sides t m v1 v2 :
  Match.team1Id m <> Match.team2Id m ->
  let v1' := snd (touch t m (Match.team1Id m, v1)) in
  let v2' := snd (touch t m (Match.team2Id m, v2)) in
  (Standing.actualPoints v1' = Standing.actualPoints v1 + awarded1 t m
   /\ Standing.actualPoints v2' = Standing.actualPoints v2 + awarded2 t m)
  /\ (Standing.oversFaced v1' = (Standing.oversFaced v1 + t1VolFaced t m)%float
      /\ Standing.oversBowled v1' = (Standing.oversBowled v1 + t2VolFaced t m)%float)
  /\ (Standing.oversFaced v2' = (Standing.oversFaced v2 + t2VolFaced t m)%float
      /\ Standing.oversBowled v2' = (Standing.oversBowled v2 + t1VolFaced t m)%float).
Proof.
  intros D. cbv zeta.
  assert (D1 : String.eqb (Match.team1Id m) (Match.team2Id m) = false)
    by (apply String.eqb_neq, D).
  assert (D2 : String.eqb (Match.team2Id m) (Match.team1Id m) = false)
    by (rewrite String.eqb_sym; exact D1).
  unfold touch, applyMatch, awarded1, awarded2, wonBy1, wonBy2.
  destruct (Match.resultType m) as [[] |];
    rewrite !mutate_one; cbn [hd];
    rewrite !String.eqb_refl, ?D1, ?D2; cbv beta iota;
    fields; repeat split; reflexivity.
Qed.

(** The two entries after [recordMatch], for a match between two different
    teams that are both in [stats]. *)
Lemma recordMatch_sides t m stats v1 v2 :
  lookup (Match.team1Id m) stats = Some v1 ->
  lookup (Match.team2Id m) stats = Some v2 ->
  lookup (Match.team1Id m) (recordMatch t m stats)
  = Some (snd (touch t m (Match.team1Id m, v1)))
  /\ lookup (Match.team2Id m) (recordMatch t m stats)
     = Some (snd (touch t m (Match.team2Id m, v2))).
Proof.
  intros L1 L2. rewrite recordMatch_guard. unfold bothKnown. rewrite L1, L2.
  rewrite !lookup_map_touch, L1, L2. split; reflexivity.
Qed.

(** *** The totals after the loop *)

Section AggregateFacts.
Variable t : Tournament.

Lemma fold_recordMatch_keys l : forall s,
  keys (fold_left (fun stats m => recordMatch t m stats) l s) = keys s.
Proof.
  induction l as [| m l IH]; intros s; simpl; [reflexivity |].
  rewrite IH. apply recordMatch_keys.
Qed.

Lemma standingsMap_keys :
  keys (standingsMap t) = insertionOrder (map Team.id (teams t)).
Proof.
  unfold standingsMap, keys. rewrite map_map. cbn [fst].
  change (map (fun x => fst x) (aggregate t)) with (keys (aggregate t)).
  unfold aggregate. rewrite fold_recordMatch_keys. apply initialStats_keys.
Qed.

(** Every entry after a run of matches comes from an entry before it, with
    the same key, identity and matches-lost counter, and is that very entry
    when none of the matches names its key. *)
Lemma fold_recordMatch_In l : forall s kv,
  In kv (fold_left (fun stats m => recordMatch t m stats) l s) ->
  exists kv0,
    In kv0 s /\ fst kv = fst kv0
    /\ Standing.id (snd kv) = Standing.id (snd kv0)
    /\ Standing.name (snd kv) = Standing.name (snd kv0)
    /\ Standing.matchesLost (snd kv) = Standing.matchesLost (snd kv0)
    /\ ((forall m, In m l ->
           fst kv0 <> Match.team1Id m /\ fst kv0 <> Match.team2Id m) ->
        kv = kv0).
Proof.
  induction l as [| m l IH]; intros s kv H; simpl in H.
  - exists kv. repeat split; auto.
  - destruct (IH _ _ H) as (kv1 & H1 & K1 & I1 & N1 & L1 & U1).
    rewrite recordMatch_guard in H1.
    assert (exists kv0, In kv0 s /\ (kv1 = kv0 \/ kv1 = touch t m kv0))
      as (kv0 & H0 & E).
    { destruct (bothKnown m s).
      - apply in_map_iff in H1. destruct H1 as (kv0 & <- & H0). eauto.
      - eauto. }
    exists kv0. split; [assumption |].
    pose proof (touch_key t m kv0) as TK.
    pose proof (touch_fixed t m kv0) as (TI & TN & TL).
    destruct E as [-> | ->].
    + repeat split; auto. intros U. apply U1. intros m' Hm'. apply U. simpl. auto.
    + repeat split; try congruence.
      intros U. rewrite U1.
      * apply touch_other; apply (U m); simpl; auto.
      * intros m' Hm'. rewrite TK. apply U. simpl. auto.
Qed.

Lemma aggregate_In kv :
  In kv (aggregate t) ->
  exists tm,
    In tm (teams t) /\ fst kv = Team.id tm
    /\ Standing.id (snd kv) = Team.id tm
    /\ Standing.matchesLost (snd kv) = 0
    /\ ((forall m, In m (matches t) -> isCompleted m = true ->
           Team.id tm <> Match.team1Id m /\ Team.id tm <> Match.team2Id m) ->
        snd kv = freshStanding tm).
Proof.
  intros H. apply fold_recordMatch_In in H.
  destruct H as (kv0 & H0 & K & I & _ & L & U).
  apply initialStats_fresh in H0. destruct H0 as (tm & Htm & ->).
  exists tm. cbn [fst snd] in *. repeat split; auto.
  intros Hm. rewrite U; [reflexivity |].
  intros m Hin. apply filter_In in Hin. destruct Hin. auto.
Qed.

Lemma standings_In s :
  In s (standings t) <->
  exists kv, In kv (aggregate t) /\ s = computeRates (snd kv).
Proof.
  unfold standings.
  split.
  - intros H. apply (Permutation_in _ (sort_perm _ _)) in H.
    unfold Object_values, standingsMap in H. rewrite map_map in H.
    apply in_map_iff in H. destruct H as (kv & <- & H).
    exists kv. split; [assumption | reflexivity].
  - intros (kv & H & ->).
    apply (Permutation_in _ (Permutation_sym (sort_perm _ _))).
    unfold Object_values, standingsMap. rewrite map_map.
    apply in_map_iff. exists kv. split; [reflexivity | assumption].
Qed.


Lemma standingsMap_ids :
  map Standing.id (Object_values (standingsMap t))
  = insertionOrder (map Team.id (teams t)).
Proof.
  rewrite <- standingsMap_keys.
  unfold Object_values, standingsMap, keys. rewrite !map_map. cbn [fst snd].
  apply map_ext_in. intros kv H.
  apply aggregate_In in H. destruct H as (tm & _ & K & I & _).
  destruct (snd kv) eqn:E. cbn in *. congruence.
Qed.

End AggregateFacts.

(* ================================================================= *)
(** ** Facts about the comparator of the ranking *)

Module RankFacts.
Import FloatOrder FloatFacts.

Lemma leb_key x y :
  PrimFloat.leb x y = true <->
  number x = true /\ number y = true /\ (lexLt (fkey x) (fkey y) \/ fkey x = fkey y).
Proof.
  rewrite leb_spec. unfold SFleb, number, fkey. rewrite SFcompare_key.
  destruct (isNumber (Prim2SF x)), (isNumber (Prim2SF y)); simpl;
    try (split; [discriminate | intros (? & ? & ?); discriminate]).
  pose proof (lexCompare_Lt (key (Prim2SF x)) (key (Prim2SF y))) as L.
  pose proof (lexCompare_Eq (key (Prim2SF x)) (key (Prim2SF y))) as E.
  destruct (lexCompare (key (Prim2SF x)) (key (Prim2SF y))).
  - intuition.
  - intuition.
  - split; [discriminate |]. intros (_ & _ & [H | H]).
    + apply L in H. discriminate.
    + apply E in H. discriminate.
Qed.

Lemma signF_pos f : (0 <? JS.signF f) = PrimFloat.ltb 0 f.
Proof.
  unfold JS.signF. destruct (PrimFloat.ltb 0 f), (PrimFloat.ltb f 0); reflexivity.
Qed.

Lemma nrrKey_number s : number (nrrKey s) = true.
Proof.
  unfold nrrKey, JS.orDefaultF. rewrite number_is_nan.
  destruct (PrimFloat.is_nan (Standing.nrr s)) eqn:N; [reflexivity |].
  destruct (PrimFloat.eqb (Standing.nrr s) 0); [reflexivity |].
  simpl. rewrite N. reflexivity.
Qed.

Lemma rated_number s : rated s <-> number (Standing.scoringRate s) = true.
Proof.
  unfold rated. rewrite number_is_nan.
  destruct (PrimFloat.is_nan (Standing.scoringRate s)); simpl; intuition congruence.
Qed.

(** The comparator is positive exactly when its second argument ranks
    strictly higher. *)
Lemma compareStandings_pos a b :
  rated a -> rated b ->
  ((0 <? compareStandings a b) = true <-> rankLt (rank a) (rank b)).
Proof.
  intros Ra Rb. apply rated_number in Ra, Rb.
  pose proof (nrrKey_number a) as Na. pose proof (nrrKey_number b) as Nb.
  unfold compareStandings, rank.
  pose proof (ltb_key (nrrKey a) (nrrKey b)) as LK.
  pose proof (eqb_key (nrrKey b) (nrrKey a)) as EK.
  pose proof (ltb_key (Standing.scoringRate a) (Standing.scoringRate b)) as LS.
  fold (nrrKey a) (nrrKey b).
  destruct (fkey (nrrKey a)) as [[k1 k2] k3].
  destruct (fkey (nrrKey b)) as [[k1' k2'] k3'].
  destruct (fkey (Standing.scoringRate a)) as [[s1 s2] s3].
  destruct (fkey (Standing.scoringRate b)) as [[s1' s2'] s3'].
  unfold rankLt, lexLt in *.
  destruct (Z.eqb_spec (Standing.actualPoints b) (Standing.actualPoints a)) as [E | E];
    cbn [negb].
  - destruct (PrimFloat.eqb (nrrKey b) (nrrKey a)) eqn:Q; cbn [negb].
    + rewrite signF_pos, sub_pos, LS.
      destruct EK as [EK _]. destruct (EK eq_refl) as (_ & _ & K).
      assert (k1' = k1 /\ k2' = k2 /\ k3' = k3) by (repeat split; congruence).
      intuition lia.
    + rewrite signF_pos, sub_pos, LK.
      assert (K : (k1', k2', k3') <> (k1, k2, k3)).
      { intros K. destruct EK as [_ EK].
        assert (false = true) by (apply EK; auto). discriminate. }
      split.
      * intros (_ & _ & H). lia.
      * intros H. repeat split; auto.
        assert (~ (k1 = k1' /\ k2 = k2' /\ k3 = k3'))
          by (intros (-> & -> & ->); apply K; reflexivity).
        lia.
  - rewrite Z.ltb_lt. lia.
Qed.

Lemma rankLt_asym x y : rankLt x y -> ~ rankLt y x.
Proof.
  destruct x as [[p [[k1 k2] k3]] [[s1 s2] s3]], y as [[p' [[k1' k2'] k3']] [[s1' s2'] s3']].
  unfold rankLt. lia.
Qed.

Lemma rankLt_cotrans x y z : rankLt x z -> rankLt x y \/ rankLt y z.
Proof.
  destruct x as [[p [[k1 k2] k3]] [[s1 s2] s3]], y as [[p' [[k1' k2'] k3']] [[s1' s2'] s3']],
           z as [[p'' [[k1'' k2''] k3'']] [[s1'' s2''] s3'']].
  unfold rankLt. lia.
Qed.

Lemma keeps_rank a b :
  rated a -> rated b ->
  (keeps compareStandings a b <-> ~ rankLt (rank a) (rank b)).
Proof.
  intros Ra Rb. unfold keeps. rewrite <- (compareStandings_pos a b Ra Rb).
  destruct (0 <? compareStandings a b); intuition congruence.
Qed.

Lemma compareStandings_asym x y :
  rated x -> rated y ->
  (0 <? compareStandings x y) = true -> keeps compareStandings y x.
Proof.
  intros Rx Ry H. apply keeps_rank; auto.
  apply compareStandings_pos in H; auto. apply rankLt_asym, H.
Qed.

Lemma compareStandings_trans x y z :
  rated x -> rated y -> rated z ->
  keeps compareStandings x y -> keeps compareStandings y z ->
  keeps compareStandings x z.
Proof.
  intros Rx Ry Rz H1 H2.
  apply keeps_rank in H1, H2; auto. apply keeps_rank; auto.
  intros H. destruct (rankLt_cotrans _ (rank y) _ H); contradiction.
Qed.

(** Standings the comparator leaves in place are in descending order. *)
Lemma keeps_ranksNoLower a b :
  rated a -> rated b -> keeps compareStandings a b -> ranksNoLower a b.
Proof.
  intros Ra Rb H. apply keeps_rank in H; auto.
  apply rated_number in Ra, Rb.
  pose proof (nrrKey_number a) as Na. pose proof (nrrKey_number b) as Nb.
  unfold ranksNoLower.
  rewrite (ltb_key (nrrKey b) (nrrKey a)), (eqb_key (nrrKey a) (nrrKey b)),
          (leb_key (Standing.scoringRate b) (Standing.scoringRate a)).
  unfold rank in H.
  destruct (fkey (nrrKey a)) as [[k1 k2] k3].
  destruct (fkey (nrrKey b)) as [[k1' k2'] k3'].
  destruct (fkey (Standing.scoringRate a)) as [[s1 s2] s3].
  destruct (fkey (Standing.scoringRate b)) as [[s1' s2'] s3'].
  unfold rankLt, lexLt in *.
  destruct (Z.lt_trichotomy (Standing.actualPoints a) (Standing.actualPoints b))
    as [P | [P | P]]; [lia | | lia].
  right. split; [assumption |].
  assert (C : (k1' < k1 \/ (k1' = k1 /\ (k2' < k2 \/ (k2' = k2 /\ k3' < k3))))
              \/ (k1 = k1' /\ k2 = k2' /\ k3 = k3')) by lia.
  destruct C as [C | (-> & -> & ->)]; [left; auto |].
  right. split; [auto |]. repeat split; auto.
  assert (C : (s1' < s1 \/ (s1' = s1 /\ (s2' < s2 \/ (s2' = s2 /\ s3' < s3))))
              \/ (s1' = s1 /\ s2' = s2 /\ s3' = s3)) by lia.
  destruct C as [C | (-> & -> & ->)]; auto.
Qed.

(** Standings level on all three levels are never reordered. *)
Lemma levelWith_keeps z x y :
  levelWith z x = true -> levelWith z y = true -> keeps compareStandings x y.
Proof.
  unfold levelWith. intros Hx Hy.
  apply andb_prop in Hx, Hy. destruct Hx as [Hx Sx], Hy as [Hy Sy].
  apply andb_prop in Hx, Hy. destruct Hx as [Px Kx], Hy as [Py Ky].
  apply Z.eqb_eq in Px, Py.
  apply eqb_key in Sx, Sy, Kx, Ky.
  destruct Sx as (_ & Nx & Sx), Sy as (_ & Ny & Sy), Kx as (_ & _ & Kx), Ky as (_ & _ & Ky).
  assert (Rx : rated x) by (apply rated_number; assumption).
  assert (Ry : rated y) by (apply rated_number; assumption).
  apply keeps_rank; auto. unfold rank.
  rewrite <- Px, <- Py, <- Kx, <- Ky, <- Sx, <- Sy.
  intros H. exact (rankLt_asym _ _ H H).
Qed.

End RankFacts.

(* ================================================================= *)
(** ** Facts about printing and parsing integers *)

Module TextFacts.
Import Decimal DecimalString.

Lemma readDigits_uint d : forall acc cnt,
  JS.readDigits JS.digitVal 10 (NilEmpty.string_of_uint d) acc cnt
  = (digitsValue d acc, (cnt + nb_digits d)%nat, EmptyString).
Proof.
  induction d; intros acc cnt; cbn [NilEmpty.string_of_uint JS.readDigits digitsValue nb_digits];
    try (rewrite Nat.add_0_r; reflexivity);
    change (JS.digitVal _) with (Some 0) || change (JS.digitVal _) with (Some 1)
    || change (JS.digitVal _) with (Some 2) || change (JS.digitVal _) with (Some 3)
    || change (JS.digitVal _) with (Some 4) || change (JS.digitVal _) with (Some 5)
    || change (JS.digitVal _) with (Some 6) || change (JS.digitVal _) with (Some 7)
    || change (JS.digitVal _) with (Some 8) || change (JS.digitVal _) with (Some 9);
    cbv iota; rewrite IHd; f_equal; f_equal; lia.
Qed.

Lemma digitsValue_pos d : forall p,
  digitsValue d (Z.pos p) = Z.pos (Pos.of_uint_acc d p).
Proof.
  induction d; intros p; cbn [digitsValue Pos.of_uint_acc]; try reflexivity;
    match goal with
    | |- digitsValue _ ?a = Z.pos (Pos.of_uint_acc _ ?q) =>
        replace a with (Z.pos q) by lia
    end; apply IHd.
Qed.

Lemma digitsValue_0 d : digitsValue d 0 = Z.of_N (Pos.of_uint d).
Proof.
  induction d; cbn [digitsValue Pos.of_uint]; try reflexivity;
    [exact IHd | ..]; apply (digitsValue_pos d 1) || apply (digitsValue_pos d 2)
    || apply (digitsValue_pos d 3) || apply (digitsValue_pos d 4)
    || apply (digitsValue_pos d 5) || apply (digitsValue_pos d 6)
    || apply (digitsValue_pos d 7) || apply (digitsValue_pos d 8)
    || apply (digitsValue_pos d 9).
Qed.


Lemma parseInt_uint d :
  d <> Nil ->
  JS.parseInt (NilEmpty.string_of_uint d) = Some (digitsValue d 0)
  /\ JS.parseInt (String "-" (NilEmpty.string_of_uint d)) = Some (- digitsValue d 0).
Proof.
  intros Hd.
  assert (R : forall s,
    JS.readDigits JS.digitVal 10 (NilEmpty.string_of_uint d) 0 0%nat
      = (digitsValue d 0, nb_digits d, s) ->
    match nb_digits d with O => None | _ => Some (digitsValue d 0) end
      = Some (digitsValue d 0)).
  { intros s _. destruct d; try reflexivity. contradiction. }
  pose proof (readDigits_uint d 0 0%nat) as E. cbn [Nat.add] in E.
  assert (N : match nb_digits d with
              | O => @None Z | _ => Some (- digitsValue d 0) end
              = Some (- digitsValue d 0)).
  { destruct d; try reflexivity. contradiction. }
  specialize (R _ E).
  assert (W : forall c s, JS.isWhite c = false ->
                JS.skipWhite (String c s) = String c s).
  { intros c s Hc. cbn [JS.skipWhite]. rewrite Hc. reflexivity. }
  destruct d as [| d | d | d | d | d | d | d | d | d | d]; try contradiction;
    cbn [NilEmpty.string_of_uint] in E |- *;
    try (split; unfold JS.parseInt; rewrite W by reflexivity;
         unfold JS.readSign; cbv beta iota zeta; rewrite E; assumption).
  (* a leading zero: the next character is a digit or the end *)
  destruct d; cbn [NilEmpty.string_of_uint] in E |- *;
    split; unfold JS.parseInt; rewrite W by reflexivity;
    unfold JS.readSign; cbv beta iota zeta; rewrite E; assumption.
Qed.

Lemma parseInt_toString z : JS.parseInt (Number_toString z) = Some z.
Proof.
  unfold Number_toString.
  destruct z as [| p | p]; [reflexivity | |];
    cbn [Z.to_int NilZero.string_of_int];
    pose proof (DecimalPos.Unsigned.to_uint_nonnil p) as Hn;
    pose proof (DecimalPos.Unsigned.of_to p) as Ho;
    destruct (parseInt_uint _ Hn) as [P1 P2];
    rewrite digitsValue_0, Ho in P1, P2; cbn [Z.of_N Z.opp] in P1, P2.
  - unfold NilZero.string_of_uint.
    destruct (Pos.to_uint p); try contradiction; exact P1.
  - unfold NilZero.string_of_uint.
    destruct (Pos.to_uint p); try contradiction; exact P2.
Qed.

Lemma toString_inj x y : Number_toString x = Number_toString y -> x = y.
Proof.
  intros H. pose proof (parseInt_toString x) as Hx.
  rewrite H, parseInt_toString in Hx. congruence.
Qed.

Lemma toString_nonempty z : Number_toString z <> EmptyString.
Proof.
  intros H. pose proof (parseInt_toString z) as P. rewrite H in P. discriminate.
Qed.

End TextFacts.

(* ================================================================= *)
(** ** Facts about the overs setting *)

Module OversFacts.
Import Decimal DecimalString.

Lemma parseFloat_uint d :
  d <> Nil ->
  JS.parseFloat (NilEmpty.string_of_uint d) = JS.decimalToFloat (digitsValue d 0) 0.
Proof.
  intros Hd.
  pose proof (TextFacts.readDigits_uint d 0 0%nat) as E. cbn [Nat.add] in E.
  assert (W : forall c s, JS.isWhite c = false ->
                JS.skipWhite (String c s) = String c s).
  { intros c s Hc. cbn [JS.skipWhite]. rewrite Hc. reflexivity. }
  assert (R : match (nb_digits d + 0)%nat with
              | O => nan
              | S _ => JS.decimalToFloat (digitsValue d 0)
                         (JS.readExponent EmptyString - Z.of_nat 0)
              end = JS.decimalToFloat (digitsValue d 0) 0).
  { destruct d; try reflexivity. contradiction. }
  destruct d as [| d | d | d | d | d | d | d | d | d | d]; try contradiction;
    cbn [NilEmpty.string_of_uint] in E |- *;
    unfold JS.parseFloat; rewrite W by reflexivity;
    unfold JS.readSign; cbv beta iota zeta;
    match goal with
    | |- context [String.prefix ?a ?b] =>
        change (String.prefix a b) with false
    end;
    cbv iota; rewrite E; exact R.
Qed.

(** A positive integer below 2^63 is a double above 0. *)
Lemma Z2F_pos z : 0 < z < 2 ^ 63 -> PrimFloat.ltb 0 (JS.Z2F z) = true.
Proof.
  intros H. rewrite ltb_spec. unfold JS.Z2F.
  replace (Prim2SF 0) with (S754_zero false) by (vm_compute; reflexivity).
  assert (E : binary_normalize prec emax z 0 false
              = Prim2SF (of_uint63 (Uint63.of_Z z))).
  { rewrite of_uint63_spec, Uint63.of_Z_spec.
    rewrite Z.mod_small; [reflexivity |]. unfold Uint63.wB. cbn. lia. }
  rewrite E, SF2Prim_Prim2SF, <- E.
  rewrite FloatFacts.binary_normalize_pos by (vm_compute; discriminate).
  apply Z.ltb_lt. lia.
Qed.

Lemma orDefaultF_pos x d : PrimFloat.ltb 0 x = true -> JS.orDefaultF x d = x.
Proof.
  intros H. unfold JS.orDefaultF.
  apply FloatFacts.ltb_key in H. destruct H as (_ & N & L).
  rewrite FloatFacts.number_is_nan in N.
  destruct (PrimFloat.is_nan x); [discriminate N |].
  destruct (PrimFloat.eqb x 0) eqn:E; [| reflexivity].
  apply FloatFacts.eqb_key in E. destruct E as (_ & _ & E). rewrite E in L.
  exfalso. revert L. generalize (FloatOrder.fkey 0). intros [[a b] c]. cbn. lia.
Qed.

End OversFacts.

(** A whole number from 1 up, written in digits, is read by [parseFloat]
    as that number. *)
Lemma parseFloat_toString z :
  0 < z -> JS.parseFloat (Number_toString z) = JS.Z2F z.
Proof.
  intros Hz. unfold Number_toString. destruct z as [| p | p]; try lia.
  cbn [Z.to_int DecimalString.NilZero.string_of_int].
  pose proof (DecimalPos.Unsigned.to_uint_nonnil p) as Hn.
  pose proof (DecimalPos.Unsigned.of_to p) as Ho.
  assert (Z : DecimalString.NilZero.string_of_uint (Pos.to_uint p)
              = DecimalString.NilEmpty.string_of_uint (Pos.to_uint p)).
  { unfold DecimalString.NilZero.string_of_uint.
    destruct (Pos.to_uint p); [contradiction | ..]; reflexivity. }
  rewrite Z, (OversFacts.parseFloat_uint _ Hn), TextFacts.digitsValue_0, Ho.
  cbn [Z.of_N]. unfold JS.decimalToFloat, JS.Z2F.
  change (0 <=? 0) with true. cbv iota.
  change (10 ^ 0) with 1. rewrite Z.mul_1_r. reflexivity.
Qed.

(** The two readings of the overs setting, [parseFloat] for the standings
    and [parseInt] for the result form, on the settings of [oversSet]. *)
Lemma oversSet_read t z :
  oversSet t z ->
  maxOvers t = JS.Z2F z /\ oversLimit t = z
  /\ (isHundred t = true -> z = 100).
Proof.
  unfold oversSet, maxOvers, oversLimit, isHundred.
  destruct (oversPerMatch (config t)) as [s |].
  2: { intros ->. repeat split. discriminate. }
  intros [[-> ->] | [[-> ->] | [-> Hz]]].
  - repeat split. discriminate.
  - repeat split.
  - pose proof (TextFacts.parseInt_toString z) as P.
    pose proof (TextFacts.toString_nonempty z) as NE.
    assert (H : String.eqb (Number_toString z) "100 Balls" = false).
    { destruct (String.eqb_spec (Number_toString z) "100 Balls") as [B | _];
        [| reflexivity].
      rewrite B in P. vm_compute in P. injection P as <-.
      vm_compute in B. discriminate B. }
    rewrite H.
    assert (S : JS.orString (Some (Number_toString z)) "20" = Number_toString z).
    { unfold JS.orString. destruct (Number_toString z); [contradiction | reflexivity]. }
    rewrite S, P, parseFloat_toString by lia. cbn [JS.orZero].
    split; [| split; [| discriminate]].
    + apply OversFacts.orDefaultF_pos, OversFacts.Z2F_pos. lia.
    + unfold JS.orDefault. destruct (Z.eqb_spec z 0); [lia | reflexivity].
Qed.

(* ================================================================= *)
(** ** Facts about sums *)

Section TotalFacts.
Context {A : Type}.

Lemma total_cons (f : A -> Z) x l : total f (x :: l) = f x + total f l.
Proof. reflexivity. Qed.

Lemma total_app (f : A -> Z) l l' : total f (l ++ l') = total f l + total f l'.
Proof.
  induction l as [| x l IH]; [reflexivity |].
  cbn [app]. rewrite !total_cons, IH. lia.
Qed.

Lemma total_perm (f : A -> Z) l l' : Permutation l l' -> total f l = total f l'.
Proof. induction 1; rewrite ?total_cons; lia. Qed.

Lemma total_ext_in (f g : A -> Z) l :
  (forall x, In x l -> f x = g x) -> total f l = total g l.
Proof.
  induction l as [| x l IH]; intros H; [reflexivity |].
  rewrite !total_cons, IH, (H x) by (intros; try apply H; simpl; auto).
  reflexivity.
Qed.

Lemma total_plus (f g : A -> Z) l :
  total (fun x => f x + g x) l = total f l + total g l.
Proof. induction l as [| x l IH]; [reflexivity |]. rewrite !total_cons, IH. lia. Qed.

Lemma total_scale (f : A -> Z) c l :
  total (fun x => f x * c) l = total f l * c.
Proof. induction l as [| x l IH]; [reflexivity |]. rewrite !total_cons, IH. lia. Qed.

Lemma total_zero l : total (fun _ : A => 0) l = 0.
Proof. induction l as [| x l IH]; [reflexivity |]. rewrite total_cons, IH. lia. Qed.

Lemma total_const c l : total (fun _ : A => c) l = c * Z.of_nat (List.length l).
Proof.
  induction l as [| x l IH]; [cbn; lia |].
  rewrite total_cons, IH. cbn [List.length]. lia.
Qed.

Lemma total_filter (p : A -> bool) l :
  total (fun x => if p x then 1 else 0) l = Z.of_nat (List.length (filter p l)).
Proof.
  induction l as [| x l IH]; [reflexivity |].
  rewrite total_cons, IH. cbn [filter]. destruct (p x); cbn [List.length]; lia.
Qed.

Lemma total_map {B : Type} (g : B -> A) (f : A -> Z) l :
  total f (map g l) = total (fun x => f (g x)) l.
Proof.
  induction l as [| x l IH]; [reflexivity |].
  cbn [map]. rewrite !total_cons, IH. reflexivity.
Qed.

End TotalFacts.

Lemma total_swap {A B : Type} (g : A -> B -> Z) l l' :
  total (fun x => total (g x) l') l = total (fun y => total (fun x => g x y) l) l'.
Proof.
  induction l as [| x l IH].
  - cbn [total fold_right]. symmetry. apply total_zero.
  - rewrite total_cons, IH, <- total_plus. reflexivity.
Qed.


Lemma total_indicator x ks :
  NoDup ks -> In x ks ->
  total (fun k => if String.eqb k x then 1 else 0) ks = 1.
Proof.
  induction 1 as [| k ks N _ IH]; intros I; [destruct I |].
  rewrite total_cons.
  destruct (String.eqb_spec k x) as [-> | D].
  - rewrite (total_ext_in _ (fun _ => 0)), total_zero; [reflexivity |].
    intros y Hy. destruct (String.eqb_spec y x); [subst; contradiction | reflexivity].
  - destruct I as [E | I]; [contradiction |]. rewrite IH by exact I. reflexivity.
Qed.

(* ================================================================= *)
(** ** Facts about the totals, team by team *)

Section TeamFacts.
Variable t : Tournament.

(** The loop over the completed matches updates every entry on its own,
    with the matches that pass the guard. *)
Lemma fold_recordMatch_evolve ms : forall s,
  keys s = keys (initialStats t) ->
  fold_left (fun stats m => recordMatch t m stats) (filter isCompleted ms) s
  = map (evolve t (filter (fun m => isCompleted m && bothKnown m (initialStats t)) ms)) s.
Proof.
  induction ms as [| m ms IH]; intros s K.
  - cbn. symmetry. apply map_id.
  - cbn [filter]. destruct (isCompleted m); cbn [andb]; [| apply IH, K].
    cbn [fold_left]. rewrite IH by (rewrite recordMatch_keys; exact K).
    rewrite recordMatch_guard, (bothKnown_same_keys m s _ K).
    destruct (bothKnown m (initialStats t)); [| reflexivity].
    rewrite map_map. reflexivity.
Qed.

Lemma aggregate_evolve :
  aggregate t = map (evolve t (counted t)) (initialStats t).
Proof. apply fold_recordMatch_evolve. reflexivity. Qed.

Lemma evolve_key ms : forall kv, fst (evolve t ms kv) = fst kv.
Proof.
  induction ms as [| m ms IH]; intros kv; [reflexivity |].
  cbn [evolve fold_left]. fold (evolve t ms (touch t m kv)).
  rewrite IH. apply touch_key.
Qed.

(** What one match adds to the integer totals of an entry. *)
Lemma touch_totals m k v :
  Standing.matchesPlayed (snd (touch t m (k, v)))
    = Standing.matchesPlayed v + (side1 k m + side2 k m)
  /\ Standing.matchesWon (snd (touch t m (k, v)))
    = Standing.matchesWon v
      + (side1 k m * (if wonBy1 m then 1 else 0)
         + side2 k m * (if wonBy2 m then 1 else 0))
  /\ Standing.actualPoints (snd (touch t m (k, v)))
    = Standing.actualPoints v + (side1 k m * awarded1 t m + side2 k m * awarded2 t m)
  /\ Standing.runsScored (snd (touch t m (k, v)))
    = Standing.runsScored v
      + (side1 k m * JS.orZero (Match.t1Runs m) + side2 k m * JS.orZero (Match.t2Runs m))
  /\ Standing.runsConceded (snd (touch t m (k, v)))
    = Standing.runsConceded v
      + (side1 k m * JS.orZero (Match.t2Runs m) + side2 k m * JS.orZero (Match.t1Runs m))
  /\ Standing.wicketsTaken (snd (touch t m (k, v)))
    = Standing.wicketsTaken v
      + (side1 k m * JS.orZero (Match.t2Wickets m)
         + side2 k m * JS.orZero (Match.t1Wickets m)).
Proof.
  unfold side1, side2, awarded1, awarded2, wonBy1, wonBy2.
  open_touch k m; fields; repeat split; lia.
Qed.

Lemma evolve_field (f : Standing.t -> Z) (g : string -> Match.t -> Z) :
  (forall m k v, f (snd (touch t m (k, v))) = f v + g k m) ->
  forall ms k v, f (snd (evolve t ms (k, v))) = f v + total (g k) ms.
Proof.
  intros H. induction ms as [| m ms IH]; intros k v.
  - cbn. lia.
  - cbn [evolve fold_left]. fold (evolve t ms (touch t m (k, v))).
    pose proof (touch_key t m (k, v)) as K. cbn [fst] in K.
    destruct (touch t m (k, v)) as [k' v'] eqn:E. cbn [fst] in K. subst k'.
    rewrite IH, total_cons.
    specialize (H m k v). rewrite E in H. cbn [snd] in H. lia.
Qed.


Lemma evolve_id ms : forall kv,
  Standing.id (snd (evolve t ms kv)) = Standing.id (snd kv).
Proof.
  induction ms as [| m ms IH]; intros kv; [reflexivity |].
  cbn [evolve fold_left]. fold (evolve t ms (touch t m kv)).
  rewrite IH. apply touch_fixed.
Qed.

(** An entry of the totals is the entry of a team, grown by the counted
    matches. *)
Lemma aggregate_entry kv :
  In kv (aggregate t) ->
  exists tm, In tm (teams t)
             /\ kv = evolve t (counted t) (Team.id tm, freshStanding tm).
Proof.
  rewrite aggregate_evolve. intros H. apply in_map_iff in H.
  destruct H as (kv0 & <- & H0). apply initialStats_fresh in H0.
  destruct H0 as (tm & Htm & ->). eauto.
Qed.

Lemma counted_known m :
  In m (counted t) ->
  In (Match.team1Id m) (keys (initialStats t))
  /\ In (Match.team2Id m) (keys (initialStats t)).
Proof.
  intros H. apply filter_In in H. destruct H as [_ H].
  apply andb_prop in H. destruct H as [_ H]. apply bothKnown_keys, H.
Qed.

(** A total over the table is the total over the counted matches of what
    a match adds on its two sides. *)
Lemma table_total (f : Standing.t -> Z) (a b : Match.t -> Z) :
  (forall x, f (computeRates x) = f x) ->
  (forall tm, f (freshStanding tm) = 0) ->
  (forall m k v,
      f (snd (touch t m (k, v))) = f v + (side1 k m * a m + side2 k m * b m)) ->
  total f (standings t) = total (fun m => a m + b m) (counted t).
Proof.
  intros Hc Hf Ht. unfold standings.
  rewrite (total_perm f _ _ (sort_perm _ _)).
  unfold Object_values, standingsMap. rewrite !total_map. cbn [snd].
  rewrite aggregate_evolve, total_map.
  rewrite (total_ext_in _
             (fun kv0 => total (fun m => side1 (fst kv0) m * a m
                                         + side2 (fst kv0) m * b m) (counted t))).
  2: { intros kv0 H0. apply initialStats_fresh in H0.
       destruct H0 as (tm & _ & ->). cbn [fst].
       rewrite Hc, (evolve_field f _ Ht). cbn [snd]. rewrite Hf. lia. }
  rewrite <- (total_map fst (fun k => total (fun m => side1 k m * a m + side2 k m * b m)
                                           (counted t))).
  fold (keys (initialStats t)). rewrite total_swap.
  apply total_ext_in. intros m Hm.
  destruct (counted_known m Hm) as [K1 K2].
  pose proof (insertionOrder_NoDup (map Team.id (teams t))) as N.
  rewrite <- (initialStats_keys t) in N.
  rewrite total_plus, !total_scale.
  unfold side1, side2. rewrite !total_indicator by assumption. lia.
Qed.

End TeamFacts.

Ltac rates_keep := intros x; destruct x; reflexivity.

(* ================================================================= *)
(** ** Facts about the exactness of the points

    The points are integers in the model and doubles in the program.  Under
    [pointsExact] every running total stays below 2^53, where the two
    agree: the integer of a row is the double the loop has added up. *)

Lemma total_bound {A : Type} (f : A -> Z) (b : Z) l :
  (forall x, In x l -> Z.abs (f x) <= b) ->
  Z.abs (total f l) <= Z.of_nat (List.length l) * b.
Proof.
  intros H. induction l as [| x l IH].
  - cbn. lia.
  - rewrite total_cons. cbn [List.length].
    pose proof (H x (or_introl eq_refl)) as Hx.
    assert (IH' : Z.abs (total f l) <= Z.of_nat (List.length l) * b).
    { apply IH. intros y Hy. apply H. right. exact Hy. }
    lia.
Qed.

(** The points a team is given by a match are at most two of the values of
    [pointsConfig]. *)
Lemma award_bound t k m :
  Z.abs (award t k m)
  <= 2 * Z.max (Z.abs (win (pointsConfig t)))
               (Z.max (Z.abs (draw (pointsConfig t))) (Z.abs (loss (pointsConfig t)))).
Proof.
  unfold award, side1, side2, awarded1, awarded2.
  destruct (String.eqb k (Match.team1Id m)), (String.eqb k (Match.team2Id m)),
           (wonBy1 m), (wonBy2 m); lia.
Qed.

(** When the points are added up exactly, the points a team has after any
    number of the counted matches are below 2^53 in absolute value. *)
Lemma running_points_exact t k n :
  pointsExact t ->
  Z.abs (total (award t k) (firstn n (counted t))) < 2 ^ 53.
Proof.
  unfold pointsExact. intros X.
  pose proof (total_bound (award t k) _ (firstn n (counted t))
                          (fun x _ => award_bound t k x)) as B.
  assert (L : (List.length (firstn n (counted t)) <= List.length (matches t))%nat).
  { rewrite length_firstn. unfold counted.
    pose proof (filter_length_le
                  (fun m => isCompleted m && bothKnown m (initialStats t)) (matches t)).
    lia. }
  set (M := Z.max _ _) in *.
  assert (0 <= M) by (unfold M; lia).
  nia.
Qed.

(** One match more, in binary64 and in integers. *)
Lemma addAward_exact t k m z :
  Z.abs z
  + 2 * Z.max (Z.abs (win (pointsConfig t)))
              (Z.max (Z.abs (draw (pointsConfig t))) (Z.abs (loss (pointsConfig t))))
  < 2 ^ 53 ->
  addAward t k m (JS.Z2F z) = JS.Z2F (z + award t k m).
Proof.
  intros H. unfold addAward, award, side1, side2.
  assert (A1 : Z.abs (awarded1 t m)
               <= Z.max (Z.abs (win (pointsConfig t)))
                        (Z.max (Z.abs (draw (pointsConfig t)))
                               (Z.abs (loss (pointsConfig t)))))
    by (unfold awarded1; destruct (wonBy1 m), (wonBy2 m); lia).
  assert (A2 : Z.abs (awarded2 t m)
               <= Z.max (Z.abs (win (pointsConfig t)))
                        (Z.max (Z.abs (draw (pointsConfig t)))
                               (Z.abs (loss (pointsConfig t)))))
    by (unfold awarded2; destruct (wonBy1 m), (wonBy2 m); lia).
  destruct (String.eqb k (Match.team1Id m)), (String.eqb k (Match.team2Id m)),
           (wonBy2 m);
    rewrite ?ExactFacts.Z2F_plus by lia; f_equal; lia.
Qed.

(** A run of matches, in binary64 and in integers. *)
Lemma fold_addAward_exact t k ms : forall z,
  Z.abs z
  + 2 * Z.of_nat (List.length ms)
    * Z.max (Z.abs (win (pointsConfig t)))
            (Z.max (Z.abs (draw (pointsConfig t))) (Z.abs (loss (pointsConfig t))))
  < 2 ^ 53 ->
  fold_left (fun p m => addAward t k m p) ms (JS.Z2F z)
  = JS.Z2F (z + total (award t k) ms).
Proof.
  induction ms as [| m ms IH]; intros z H.
  - cbn. f_equal. lia.
  - cbn [fold_left]. rewrite total_cons.
    pose proof (award_bound t k m) as B.
    set (M := Z.max _ _) in *.
    assert (0 <= M) by (unfold M; lia).
    cbn [List.length] in H.
    rewrite addAward_exact by (fold M; lia).
    rewrite IH by (fold M; lia). f_equal. lia.
Qed.

(** The points of a row of the table, in closed form. *)
Lemma points_of_row t s :
  In s (standings t) ->
  Standing.actualPoints s = total (award t (Standing.id s)) (counted t).
Proof.
  intros H. apply standings_In in H. destruct H as (kv & H & ->).
  apply aggregate_entry in H. destruct H as (tm & _ & ->).
  assert (K : Standing.id (computeRates
                (snd (evolve t (counted t) (Team.id tm, freshStanding tm))))
              = Team.id tm).
  { transitivity (Standing.id (snd (evolve t (counted t) (Team.id tm, freshStanding tm)))).
    - generalize (snd (evolve t (counted t) (Team.id tm, freshStanding tm))). rates_keep.
    - apply evolve_id. }
  rewrite K.
  transitivity (Standing.actualPoints
                  (snd (evolve t (counted t) (Team.id tm, freshStanding tm))));
    [generalize (snd (evolve t (counted t) (Team.id tm, freshStanding tm))); rates_keep |].
  rewrite (evolve_field t _ _
             (fun m k v => proj1 (proj2 (proj2 (touch_totals t m k v))))).
  reflexivity.
Qed.

(** When the points are added up exactly, the points of every row are
    below 2^53 in absolute value. *)
Lemma points_of_row_exact t s :
  pointsExact t -> In s (standings t) -> Z.abs (Standing.actualPoints s) < 2 ^ 53.
Proof.
  intros X H. rewrite (points_of_row t s H).
  rewrite <- (firstn_all (counted t)). apply running_points_exact, X.
Qed.

(** When the points are added up exactly, the binary64 additions of the
    loop give every team the sum of its awards. *)
Lemma pointsAdded_total t k :
  pointsExact t ->
  pointsAdded t k (counted t) = JS.Z2F (total (award t k) (counted t)).
Proof.
  intros X. unfold pointsAdded.
  change 0%float with (JS.Z2F 0).
  rewrite fold_addAward_exact; [reflexivity |].
  unfold pointsExact in X.
  assert (L : (List.length (counted t) <= List.length (matches t))%nat)
    by apply filter_length_le.
  set (M := Z.max _ _) in *.
  assert (0 <= M) by (unfold M; lia).
  nia.
Qed.

(** When the points are added up exactly, the points of a row are, as a
    double, the points the loop has added up in binary64: the integers of
    the model are the doubles of the program. *)
Lemma points_as_doubles t s :
  pointsExact t -> In s (standings t) ->
  pointsAdded t (Standing.id s) (counted t) = JS.Z2F (Standing.actualPoints s).
Proof.
  intros X H. rewrite (points_of_row t s H). apply pointsAdded_total, X.
Qed.

Lemma pointsExact_withMatches t ms :
  List.length ms = List.length (matches t) ->
  pointsExact t -> pointsExact (withMatches t ms).
Proof.
  intros E H. unfold pointsExact in *.
  change (pointsConfig (withMatches t ms)) with (pointsConfig t).
  cbn [withMatches matches]. rewrite E. exact H.
Qed.

(* ================================================================= *)
(** ** Properties of the specification *)

(** *** The scenario *)

(** C1.  Teams A and B, points 2/1/0, a 20-over match entered as A 180/6 in
    20.0 overs and B 150/10 in 18.3 overs: the result is a first-batting win
    with winner A, both sides have 20 overs faced (B by the all-out rule),
    A has 2 points and B none, and the net run rates are 1.5 and -1.5. *)
Theorem scenario_first_batting_win :
  map Match.resultType (matches Scenario.after) = [Some T1_WIN]
  /\ map Match.winnerId (matches Scenario.after) = [Some (Team.id Scenario.A)]
  /\ map (fun s => (Standing.id s, Standing.oversFaced s,
                    Standing.actualPoints s, Standing.nrr s))
         (standings Scenario.after)
     = [(Team.id Scenario.A, 20%float, 2, 1.5%float);
        (Team.id Scenario.B, 20%float, 0, (-1.5)%float)].
Proof. vm_compute. repeat split. Qed.

(** *** Won and lost counters *)

(** No update of the loop writes [matchesLost]: it is 0 in every standing. *)
Lemma matchesLost_never_written t s :
  In s (standings t) -> Standing.matchesLost s = 0.
Proof.
  intros H. apply standings_In in H. destruct H as (kv & H & ->).
  apply aggregate_In in H. destruct H as (tm & _ & _ & _ & L & _).
  destruct (snd kv). exact L.
Qed.

(** C2.  After the decisive match of the scenario (A beats B) both teams have
    one match played and A has one match won, but B's matches-lost counter is
    still 0: the loop counts wins and never counts losses. *)
Theorem loser_not_counted :
  map Match.resultType (matches Scenario.after) = [Some T1_WIN]
  /\ map (fun s => (Standing.id s, Standing.matchesPlayed s,
                    Standing.matchesWon s, Standing.matchesLost s))
         (standings Scenario.after)
     = [(Team.id Scenario.A, 1, 1, 0); (Team.id Scenario.B, 1, 0, 0)].
Proof. vm_compute. repeat split. Qed.

(** *** Configured points *)

(** Configured values other than 0 are applied as they are. *)
Lemma pointsConfig_nonzero t :
  isHundred t = false ->
  (pointsForWin (config t) <> 0 -> win (pointsConfig t) = pointsForWin (config t))
  /\ (pointsForDraw (config t) <> 0 -> draw (pointsConfig t) = pointsForDraw (config t))
  /\ loss (pointsConfig t) = pointsForLoss (config t).
Proof.
  intros H. unfold pointsConfig, JS.orDefault. rewrite H. cbn [win draw loss].
  repeat split.
  - intros N. apply Z.eqb_neq in N. rewrite N. reflexivity.
  - intros N. apply Z.eqb_neq in N. rewrite N. reflexivity.
  - destruct (Z.eqb_spec (pointsForLoss (config t)) 0); congruence.
Qed.

(** C3.  With win points configured as 0 and loss points as -1 in the
    traditional regime, the winner of the scenario's match receives 2 points,
    not the configured 0; the loser receives the configured -1. *)
Theorem zero_win_points_replaced :
  pointsForWin (config ZeroWinPoints.after) = 0
  /\ isHundred ZeroWinPoints.after = false
  /\ win (pointsConfig ZeroWinPoints.after) = 2
  /\ map (fun s => (Standing.id s, Standing.actualPoints s))
         (standings ZeroWinPoints.after)
     = [(Team.id Scenario.A, 2); (Team.id Scenario.B, -1)].
Proof. vm_compute. repeat split. Qed.

(** *** Order of the match list *)






(** Without [pointsExact] the order of the matches shows in the points the
    program adds up: with 2^53 points for a win and 1 for a loss, a win
    followed by two losses makes 2^53 in binary64, two losses followed by
    the win make 2^53 + 2, which is the sum of the integers. *)
Lemma points_order_matters :
  let t := LargePoints.winFirst in
  let t' := withMatches t LargePoints.winLast in
  let k := Team.id Scenario.A in
  Permutation (matches t) (matches t')
  /\ ~ pointsExact t
  /\ pointsAdded t k (counted t) = JS.Z2F (2 ^ 53)
  /\ pointsAdded t' k (counted t') = JS.Z2F (2 ^ 53 + 2)
  /\ PrimFloat.ltb (JS.Z2F (2 ^ 53)) (JS.Z2F (2 ^ 53 + 2)) = true
  /\ total (award t k) (counted t) = 2 ^ 53 + 2.
Proof.
  cbv zeta. split; [apply (Permutation_cons_append [_; _]) |].
  split; [vm_compute; discriminate |].
  repeat split; vm_compute; reflexivity.
Qed.

(** *** Over volumes *)

(** C5.  A side that lost 10 wickets is given the full overs limit of the
    match as its volume, whatever its whole overs and balls are, in the
    traditional regime and in the ball-count regime, where the limit is 100.
    For the settings the creation form writes ([oversSet]) the limit is the
    number set, which is also the number the result form holds the whole
    overs to.  The volume is what the match adds to the overs faced of the
    side and to the overs bowled of the other side. *)
Theorem all_out_volume t m :
  ((Match.t1Wickets m = Some 10 -> t1VolFaced t m = maxOvers t)
   /\ (Match.t2Wickets m = Some 10 -> t2VolFaced t m = maxOvers t)
   /\ (isHundred t = true -> maxOvers t = 100%float))
  /\ (forall z,
        oversSet t z ->
        (maxOvers t = JS.Z2F z /\ oversLimit t = z)
        /\ (Match.t1Wickets m = Some 10 -> t1VolFaced t m = JS.Z2F z)
        /\ (Match.t2Wickets m = Some 10 -> t2VolFaced t m = JS.Z2F z))
  /\ (forall stats s1 s2,
        Match.team1Id m <> Match.team2Id m ->
        lookup (Match.team1Id m) stats = Some s1 ->
        lookup (Match.team2Id m) stats = Some s2 ->
        exists s1' s2',
          lookup (Match.team1Id m) (recordMatch t m stats) = Some s1'
          /\ lookup (Match.team2Id m) (recordMatch t m stats) = Some s2'
          /\ (Match.t1Wickets m = Some 10 ->
              Standing.oversFaced s1' = (Standing.oversFaced s1 + maxOvers t)%float
              /\ Standing.oversBowled s2' = (Standing.oversBowled s2 + maxOvers t)%float)
          /\ (Match.t2Wickets m = Some 10 ->
              Standing.oversFaced s2' = (Standing.oversFaced s2 + maxOvers t)%float
              /\ Standing.oversBowled s1' = (Standing.oversBowled s1 + maxOvers t)%float)).
Proof.
  assert (V : (Match.t1Wickets m = Some 10 -> t1VolFaced t m = maxOvers t)
              /\ (Match.t2Wickets m = Some 10 -> t2VolFaced t m = maxOvers t)
              /\ (isHundred t = true -> maxOvers t = 100%float)).
  { unfold t1VolFaced, t2VolFaced, maxOvers.
    repeat split; intros H; rewrite H; cbn [allOut];
      destruct (isHundred t); reflexivity. }
  split; [exact V |]. destruct V as (V1 & V2 & _). split.
  - intros z S. destruct (oversSet_read t z S) as (M & L & _).
    split; [split; assumption |]. rewrite <- M. auto.
  - intros stats s1 s2 D L1 L2.
    destruct (recordMatch_sides t m stats s1 s2 L1 L2) as [R1 R2].
    destruct (touch_sides t m s1 s2 D) as (_ & (F1 & B1) & (F2 & B2)).
    eexists _, _. split; [exact R1 |]. split; [exact R2 |].
    split; intros W.
    + rewrite F1, B2, (V1 W). split; reflexivity.
    + rewrite F2, B1, (V2 W). split; reflexivity.
Qed.

Lemma all_out_volume_witness :
  let m := hd Scenario.fixture (matches Scenario.after) in
  oversSet Scenario.after 20
  /\ Match.t2Wickets m = Some 10
  /\ JS.orZero (Match.t2OversWhole m) = 18
  /\ t2VolFaced Scenario.after m = JS.Z2F 20.
Proof.
  intros m.
  assert (S : oversSet Scenario.after 20).
  { unfold oversSet. right. right. split; [reflexivity | lia]. }
  assert (W : Match.t2Wickets m = Some 10) by reflexivity.
  split; [exact S |]. split; [exact W |]. split; [reflexivity |].
  exact (proj2 (proj2 (proj1 (proj2 (all_out_volume Scenario.after m)) 20 S)) W).
Defined.

(** A setting that is no whole number is read in two ways: of [12.5] the
    standings credit 12.5 overs to a side that is all out, and the result
    form holds the whole overs to 12. *)
Lemma fractional_overs_setting :
  let t := {| isLocked := false; teams := []; matches := [];
              config := {| oversPerMatch := Some "12.5"%string; pointsForWin := 2;
                           pointsForDraw := 1; pointsForLoss := 0 |} |} in
  maxOvers t = 12.5%float /\ oversLimit t = 12.
Proof. vm_compute. split; reflexivity. Qed.

(** C6.  In the ball-count regime a side with fewer than 10 wickets has its
    whole-overs field as volume, undivided (85 gives 85), and a match awards
    4, 2 and 0 points for win, draw and loss whatever is configured: a match
    between two known teams adds 4 to the points of the winner and 0 to
    those of the loser, or 2 to both when neither side has won, and it adds
    the volume of each side to the overs that side has faced and the other
    side has bowled; in the table the points of a team are 4 for every
    counted match it has won, 2 for every one without a winner and 0 for
    every one it has lost. *)
Theorem ball_count_regime t m :
  isHundred t = true ->
  ((forall w, Match.t1Wickets m = Some w -> w < 10 ->
              t1VolFaced t m = JS.Z2F (JS.orZero (Match.t1OversWhole m)))
   /\ (forall w, Match.t2Wickets m = Some w -> w < 10 ->
                 t2VolFaced t m = JS.Z2F (JS.orZero (Match.t2OversWhole m)))
   /\ JS.Z2F (JS.orZero (Some 85)) = 85%float
   /\ pointsConfig t = {| win := 4; draw := 2; loss := 0 |})
  /\ (forall stats s1 s2,
       Match.team1Id m <> Match.team2Id m ->
       lookup (Match.team1Id m) stats = Some s1 ->
       lookup (Match.team2Id m) stats = Some s2 ->
       exists s1' s2',
         lookup (Match.team1Id m) (recordMatch t m stats) = Some s1'
         /\ lookup (Match.team2Id m) (recordMatch t m stats) = Some s2'
         /\ Standing.actualPoints s1'
            = Standing.actualPoints s1
              + match Match.resultType m with
                | Some T1_WIN => 4
                | Some T2_WIN => 0
                | _ => 2
                end
         /\ Standing.actualPoints s2'
            = Standing.actualPoints s2
              + match Match.resultType m with
                | Some T1_WIN => 0
                | Some T2_WIN => 4
                | _ => 2
                end
         /\ (forall w, Match.t1Wickets m = Some w -> w < 10 ->
               Standing.oversFaced s1'
               = (Standing.oversFaced s1
                  + JS.Z2F (JS.orZero (Match.t1OversWhole m)))%float
               /\ Standing.oversBowled s2'
                  = (Standing.oversBowled s2
                     + JS.Z2F (JS.orZero (Match.t1OversWhole m)))%float)
         /\ (forall w, Match.t2Wickets m = Some w -> w < 10 ->
               Standing.oversFaced s2'
               = (Standing.oversFaced s2
                  + JS.Z2F (JS.orZero (Match.t2OversWhole m)))%float
               /\ Standing.oversBowled s1'
                  = (Standing.oversBowled s1
                     + JS.Z2F (JS.orZero (Match.t2OversWhole m)))%float))
  /\ forall s,
       In s (standings t) ->
       Standing.actualPoints s
       = total (fun x =>
                  side1 (Standing.id s) x
                  * match Match.resultType x with
                    | Some T1_WIN => 4
                    | Some T2_WIN => 0
                    | _ => 2
                    end
                  + side2 (Standing.id s) x
                    * match Match.resultType x with
                      | Some T1_WIN => 0
                      | Some T2_WIN => 4
                      | _ => 2
                      end)
               (counted t).
Proof.
  intros H.
  assert (A : forall w, w < 10 -> allOut (Some w) = false).
  { intros w L. unfold allOut.
    destruct w as [| p | p]; try reflexivity.
    do 4 (destruct p as [p | p |]; try reflexivity). lia. }
  assert (V1 : forall w, Match.t1Wickets m = Some w -> w < 10 ->
               t1VolFaced t m = JS.Z2F (JS.orZero (Match.t1OversWhole m))).
  { intros w E L. unfold t1VolFaced. rewrite H, E, (A w L). reflexivity. }
  assert (V2 : forall w, Match.t2Wickets m = Some w -> w < 10 ->
               t2VolFaced t m = JS.Z2F (JS.orZero (Match.t2OversWhole m))).
  { intros w E L. unfold t2VolFaced. rewrite H, E, (A w L). reflexivity. }
  assert (P : pointsConfig t = {| win := 4; draw := 2; loss := 0 |}).
  { unfold pointsConfig. rewrite H. reflexivity. }
  split; [repeat split; assumption |].
  split.
  2: { intros s I. rewrite (points_of_row t s I). apply total_ext_in.
       intros x _. unfold award, awarded1, awarded2, wonBy1, wonBy2. rewrite P.
       destruct (Match.resultType x) as [[] |]; reflexivity. }
  intros stats s1 s2 D L1 L2.
  destruct (recordMatch_sides t m stats s1 s2 L1 L2) as [R1 R2].
  destruct (touch_sides t m s1 s2 D) as ((P1 & P2) & (F1 & B1) & (F2 & B2)).
  eexists _, _. split; [exact R1 |]. split; [exact R2 |].
  split; [| split; [| split]].
  - rewrite P1. unfold awarded1, wonBy1, wonBy2. rewrite P.
    destruct (Match.resultType m) as [[] |]; reflexivity.
  - rewrite P2. unfold awarded2, wonBy1, wonBy2. rewrite P.
    destruct (Match.resultType m) as [[] |]; reflexivity.
  - intros w E L. rewrite F1, B2, (V1 w E L). split; reflexivity.
  - intros w E L. rewrite F2, B1, (V2 w E L). split; reflexivity.
Qed.

Lemma ball_count_regime_witness :
  let t := Hundred.tournament in
  let m := Hundred.game in
  isHundred t = true
  /\ pointsForWin (config t) <> 4
  /\ (Match.t1Wickets m = Some 5 /\ t1VolFaced t m = 85%float)
  /\ exists s1' s2',
       lookup (Match.team1Id m) (recordMatch t m (initialStats t)) = Some s1'
       /\ lookup (Match.team2Id m) (recordMatch t m (initialStats t)) = Some s2'
       /\ Standing.actualPoints s1' = 0 + 4
       /\ Standing.actualPoints s2' = 0 + 0.
Proof.
  intros t m.
  assert (H : isHundred t = true) by reflexivity.
  destruct (ball_count_regime t m H) as ((V & _ & E & _) & R & _).
  split; [exact H |]. split; [vm_compute; discriminate |]. split.
  - split; [reflexivity |]. rewrite (V 5 eq_refl ltac:(lia)). exact E.
  - destruct (R (initialStats t) (freshStanding Scenario.A) (freshStanding Scenario.B))
      as (s1' & s2' & R1 & R2 & P1 & P2 & _).
    + vm_compute. discriminate.
    + reflexivity.
    + reflexivity.
    + exists s1', s2'. split; [exact R1 |]. split; [exact R2 |].
      split; [exact P1 | exact P2].
Defined.

(** *** Ranking *)

Lemma StronglySorted_among {A : Type} (ok : A -> Prop) (R R' : A -> A -> Prop) l :
  (forall a b, ok a -> ok b -> R a b -> R' a b) ->
  Forall ok l -> StronglySorted R l -> StronglySorted R' l.
Proof.
  intros W F S. induction S as [| a l S IH Ha]; constructor.
  - apply IH. inversion F; assumption.
  - inversion F as [| ? ? Oa Ol]; subst.
    rewrite Forall_forall in Ha, Ol |- *. intros b Hb. apply W; auto.
Qed.

(** C7.  The standings are the entries of [stats] sorted by points, then net
    run rate, then scoring rate, each descending and each read only when the
    levels before it are equal (for scoring rates that are numbers, as every
    quotient of finite runs by positive overs is); standings equal on all
    three levels keep the order they have in [stats], which is the order of
    the team list. *)
Theorem ranker_contract t :
  Permutation (standings t) (Object_values (standingsMap t))
  /\ (Forall rated (Object_values (standingsMap t)) ->
      StronglySorted ranksNoLower (standings t))
  /\ (forall z, filter (levelWith z) (standings t)
                = filter (levelWith z) (Object_values (standingsMap t)))
  /\ map Standing.id (Object_values (standingsMap t))
     = insertionOrder (map Team.id (teams t)).
Proof.
  unfold standings. repeat split.
  - apply sort_perm.
  - intros F. apply (StronglySorted_among rated (keeps compareStandings)).
    + apply RankFacts.keeps_ranksNoLower.
    + rewrite Forall_forall in F |- *. intros s Hs. apply F.
      apply (Permutation_in _ (sort_perm _ _) Hs).
    + apply (sort_sorted compareStandings rated).
      * apply RankFacts.compareStandings_asym.
      * apply RankFacts.compareStandings_trans.
      * exact F.
  - intros z. apply sort_stable. apply RankFacts.levelWith_keeps.
  - apply standingsMap_ids.
Qed.

Lemma ranker_contract_witness :
  Forall rated (Object_values (standingsMap TwoOrders.firstOrder))
  /\ StronglySorted ranksNoLower (standings TwoOrders.firstOrder)
  /\ map Standing.name (standings TwoOrders.firstOrder)
     = ["C"; "A"; "B"; "D"]%string.
Proof.
  assert (F : Forall rated (Object_values (standingsMap TwoOrders.firstOrder))).
  { unfold rated. vm_compute. repeat constructor. }
  split; [exact F |].
  split; [exact (proj1 (proj2 (ranker_contract TwoOrders.firstOrder)) F) |].
  vm_compute. reflexivity.
Defined.

(** *** The TIE badge *)

Lemma mapFrom_nth {A B : Type} (f : A -> nat -> B) l : forall i n,
  nth_error (JS.mapFrom f i l) n
  = option_map (fun x => f x (i + n)%nat) (nth_error l n).
Proof.
  induction l as [| x l IH]; intros i [| n]; simpl; try reflexivity.
  - rewrite Nat.add_0_r. reflexivity.
  - rewrite IH. replace (i + S n)%nat with (S i + n)%nat by lia. reflexivity.
Qed.

Lemma someFrom_spec {A : Type} (p : A -> nat -> bool) l : forall i,
  JS.someFrom p i l = true <->
  exists n o, nth_error l n = Some o /\ p o (i + n)%nat = true.
Proof.
  induction l as [| x l IH]; intros i; simpl.
  - split; [discriminate |]. intros ([| n] & o & H & _); discriminate H.
  - rewrite orb_true_iff, IH. split.
    + intros [H | (n & o & H & P)].
      * exists 0%nat, x. rewrite Nat.add_0_r. auto.
      * exists (S n), o. split; [exact H |].
        replace (i + S n)%nat with (S i + n)%nat by lia. exact P.
    + intros ([| n] & o & H & P); simpl in H.
      * injection H as ->. rewrite Nat.add_0_r in P. auto.
      * right. exists n, o. split; [exact H |].
        replace (S i + n)%nat with (i + S n)%nat by lia. exact P.
Qed.

(** C8, as stated, fails for a team below fourth place: of five teams on
    equal points the fifth has no badge, the snapshot has four rows. *)
Lemma tie_flag_below_fourth :
  ~ (forall t i s, nth_error (standings t) i = Some s ->
                   (flagged t i <-> sharesPoints t i s)).
Proof.
  intros H.
  destruct (nth_error (standings FiveTeams.tournament) 4) as [s |] eqn:E;
    [| vm_compute in E; discriminate E].
  destruct (proj2 (H FiveTeams.tournament 4%nat s E)) as (row & R & _).
  - destruct (nth_error (standings FiveTeams.tournament) 0) as [o |] eqn:E0;
      [| vm_compute in E0; discriminate E0].
    exists 0%nat, o. split; [discriminate |]. split; [exact E0 |].
    vm_compute in E, E0.
    injection E as <-. injection E0 as <-. reflexivity.
  - vm_compute in R. discriminate R.
Qed.

(** C8, amended.  The TIE badge is carried by the rows of the leaderboard
    snapshot, the first four of the standings, and by no team below them.
    One of the first four carries it exactly when a standing at another
    position of the table, shown or not, has the same points; net run rate
    and scoring rate play no part. *)
Theorem tie_flag t i :
  flagged t i
  <-> (i < 4)%nat
      /\ exists s, nth_error (standings t) i = Some s /\ sharesPoints t i s.
Proof.
  unfold flagged, sharesPoints, leaderboardSnapshot.
  rewrite mapFrom_nth, nth_error_firstn. cbn [Nat.add].
  destruct (Nat.ltb_spec i 4) as [Hi | Hi].
  2: { split.
       - intros (row & R & _). discriminate R.
       - intros [L _]. lia. }
  destruct (nth_error (standings t) i) as [s |] eqn:Hs.
  2: { split.
       - intros (row & R & _). discriminate R.
       - intros (_ & s & E & _). discriminate E. }
  cbn [option_map].
  split.
  - intros (row & R & T). injection R as <-. cbn [row_tie] in T.
    unfold JS.some in T. apply someFrom_spec in T. cbn [Nat.add] in T.
    destruct T as (j & o & Hj & P). apply andb_prop in P. destruct P as [N E].
    split; [exact Hi |]. exists s. split; [reflexivity |].
    exists j, o. repeat split; auto.
    + intros ->. rewrite Nat.eqb_refl in N. discriminate.
    + apply Z.eqb_eq, E.
  - intros (_ & s' & E' & j & o & N & Hj & E). injection E' as <-.
    eexists. split; [reflexivity |].
    cbn [row_tie]. unfold JS.some. apply someFrom_spec. cbn [Nat.add].
    exists j, o. split; [exact Hj |].
    apply andb_true_intro. split.
    + apply Nat.eqb_neq in N. rewrite N. reflexivity.
    + apply Z.eqb_eq, E.
Qed.

Lemma tie_flag_witness :
  flagged TwoOrders.firstOrder 1
  /\ ~ flagged FiveTeams.tournament 4.
Proof.
  split.
  - apply (tie_flag TwoOrders.firstOrder 1). split; [lia |].
    destruct (nth_error (standings TwoOrders.firstOrder) 1) as [s |] eqn:E;
      [| vm_compute in E; discriminate E].
    exists s. split; [reflexivity |].
    destruct (nth_error (standings TwoOrders.firstOrder) 0) as [o |] eqn:E0;
      [| vm_compute in E0; discriminate E0].
    exists 0%nat, o. split; [discriminate |]. split; [exact E0 |].
    vm_compute in E, E0. injection E as <-. injection E0 as <-. reflexivity.
  - intros F. apply (tie_flag FiveTeams.tournament 4) in F.
    destruct F as [L _]. lia.
Defined.

(** *** Result entry *)

(** C9.  When a result is saved, the match found under the given id is
    rewritten with the two run totals read from the form: a first-batting win
    with team1 as winner when team1's total is higher, a second-batting win
    with team2 as winner when team2's total is higher, a tie without winner
    when the totals are equal, and never another result type. *)
Theorem classifier_contract t form matchId m :
  isLocked t = false ->
  find (fun x => String.eqb (Match.id x) matchId) (matches t) = Some m ->
  let t1R := JS.orZero (JS.parseInt (f_t1Runs form)) in
  let t2R := JS.orZero (JS.parseInt (f_t2Runs form)) in
  (exists m', In m' (matches (handleSaveResult t form matchId))
              /\ Match.id m' = matchId
              /\ Match.team1Id m' = Match.team1Id m
              /\ Match.team2Id m' = Match.team2Id m)
  /\ forall m', In m' (matches (handleSaveResult t form matchId)) ->
                Match.id m' = matchId ->
       Match.status m' = COMPLETED
       /\ Match.t1Runs m' = Some t1R /\ Match.t2Runs m' = Some t2R
       /\ (t2R < t1R -> Match.resultType m' = Some T1_WIN
                        /\ Match.winnerId m' = Some (Match.team1Id m))
       /\ (t1R < t2R -> Match.resultType m' = Some T2_WIN
                        /\ Match.winnerId m' = Some (Match.team2Id m))
       /\ (t1R = t2R -> Match.resultType m' = Some TIE
                        /\ Match.winnerId m' = None)
       /\ (Match.resultType m' = Some T1_WIN
           \/ Match.resultType m' = Some T2_WIN
           \/ Match.resultType m' = Some TIE).
Proof.
  intros L F t1R t2R. unfold handleSaveResult. rewrite L, F.
  fold t1R t2R.
  assert (C : exists ty w,
             classifyResult m t1R t2R = (ty, w)
             /\ (t2R < t1R -> ty = T1_WIN /\ w = Some (Match.team1Id m))
             /\ (t1R < t2R -> ty = T2_WIN /\ w = Some (Match.team2Id m))
             /\ (t1R = t2R -> ty = TIE /\ w = None)
             /\ (ty = T1_WIN \/ ty = T2_WIN \/ ty = TIE)).
  { unfold classifyResult.
    destruct (Z.ltb_spec t2R t1R); [| destruct (Z.ltb_spec t1R t2R)];
      eexists _, _; (split; [reflexivity |]);
      repeat split; intros; try lia; auto. }
  destruct C as (ty & w & -> & C1 & C2 & C3 & C4). cbn [matches].
  apply find_some in F. destruct F as [Hin Hid].
  split.
  - eexists. split; [apply in_map_iff; exists m; split; [reflexivity | exact Hin] |].
    rewrite Hid. cbn. apply String.eqb_eq in Hid. auto.
  - intros m' Hm' Hid'. apply in_map_iff in Hm'. destruct Hm' as (x & <- & _).
    destruct (String.eqb (Match.id x) matchId) eqn:E.
    + cbn. clear C4.
      destruct (Z.lt_trichotomy t1R t2R) as [H | [H | H]];
        [destruct (C2 H) as [-> ->] | destruct (C3 H) as [-> ->]
         | destruct (C1 H) as [-> ->]];
        repeat split; intros; try lia; auto.
    + apply String.eqb_neq in E. contradiction.
Qed.

Lemma classifier_contract_witness :
  isLocked Scenario.before = false
  /\ find (fun x => String.eqb (Match.id x) "M-1") (matches Scenario.before)
     = Some Scenario.fixture
  /\ exists m', In m' (matches Scenario.after)
                /\ Match.id m' = "M-1"%string
                /\ Match.team1Id m' = Match.team1Id Scenario.fixture
                /\ Match.team2Id m' = Match.team2Id Scenario.fixture.
Proof.
  split; [reflexivity |]. split; [reflexivity |].
  exact (proj1 (classifier_contract Scenario.before Scenario.form "M-1"
                                    Scenario.fixture eq_refl eq_refl)).
Defined.

(** *** Teams without matches *)

Lemma count_one {A : Type} (f : A -> string) k l :
  NoDup (map f l) -> In k (map f l) ->
  List.length (filter (fun x => String.eqb (f x) k) l) = 1%nat.
Proof.
  induction l as [| x l IH]; simpl; intros N I; [contradiction |].
  inversion N as [| ? ? Nx Nl]; subst.
  destruct (String.eqb_spec (f x) k) as [E | E].
  - simpl. f_equal. subst k.
    clear - Nx. induction l as [| y l IH]; [reflexivity |]. simpl in *.
    destruct (String.eqb_spec (f y) (f x)) as [E | E]; [exfalso; auto |].
    apply IH. tauto.
  - apply IH; [assumption |]. destruct I; [contradiction | assumption].
Qed.

(** C10.  Every team of the team list has exactly one standing, and a team
    that is in no completed match has 0 points and a net run rate, scoring
    rate and economy rate of 0: a rate over an overs total of 0 is 0. *)
Theorem every_team_once t team :
  In team (teams t) ->
  List.length (filter (fun s => String.eqb (Standing.id s) (Team.id team))
                      (standings t)) = 1%nat
  /\ ((forall m, In m (matches t) -> isCompleted m = true ->
         Match.team1Id m <> Team.id team /\ Match.team2Id m <> Team.id team) ->
      forall s, In s (standings t) -> Standing.id s = Team.id team ->
        Standing.actualPoints s = 0 /\ Standing.nrr s = 0%float
        /\ Standing.scoringRate s = 0%float /\ Standing.economyRate s = 0%float)
  /\ (forall s, Standing.oversFaced s = 0%float ->
                Standing.scoringRate (computeRates s) = 0%float)
  /\ (forall s, Standing.oversBowled s = 0%float ->
                Standing.economyRate (computeRates s) = 0%float).
Proof.
  intros Hin. split; [| split; [| split]].
  - pose proof (Permutation_map Standing.id (sort_perm compareStandings
                  (Object_values (standingsMap t)))) as P.
    fold (standings t) in P. rewrite standingsMap_ids in P.
    apply count_one.
    + apply (Permutation_NoDup (Permutation_sym P)), insertionOrder_NoDup.
    + apply (Permutation_in _ (Permutation_sym P)), insertionOrder_In.
      apply in_map, Hin.
  - intros Hm s Hs Hid. apply standings_In in Hs. destruct Hs as (kv & Hkv & ->).
    apply aggregate_In in Hkv. destruct Hkv as (tm & _ & _ & I & _ & U).
    assert (E : Standing.id (snd kv) = Team.id team)
      by (destruct (snd kv); exact Hid).
    rewrite U.
    + repeat split.
    + intros m Hmin C. rewrite <- I, E. destruct (Hm m Hmin C). split; congruence.
  - intros [] E. cbn in E |- *. rewrite E. reflexivity.
  - intros [] E. cbn in E |- *. rewrite E. reflexivity.
Qed.

Lemma every_team_once_witness :
  In Scenario.A (teams Scenario.before)
  /\ List.length (filter (fun s => String.eqb (Standing.id s) (Team.id Scenario.A))
                         (standings Scenario.before)) = 1%nat
  /\ forall s, In s (standings Scenario.before) ->
               Standing.id s = Team.id Scenario.A ->
       Standing.actualPoints s = 0 /\ Standing.nrr s = 0%float
       /\ Standing.scoringRate s = 0%float /\ Standing.economyRate s = 0%float.
Proof.
  assert (H : In Scenario.A (teams Scenario.before)) by (left; reflexivity).
  destruct (every_team_once Scenario.before Scenario.A H) as (L & Z & _).
  split; [exact H |]. split; [exact L |].
  apply Z. intros m [<- | []] C. discriminate C.
Defined.

(* ================================================================= *)
(** ** Facts about the result form *)

(** Decides the tests [field.includes(..)] on a field name that is known. *)
Ltac decide_includes :=
  repeat match goal with
  | |- context [String_includes ?a ?b] =>
      let v := eval vm_compute in (String_includes a b) in
      change (String_includes a b) with v
  end; cbv iota.

(** Proves a limit of a text of the form from the outcome of parsing it. *)
Ltac limit_of_text :=
  unfold savedAs in *;
  repeat match goal with
  | E : JS.parseInt ?v = _ |- context [JS.parseInt ?v] => rewrite E
  end;
  try match goal with
  | |- context [JS.parseInt (Number_toString ?z)] =>
      rewrite (TextFacts.parseInt_toString z)
  end;
  repeat match goal with
  | |- context [JS.parseInt ?s] =>
      let v := eval vm_compute in (JS.parseInt s) in
      change (JS.parseInt s) with v
  end;
  cbn [JS.orZero]; lia.

Section FormFacts.
Variable t : Tournament.

Lemma setField_unknown field value f :
  field <> "t1Runs"%string -> field <> "t1Wickets"%string ->
  field <> "t1OversWhole"%string -> field <> "t1Balls"%string ->
  field <> "t2Runs"%string -> field <> "t2Wickets"%string ->
  field <> "t2OversWhole"%string -> field <> "t2Balls"%string ->
  setField field value f = f.
Proof.
  intros H1 H2 H3 H4 H5 H6 H7 H8.
  apply String.eqb_neq in H1, H2, H3, H4, H5, H6, H7, H8.
  unfold setField. rewrite H1, H2, H3, H4, H5, H6, H7, H8. reflexivity.
Qed.

Lemma handleScoreChange_limits f field value :
  withinLimits t f -> withinLimits t (handleScoreChange t f field value).
Proof.
  intros W.
  destruct (string_dec field "t1Runs") as [-> | N1];
  [| destruct (string_dec field "t1Wickets") as [-> | N2];
  [| destruct (string_dec field "t1OversWhole") as [-> | N3];
  [| destruct (string_dec field "t1Balls") as [-> | N4];
  [| destruct (string_dec field "t2Runs") as [-> | N5];
  [| destruct (string_dec field "t2Wickets") as [-> | N6];
  [| destruct (string_dec field "t2OversWhole") as [-> | N7];
  [| destruct (string_dec field "t2Balls") as [-> | N8]]]]]]]].
  9: { unfold handleScoreChange. rewrite !setField_unknown by assumption.
       repeat match goal with |- context [if ?b then _ else _] => destruct b end;
         exact W. }
  all: unfold handleScoreChange; decide_includes;
    destruct (JS.parseInt value) as [n |] eqn:E; unfold Number_lt, Number_gt;
    repeat match goal with
    | |- context [?a <? ?b] => destruct (Z.ltb_spec a b)
    end;
    try exact W;
    cbv [setField String.eqb Ascii.eqb Bool.eqb];
    destruct W as [[R1 R2] [[W1 W2] [O1 O2]]];
    unfold withinLimits; cbn [f_t1Runs f_t2Runs f_t1Wickets f_t2Wickets
                               f_t1OversWhole f_t2OversWhole];
    repeat split; try tauto; limit_of_text.
Qed.

Lemma emptyForm_limits : withinLimits t emptyForm.
Proof. unfold withinLimits; cbn. unfold savedAs; cbn. lia. Qed.

Lemma typed_limits edits : forall f,
  withinLimits t f -> withinLimits t (typed t edits f).
Proof.
  unfold typed. induction edits as [| e edits IH]; intros f W; [exact W |].
  cbn [fold_left]. apply IH, handleScoreChange_limits, W.
Qed.

End FormFacts.

(* ================================================================= *)
(** ** Facts about saving a result *)

Section SaveFacts.
Variable t : Tournament.
Variable form : ResultForm.
Variable matchId : string.

Lemma handleSaveResult_locked :
  isLocked t = true -> handleSaveResult t form matchId = t.
Proof. intros L. unfold handleSaveResult. rewrite L. reflexivity. Qed.

Lemma handleSaveResult_unknown :
  find (hasId matchId) (matches t) = None -> handleSaveResult t form matchId = t.
Proof.
  intros F. unfold handleSaveResult. fold (hasId matchId). rewrite F.
  destruct (isLocked t); reflexivity.
Qed.

Lemma handleSaveResult_found m :
  isLocked t = false -> find (hasId matchId) (matches t) = Some m ->
  handleSaveResult t form matchId =
  withMatches t
    (map (fun x =>
            if hasId matchId x
            then completedWith form
                   (fst (classifyResult m (savedAs (f_t1Runs form)) (savedAs (f_t2Runs form))))
                   (snd (classifyResult m (savedAs (f_t1Runs form)) (savedAs (f_t2Runs form))))
                   x
            else x)
         (matches t)).
Proof.
  intros L F. unfold handleSaveResult. fold (hasId matchId). rewrite L, F.
  fold (savedAs (f_t1Runs form)) (savedAs (f_t2Runs form)).
  destruct (classifyResult m _ _) as [type winnerId].
  unfold withMatches. rewrite L. reflexivity.
Qed.

(** Whatever the outcome, the result is the tournament with some matches
    rewritten in place. *)
Lemma handleSaveResult_cases :
  handleSaveResult t form matchId = t
  \/ exists type winnerId,
       handleSaveResult t form matchId =
       withMatches t
         (map (fun x => if hasId matchId x
                        then completedWith form type winnerId x else x)
              (matches t)).
Proof.
  destruct (isLocked t) eqn:L; [left; apply handleSaveResult_locked, L |].
  destruct (find (hasId matchId) (matches t)) as [m |] eqn:F;
    [| left; apply handleSaveResult_unknown, F].
  right. eexists _, _. apply handleSaveResult_found; eassumption.
Qed.

End SaveFacts.

Lemma find_map_hasId (g : Match.t -> Match.t) matchId l :
  (forall x, Match.id (g x) = Match.id x) ->
  find (hasId matchId) (map g l) = option_map g (find (hasId matchId) l).
Proof.
  intros G. induction l as [| x l IH]; [reflexivity |].
  cbn [map find]. unfold hasId at 1 3. rewrite G.
  destruct (String.eqb (Match.id x) matchId); [reflexivity | exact IH].
Qed.

(** X1.  Saving a result never adds, removes, reorders or re-pairs a fixture,
    never touches a match with another id, and leaves the teams, the
    configuration and the lock as they are. *)
Theorem save_keeps_fixtures t form matchId :
  let t' := handleSaveResult t form matchId in
  map pairing (matches t') = map pairing (matches t)
  /\ filter (fun m => negb (hasId matchId m)) (matches t')
     = filter (fun m => negb (hasId matchId m)) (matches t)
  /\ teams t' = teams t /\ config t' = config t /\ isLocked t' = isLocked t.
Proof.
  cbv zeta.
  destruct (handleSaveResult_cases t form matchId) as [-> | (type & w & ->)];
    [repeat split |].
  cbn [withMatches matches teams config isLocked].
  repeat split.
  - rewrite map_map. apply map_ext. intros x.
    destruct (hasId matchId x); reflexivity.
  - induction (matches t) as [| x l IH]; [reflexivity |].
    cbn [map filter]. destruct (hasId matchId x) eqn:E.
    + unfold hasId in E |- *. cbn [completedWith Match.id]. rewrite E. exact IH.
    + rewrite E. cbn [negb]. f_equal. exact IH.
Qed.

(** A save that goes through puts one entry at the head of the log, with
    the clock as its id and the caption of the match in capitals as its
    action; a save that is refused leaves the log as it is. *)
Lemma handleSaveResult_logs_cases up now time t matchId logs :
  handleSaveResult_logs up now time t matchId logs
  = match (if isLocked t then None else find (hasId matchId) (matches t)) with
    | None => logs
    | Some _ =>
        {| ResultLog.id := Number_toString now;
           ResultLog.timestamp := time;
           ResultLog.action := up ("Result Entered: Match " ++ matchId)%string;
           ResultLog.reason := "Admin Action";
           ResultLog.user := "SYSTEM_ADMIN" |} :: logs
    end.
Proof.
  unfold handleSaveResult_logs. fold (hasId matchId).
  destruct (isLocked t); [reflexivity |].
  destruct (find (hasId matchId) (matches t)); reflexivity.
Qed.

(** A match that is found is found again after the save. *)
Lemma saved_again t form matchId :
  (if isLocked (handleSaveResult t form matchId) then None
   else option_map (fun _ => tt)
          (find (hasId matchId) (matches (handleSaveResult t form matchId))))
  = (if isLocked t then None
     else option_map (fun _ => tt) (find (hasId matchId) (matches t))).
Proof.
  destruct (isLocked t) eqn:L.
  { rewrite (handleSaveResult_locked t) by exact L. rewrite L. reflexivity. }
  destruct (find (hasId matchId) (matches t)) as [m |] eqn:F.
  2: { rewrite (handleSaveResult_unknown t) by exact F. rewrite L, F. reflexivity. }
  rewrite (handleSaveResult_found t form matchId m L F).
  cbn [withMatches matches isLocked]. rewrite L, find_map_hasId, F; [reflexivity |].
  intros x. destruct (hasId matchId x); reflexivity.
Qed.

(** X2.  Saving the same form twice leaves the matches, the teams, the
    configuration and the lock as saving it once does, but not the log of
    actions: unless the save is refused, each of the two saves puts an
    entry at its head. *)
Theorem save_twice t form matchId :
  let once := handleSaveResult t form matchId in
  let twice := handleSaveResult once form matchId in
  (matches twice = matches once
   /\ teams twice = teams once
   /\ config twice = config once
   /\ isLocked twice = isLocked once)
  /\ forall up now time now' time' logs,
       let logs1 := handleSaveResult_logs up now time t matchId logs in
       let logs2 := handleSaveResult_logs up now' time' once matchId logs1 in
       match (if isLocked t then None else find (hasId matchId) (matches t)) with
       | None => logs2 = logs
       | Some _ =>
           exists e1 e2,
             logs1 = e1 :: logs /\ logs2 = e2 :: e1 :: logs
             /\ ResultLog.id e1 = Number_toString now
             /\ ResultLog.id e2 = Number_toString now'
       end.
Proof.
  cbv zeta. split.
  - destruct (isLocked t) eqn:L.
    { rewrite !(handleSaveResult_locked t) by exact L. repeat split. }
    destruct (find (hasId matchId) (matches t)) as [m |] eqn:F.
    2: { rewrite !(handleSaveResult_unknown t) by exact F. repeat split. }
    rewrite (handleSaveResult_found t form matchId m L F).
    set (g := fun x => if hasId matchId x then completedWith form _ _ x else x).
    assert (G : forall x, Match.id (g x) = Match.id x).
    { intros x. unfold g. destruct (hasId matchId x); reflexivity. }
    rewrite (handleSaveResult_found _ form matchId (g m)).
    + unfold withMatches. cbn [matches isLocked teams config].
      split; [| repeat split].
      rewrite map_map. apply map_ext. intros x.
      unfold hasId at 1. rewrite G. fold (hasId matchId x).
      destruct (hasId matchId x) eqn:E; [| unfold g; rewrite E; reflexivity].
      unfold g at 3 4. rewrite E.
      assert (Em : hasId matchId m = true).
      { apply find_some in F. apply F. }
      unfold g at 1 2. rewrite Em. reflexivity.
    + exact L.
    + cbn [withMatches matches]. rewrite find_map_hasId by exact G.
      rewrite F. reflexivity.
  - intros up now time now' time' logs.
    rewrite !handleSaveResult_logs_cases.
    pose proof (saved_again t form matchId) as A.
    destruct (if isLocked t then None else find (hasId matchId) (matches t))
      as [m |] eqn:B.
    + destruct (isLocked t); [discriminate B |]. rewrite B in A.
      destruct (if isLocked (handleSaveResult t form matchId) then None
                else find (hasId matchId) (matches (handleSaveResult t form matchId)))
        as [m' |] eqn:B'.
      * eexists _, _. split; [reflexivity |]. split; [reflexivity |].
        split; reflexivity.
      * destruct (isLocked (handleSaveResult t form matchId)); [discriminate A |].
        rewrite B' in A. discriminate A.
    + destruct (if isLocked (handleSaveResult t form matchId) then None
                else find (hasId matchId) (matches (handleSaveResult t form matchId)))
        as [m' |] eqn:B'; [| reflexivity].
      destruct (isLocked (handleSaveResult t form matchId)); [discriminate B' |].
      rewrite B' in A.
      destruct (isLocked t); [discriminate A |]. rewrite B in A. discriminate A.
Qed.

Lemma save_twice_witness :
  let t := Scenario.before in
  let once := handleSaveResult t Scenario.form "M-1" in
  let twice := handleSaveResult once Scenario.form "M-1" in
  matches twice = matches once
  /\ List.length
       (handleSaveResult_logs (fun s => s) 1700000000001 "10:00:01" once "M-1"
          (handleSaveResult_logs (fun s => s) 1700000000000 "10:00:00" t "M-1" []))
     = 2%nat.
Proof.
  cbv zeta.
  destruct (save_twice Scenario.before Scenario.form "M-1") as [(M & _) L].
  split; [exact M |].
  specialize (L (fun s => s) 1700000000000 "10:00:00"%string
                1700000000001 "10:00:01"%string []).
  cbv zeta in L.
  change (if isLocked Scenario.before then None
          else find (hasId "M-1") (matches Scenario.before))
    with (Some Scenario.fixture) in L.
  cbv beta iota in L. destruct L as (e1 & e2 & _ & -> & _). reflexivity.
Defined.

Lemma textOf_savedAs x d : savedAs (textOf x d) = JS.orZero x \/ x = None.
Proof.
  destruct x as [z |]; [left | right; reflexivity].
  unfold textOf. pose proof (TextFacts.toString_nonempty z) as N.
  destruct (Number_toString z) eqn:E; [contradiction |].
  rewrite <- E. unfold savedAs. rewrite TextFacts.parseInt_toString. reflexivity.
Qed.

(** The form as opened is saved as the score of the match. *)
Lemma openForm_savedAs m :
  [savedAs (f_t1Runs (openForm m)); savedAs (f_t1Wickets (openForm m));
   savedAs (f_t1OversWhole (openForm m)); savedAs (f_t1Balls (openForm m));
   savedAs (f_t2Runs (openForm m)); savedAs (f_t2Wickets (openForm m));
   savedAs (f_t2OversWhole (openForm m)); savedAs (f_t2Balls (openForm m))]
  = score m.
Proof.
  unfold score, openForm.
  cbn [f_t1Runs f_t1Wickets f_t1OversWhole f_t1Balls
       f_t2Runs f_t2Wickets f_t2OversWhole f_t2Balls].
  repeat match goal with
  | |- context [textOf ?x ?d] =>
      let H := fresh in
      destruct (textOf_savedAs x d) as [H | H]; [rewrite H | rewrite H; cbn [textOf]];
      clear H
  end; reflexivity.
Qed.

Lemma find_hasId_In matchId l m' :
  In m' l -> hasId matchId m' = true ->
  exists m, find (hasId matchId) l = Some m.
Proof.
  intros I H. destruct (find (hasId matchId) l) as [m |] eqn:F; [eauto |].
  pose proof (find_none _ _ F _ I). congruence.
Qed.

(** X3.  A result that was saved, opened again and saved as it stands leaves
    the matches, the teams, the configuration and the lock as they are (for
    numbers below 10^21, which are printed in plain digits), and puts one
    more entry at the head of the log of actions. *)
Theorem reopen_and_save t form matchId m' :
  let t' := handleSaveResult t form matchId in
  let t'' := handleSaveResult t' (openForm m') matchId in
  find (hasId matchId) (matches t') = Some m' ->
  Forall (fun z => Z.abs z < 10 ^ 21) (score m') ->
  (matches t'' = matches t'
   /\ teams t'' = teams t'
   /\ config t'' = config t'
   /\ isLocked t'' = isLocked t')
  /\ forall up now time logs,
       isLocked t = false ->
       exists e, handleSaveResult_logs up now time t' matchId logs = e :: logs
                 /\ ResultLog.id e = Number_toString now.
Proof.
  cbv zeta. intros F' _. split.
  - destruct (isLocked t) eqn:L.
    { rewrite (handleSaveResult_locked t) in * by exact L.
      rewrite (handleSaveResult_locked t) by exact L. repeat split. }
    destruct (find (hasId matchId) (matches t)) as [m |] eqn:F.
    2: { rewrite (handleSaveResult_unknown t) in * by exact F. congruence. }
    rewrite (handleSaveResult_found t form matchId m L F) in *.
    set (g := fun x => if hasId matchId x then completedWith form _ _ x else x) in *.
    assert (G : forall x, Match.id (g x) = Match.id x).
    { intros x. unfold g. destruct (hasId matchId x); reflexivity. }
    cbn [withMatches matches] in F'. rewrite find_map_hasId, F in F' by exact G.
    injection F' as <-.
    assert (Em : hasId matchId m = true) by (apply find_some in F; apply F).
    rewrite (handleSaveResult_found _ (openForm (g m)) matchId (g m)).
    + unfold withMatches. cbn [matches isLocked teams config].
      split; [| repeat split].
      rewrite map_map. apply map_ext. intros x.
      unfold hasId at 1. rewrite G. fold (hasId matchId x).
      destruct (hasId matchId x) eqn:E; [| unfold g; rewrite E; reflexivity].
      pose proof (openForm_savedAs (g m)) as S.
      unfold g at 9 in S. rewrite Em in S.
      unfold score in S. cbn [completedWith Match.t1Runs Match.t1Wickets
        Match.t1OversWhole Match.t1Balls Match.t2Runs Match.t2Wickets
        Match.t2OversWhole Match.t2Balls JS.orZero] in S.
      injection S as S1 S2 S3 S4 S5 S6 S7 S8.
      unfold completedWith at 1.
      cbn [openForm f_t1Runs f_t1Wickets f_t1OversWhole f_t1Balls
           f_t2Runs f_t2Wickets f_t2OversWhole f_t2Balls].
      rewrite S1, S2, S3, S4, S5, S6, S7, S8.
      assert (Gm : g m = completedWith form
                     (fst (classifyResult m (savedAs (f_t1Runs form)) (savedAs (f_t2Runs form))))
                     (snd (classifyResult m (savedAs (f_t1Runs form)) (savedAs (f_t2Runs form))))
                     m)
        by (unfold g; rewrite Em; reflexivity).
      assert (Gx : g x = completedWith form
                     (fst (classifyResult m (savedAs (f_t1Runs form)) (savedAs (f_t2Runs form))))
                     (snd (classifyResult m (savedAs (f_t1Runs form)) (savedAs (f_t2Runs form))))
                     x)
        by (unfold g; rewrite E; reflexivity).
      rewrite Gx, Gm. unfold classifyResult.
      cbn [completedWith Match.id Match.round Match.team1Id Match.team2Id].
      reflexivity.
    + exact L.
    + cbn [withMatches matches]. rewrite find_map_hasId by exact G.
      rewrite F. reflexivity.
  - intros up now time logs L.
    rewrite handleSaveResult_logs_cases.
    assert (L' : isLocked (handleSaveResult t form matchId) = false).
    { destruct (handleSaveResult_cases t form matchId) as [-> | (ty & w & ->)];
        exact L. }
    rewrite L', F'. eexists. split; reflexivity.
Qed.

Lemma reopen_and_save_witness :
  let t' := handleSaveResult Scenario.before Scenario.form "M-1" in
  let m' := completedWith Scenario.form T1_WIN (Some (Team.id Scenario.A))
                          Scenario.fixture in
  let t'' := handleSaveResult t' (openForm m') "M-1" in
  matches t'' = matches t'
  /\ teams t'' = teams t'
  /\ config t'' = config t'
  /\ isLocked t'' = isLocked t'.
Proof.
  intros t' m'.
  apply (reopen_and_save Scenario.before Scenario.form "M-1" m').
  - vm_compute. reflexivity.
  - unfold score.
    repeat (apply Forall_cons; [vm_compute; reflexivity |]). apply Forall_nil.
Defined.

(** X4.  Numbers typed into an empty form and saved are within the limits of
    the entry: 0 to 9999 runs, 0 to 10 wickets, and whole overs between 0
    and the limit of the format, when that limit is not negative. *)
Theorem typed_result_within_limits t edits matchId m' :
  isLocked t = false ->
  0 <= oversLimit t ->
  In m' (matches (handleSaveResult t (typed t edits emptyForm) matchId)) ->
  hasId matchId m' = true ->
  Match.status m' = COMPLETED
  /\ (0 <= JS.orZero (Match.t1Runs m') <= 9999
      /\ 0 <= JS.orZero (Match.t2Runs m') <= 9999)
  /\ (0 <= JS.orZero (Match.t1Wickets m') <= 10
      /\ 0 <= JS.orZero (Match.t2Wickets m') <= 10)
  /\ (0 <= JS.orZero (Match.t1OversWhole m') <= oversLimit t
      /\ 0 <= JS.orZero (Match.t2OversWhole m') <= oversLimit t).
Proof.
  intros L Lim I H.
  pose proof (typed_limits t edits emptyForm (emptyForm_limits t)) as W.
  set (form := typed t edits emptyForm) in *.
  destruct (find (hasId matchId) (matches t)) as [m |] eqn:F.
  2: { rewrite (handleSaveResult_unknown t) in I by exact F.
       pose proof (find_none _ _ F _ I). congruence. }
  rewrite (handleSaveResult_found t form matchId m L F) in I.
  cbn [withMatches matches] in I. apply in_map_iff in I.
  destruct I as (x & <- & _).
  destruct (hasId matchId x) eqn:E; [| congruence].
  destruct W as [[R1 R2] [[W1 W2] [O1 O2]]].
  cbn [completedWith Match.status Match.t1Runs Match.t2Runs Match.t1Wickets
       Match.t2Wickets Match.t1OversWhole Match.t2OversWhole JS.orZero].
  repeat split; try tauto; lia.
Qed.

Lemma typed_result_within_limits_witness :
  let edits := [("t1Runs", "12000"); ("t1Wickets", "11"); ("t1OversWhole", "25");
                ("t2Runs", "-5"); ("t2Wickets", "-1"); ("t2OversWhole", "7")]%string in
  let m' := completedWith (typed Scenario.before edits emptyForm)
                          T1_WIN (Some (Team.id Scenario.A)) Scenario.fixture in
  Match.status m' = COMPLETED
  /\ (0 <= JS.orZero (Match.t1Runs m') <= 9999
      /\ 0 <= JS.orZero (Match.t2Runs m') <= 9999)
  /\ (0 <= JS.orZero (Match.t1Wickets m') <= 10
      /\ 0 <= JS.orZero (Match.t2Wickets m') <= 10)
  /\ (0 <= JS.orZero (Match.t1OversWhole m') <= oversLimit Scenario.before
      /\ 0 <= JS.orZero (Match.t2OversWhole m') <= oversLimit Scenario.before).
Proof.
  intros edits m'.
  apply (typed_result_within_limits Scenario.before edits "M-1" m').
  - reflexivity.
  - vm_compute. discriminate.
  - vm_compute. left. reflexivity.
  - reflexivity.
Defined.

(** X5.  A save is refused when the tournament is locked, and does nothing
    when no match has the id. *)
Theorem save_refused t form matchId :
  isLocked t = true \/ ~ In matchId (map Match.id (matches t)) ->
  handleSaveResult t form matchId = t.
Proof.
  intros [L | N]; [apply handleSaveResult_locked, L |].
  apply handleSaveResult_unknown.
  destruct (find (hasId matchId) (matches t)) as [m |] eqn:F; [| reflexivity].
  apply find_some in F. destruct F as [I H]. exfalso. apply N.
  apply String.eqb_eq in H. rewrite <- H. apply in_map, I.
Qed.

Lemma save_refused_witness :
  handleSaveResult Scenario.before Scenario.form "M-2" = Scenario.before.
Proof.
  apply (save_refused Scenario.before Scenario.form "M-2").
  right. cbn. intros [H | []]. discriminate H.
Defined.

(** X6.  When the points are added up exactly, the integer totals of a team
    in the table are, in closed form, the sums over the completed matches
    between known teams of what the match brings to the side or sides the
    team is on; the points the team has after any number of these matches
    are below 2^53 in absolute value, and the points of its row are, as a
    double, what the binary64 additions of the loop give. *)
Theorem team_totals t s :
  pointsExact t ->
  In s (standings t) ->
  let k := Standing.id s in
  (Standing.matchesPlayed s = total (fun m => side1 k m + side2 k m) (counted t)
   /\ Standing.matchesWon s
      = total (fun m => side1 k m * (if wonBy1 m then 1 else 0)
                        + side2 k m * (if wonBy2 m then 1 else 0)) (counted t)
   /\ Standing.actualPoints s
      = total (fun m => side1 k m * awarded1 t m + side2 k m * awarded2 t m) (counted t)
   /\ Standing.runsScored s
      = total (fun m => side1 k m * JS.orZero (Match.t1Runs m)
                        + side2 k m * JS.orZero (Match.t2Runs m)) (counted t)
   /\ Standing.runsConceded s
      = total (fun m => side1 k m * JS.orZero (Match.t2Runs m)
                        + side2 k m * JS.orZero (Match.t1Runs m)) (counted t)
   /\ Standing.wicketsTaken s
      = total (fun m => side1 k m * JS.orZero (Match.t2Wickets m)
                        + side2 k m * JS.orZero (Match.t1Wickets m)) (counted t))
  /\ (forall n,
        Z.abs (total (fun m => side1 k m * awarded1 t m + side2 k m * awarded2 t m)
                     (firstn n (counted t)))
        < 2 ^ 53)
  /\ pointsAdded t k (counted t) = JS.Z2F (Standing.actualPoints s).
Proof.
  intros X H. cbv zeta.
  split; [| split; [intros n; apply (running_points_exact t (Standing.id s) n X)
                   | apply (points_as_doubles t s X H)]].
  apply standings_In in H. destruct H as (kv & H & ->).
  apply aggregate_entry in H. destruct H as (tm & _ & ->).
  assert (K : Standing.id (computeRates
                (snd (evolve t (counted t) (Team.id tm, freshStanding tm))))
              = Team.id tm).
  { transitivity (Standing.id (snd (evolve t (counted t) (Team.id tm, freshStanding tm)))).
    - generalize (snd (evolve t (counted t) (Team.id tm, freshStanding tm))). rates_keep.
    - apply evolve_id. }
  rewrite K.
  repeat split;
    match goal with
    | |- ?f (computeRates ?x) = _ =>
        transitivity (f x); [generalize x; rates_keep |]
    end.
  - rewrite (evolve_field t _ _ (fun m k v => proj1 (touch_totals t m k v))).
    reflexivity.
  - rewrite (evolve_field t _ _
               (fun m k v => proj1 (proj2 (touch_totals t m k v)))).
    reflexivity.
  - rewrite (evolve_field t _ _
               (fun m k v => proj1 (proj2 (proj2 (touch_totals t m k v))))).
    reflexivity.
  - rewrite (evolve_field t _ _
               (fun m k v => proj1 (proj2 (proj2 (proj2 (touch_totals t m k v)))))).
    reflexivity.
  - rewrite (evolve_field t _ _
               (fun m k v =>
                  proj1 (proj2 (proj2 (proj2 (proj2 (touch_totals t m k v))))))).
    reflexivity.
  - rewrite (evolve_field t _ _
               (fun m k v =>
                  proj2 (proj2 (proj2 (proj2 (proj2 (touch_totals t m k v))))))).
    reflexivity.
Qed.

Lemma team_totals_witness :
  let t := TwoOrders.firstOrder in
  let s := hd (freshStanding Scenario.A) (standings t) in
  pointsExact t
  /\ In s (standings t)
  /\ Standing.actualPoints s
     = total (fun m => side1 (Standing.id s) m * awarded1 t m
                       + side2 (Standing.id s) m * awarded2 t m) (counted t).
Proof.
  intros t s.
  assert (X : pointsExact t) by (vm_compute; reflexivity).
  assert (H : In s (standings t)) by (vm_compute; left; reflexivity).
  split; [exact X |]. split; [exact H |].
  exact (proj1 (proj2 (proj2 (proj1 (team_totals t s X H))))).
Defined.

(** X7.  When the points are added up exactly, over the whole table every
    counted match is played by two sides and won by at most one: the matches
    played add up to twice the number of counted matches, the matches won to
    the number of decided ones, and the points to what the matches award to
    their two sides; the points of every row are below 2^53 in absolute
    value. *)
Theorem table_counts t :
  pointsExact t ->
  total Standing.matchesPlayed (standings t) = 2 * Z.of_nat (List.length (counted t))
  /\ total Standing.matchesWon (standings t)
     = Z.of_nat (List.length (filter decided (counted t)))
  /\ total Standing.actualPoints (standings t)
     = total (fun m => awarded1 t m + awarded2 t m) (counted t)
  /\ Forall (fun s => Z.abs (Standing.actualPoints s) < 2 ^ 53) (standings t).
Proof.
  intros X. split; [| split; [| split]].
  - rewrite (table_total t _ (fun _ => 1) (fun _ => 1));
      [| rates_keep | reflexivity |].
    + rewrite (total_const (1 + 1)). lia.
    + intros m k v. rewrite (proj1 (touch_totals t m k v)). lia.
  - rewrite (table_total t _ (fun m => if wonBy1 m then 1 else 0)
                             (fun m => if wonBy2 m then 1 else 0));
      [| rates_keep | reflexivity
       | intros m k v; apply (proj1 (proj2 (touch_totals t m k v)))].
    rewrite <- total_filter. apply total_ext_in. intros m _.
    unfold decided, wonBy1, wonBy2.
    destruct (Match.resultType m) as [[] |]; reflexivity.
  - apply table_total; [rates_keep | reflexivity |].
    intros m k v. apply (proj1 (proj2 (proj2 (touch_totals t m k v)))).
  - apply Forall_forall. intros s H. apply (points_of_row_exact t s X H).
Qed.

Lemma table_counts_witness :
  let t := TwoOrders.firstOrder in
  pointsExact t
  /\ total Standing.actualPoints (standings t)
     = total (fun m => awarded1 t m + awarded2 t m) (counted t).
Proof.
  intros t.
  assert (X : pointsExact t) by (vm_compute; reflexivity).
  split; [exact X |].
  exact (proj1 (proj2 (proj2 (table_counts t X)))).
Defined.

(** X8.  Runs and wickets are conserved over the table: the runs scored by
    all teams are the runs conceded by all teams, both the sum of the two
    totals of every counted match; the wickets taken are the wickets lost. *)
Theorem runs_conserved t :
  total Standing.runsScored (standings t)
    = total (fun m => JS.orZero (Match.t1Runs m) + JS.orZero (Match.t2Runs m)) (counted t)
  /\ total Standing.runsConceded (standings t) = total Standing.runsScored (standings t)
  /\ total Standing.wicketsTaken (standings t)
     = total (fun m => JS.orZero (Match.t1Wickets m) + JS.orZero (Match.t2Wickets m))
             (counted t).
Proof.
  assert (S : total Standing.runsScored (standings t)
              = total (fun m => JS.orZero (Match.t1Runs m) + JS.orZero (Match.t2Runs m))
                      (counted t)).
  { apply table_total; [rates_keep | reflexivity |].
    intros m k v. apply (proj1 (proj2 (proj2 (proj2 (touch_totals t m k v))))). }
  repeat split.
  - exact S.
  - rewrite S.
    rewrite (table_total t _ (fun m => JS.orZero (Match.t2Runs m))
                             (fun m => JS.orZero (Match.t1Runs m)));
      [| rates_keep | reflexivity
       | intros m k v;
         apply (proj1 (proj2 (proj2 (proj2 (proj2 (touch_totals t m k v))))))].
    apply total_ext_in. intros m _. lia.
  - rewrite (table_total t _ (fun m => JS.orZero (Match.t2Wickets m))
                             (fun m => JS.orZero (Match.t1Wickets m)));
      [| rates_keep | reflexivity
       | intros m k v;
         apply (proj2 (proj2 (proj2 (proj2 (proj2 (touch_totals t m k v))))))].
    apply total_ext_in. intros m _. lia.
Qed.

(* ================================================================= *)
(** ** Facts about the matches that do not count *)

Lemma filter_twice {A : Type} (p : A -> bool) l :
  filter p (filter p l) = filter p l.
Proof.
  induction l as [| x l IH]; [reflexivity |].
  cbn [filter]. destruct (p x) eqn:E; [| exact IH].
  cbn [filter]. rewrite E, IH. reflexivity.
Qed.

(** X9.  The table is computed from the counted matches alone: a match that
    is not completed, or that names a team that is not in the team list,
    changes nothing in it. *)
Theorem uncounted_matches_ignored t :
  standings (withMatches t (counted t)) = standings t.
Proof.
  unfold standings, standingsMap. rewrite !aggregate_evolve.
  assert (C : counted (withMatches t (counted t)) = counted t).
  { unfold counted at 1. cbn [withMatches matches].
    change (initialStats (withMatches t (counted t))) with (initialStats t).
    apply filter_twice. }
  rewrite C.
  change (initialStats (withMatches t (counted t))) with (initialStats t).
  reflexivity.
Qed.

(* ================================================================= *)
(** ** Facts about the table before any match counts *)

Lemma assign_absent k v s : ~ In k (keys s) -> assign k v s = s ++ [(k, v)].
Proof.
  induction s as [| [k' v'] s IH]; intros N; [reflexivity |].
  cbn [assign app]. cbn [keys map fst In] in N.
  destruct (String.eqb_spec k' k) as [E | D]; [tauto |].
  rewrite IH by (unfold keys; tauto). reflexivity.
Qed.

Lemma fold_assign_distinct l : forall acc,
  NoDup (keys acc ++ map Team.id l) ->
  fold_left (fun stats tm => assign (Team.id tm) (freshStanding tm) stats) l acc
  = acc ++ map (fun tm => (Team.id tm, freshStanding tm)) l.
Proof.
  induction l as [| tm l IH]; intros acc N; cbn [fold_left map].
  - symmetry. apply app_nil_r.
  - assert (A : ~ In (Team.id tm) (keys acc)).
    { cbn [map] in N. apply NoDup_remove_2 in N. intros I. apply N.
      apply in_or_app. left. exact I. }
    rewrite (assign_absent _ _ _ A), IH.
    + rewrite <- app_assoc. reflexivity.
    + unfold keys. rewrite map_app. cbn [map fst]. rewrite <- app_assoc. exact N.
Qed.

Lemma initialStats_distinct t :
  NoDup (map Team.id (teams t)) ->
  initialStats t = map (fun tm => (Team.id tm, freshStanding tm)) (teams t).
Proof. intros N. apply (fold_assign_distinct (teams t) []). exact N. Qed.

(** A list whose elements are all in a class the comparator never reorders
    is left as it is by the sort. *)
Lemma sort_fixed {A : Type} (cmp : A -> A -> Z) (cls : A -> bool) l :
  (forall x y, cls x = true -> cls y = true -> keeps cmp x y) ->
  Forall (fun x => cls x = true) l ->
  JS.sort cmp l = l.
Proof.
  intros K F.
  assert (E : forall l', Forall (fun x => cls x = true) l' -> filter cls l' = l').
  { induction 1 as [| x l' Hx _ IH]; [reflexivity |].
    cbn [filter]. rewrite Hx, IH. reflexivity. }
  rewrite <- (E (JS.sort cmp l)).
  - rewrite (sort_stable cmp cls K). apply E, F.
  - rewrite Forall_forall in F |- *. intros x Hx. apply F.
    apply (Permutation_in _ (sort_perm cmp l)), Hx.
Qed.

(** The entries of the totals while no match counts. *)
Lemma unplayed_values t :
  counted t = [] ->
  NoDup (map Team.id (teams t)) ->
  Object_values (standingsMap t) = map freshStanding (teams t).
Proof.
  intros C N. unfold standingsMap.
  rewrite aggregate_evolve, C, (initialStats_distinct t N).
  unfold Object_values. rewrite !map_map. cbn [evolve fold_left fst snd].
  apply map_ext. intros tm. reflexivity.
Qed.

Lemma sort_fresh l :
  JS.sort compareStandings (map freshStanding l) = map freshStanding l.
Proof.
  apply (sort_fixed _ (levelWith (freshStanding (Team.mk EmptyString EmptyString)))).
  - apply RankFacts.levelWith_keeps.
  - apply Forall_forall. intros s Hs. apply in_map_iff in Hs.
    destruct Hs as (tm & <- & _). reflexivity.
Qed.

(** X10.  While no match counts, the table lists the teams in the order of
    the team list, every total and every rate at zero. *)
Theorem table_before_play t :
  counted t = [] ->
  NoDup (map Team.id (teams t)) ->
  standings t = map freshStanding (teams t).
Proof.
  intros C N. unfold standings.
  rewrite (unplayed_values t C N). apply sort_fresh.
Qed.

Lemma table_before_play_witness :
  standings FiveTeams.tournament = map freshStanding (teams FiveTeams.tournament).
Proof.
  apply (table_before_play FiveTeams.tournament).
  - reflexivity.
  - cbn. repeat constructor; cbn; intuition discriminate.
Defined.

(* ================================================================= *)
(** ** Facts about the first element of a sorted copy *)

Section HeadFacts.
Context {A : Type} (cmp : A -> A -> Z).
Variable ok : A -> Prop.
Hypothesis cmp_asym : forall x y, ok x -> ok y ->
  (0 <? cmp x y) = true -> keeps cmp y x.
Hypothesis cmp_trans : forall x y z, ok x -> ok y -> ok z ->
  keeps cmp x y -> keeps cmp y z -> keeps cmp x z.

Lemma sort_nil l : JS.sort cmp l = [] <-> l = [].
Proof.
  split; intros H.
  - pose proof (Permutation_length (sort_perm cmp l)) as L. rewrite H in L.
    destruct l; [reflexivity | discriminate L].
  - subst. reflexivity.
Qed.

(** The head of the sorted copy is never moved behind an element. *)
Lemma sort_head l s :
  Forall ok l -> hd_error (JS.sort cmp l) = Some s ->
  In s l /\ forall x, In x l -> keeps cmp s x.
Proof.
  intros F H.
  pose proof (sort_sorted cmp ok cmp_asym cmp_trans l F) as S.
  pose proof (sort_perm cmp l) as P.
  destruct (JS.sort cmp l) as [| s' r]; [discriminate H |].
  injection H as ->.
  assert (Is : In s l) by (apply (Permutation_in _ P); left; reflexivity).
  split; [exact Is |].
  intros x Hx. apply (Permutation_in _ (Permutation_sym P)) in Hx.
  destruct Hx as [<- | Hx].
  - rewrite Forall_forall in F. specialize (F s Is).
    destruct (0 <? cmp s s) eqn:E; [| exact E].
    pose proof (cmp_asym s s F F E) as K. unfold keeps in K. congruence.
  - apply StronglySorted_inv in S. destruct S as [_ S].
    rewrite Forall_forall in S. apply S, Hx.
Qed.

(** Among the elements of a class the comparator never reorders, the head
    of the sorted copy is the first of the list. *)
Lemma sort_head_first (cls : A -> bool) l s :
  (forall x y, cls x = true -> cls y = true -> keeps cmp x y) ->
  hd_error (JS.sort cmp l) = Some s -> cls s = true ->
  exists l1 l2, l = l1 ++ s :: l2 /\ Forall (fun x => cls x = false) l1.
Proof.
  intros K H C.
  pose proof (sort_stable cmp cls K l) as E.
  destruct (JS.sort cmp l) as [| s' r]; [discriminate H |].
  injection H as ->. cbn [filter] in E. rewrite C in E.
  clear - E. revert E. generalize (filter cls r). intros r'.
  induction l as [| x l IH]; intros E; [discriminate E |].
  cbn [filter] in E. destruct (cls x) eqn:Cx.
  - injection E as -> _. exists [], l. split; [reflexivity | constructor].
  - destruct (IH E) as (l1 & l2 & -> & F).
    exists (x :: l1), l2. split; [reflexivity | constructor; assumption].
Qed.
End HeadFacts.

(** The head of a copy sorted by an integer, largest first: the first
    element of the list with the largest value. *)
Lemma sort_head_largest {A : Type} (key : A -> Z) l s :
  hd_error (JS.sort (fun a b => Z.sgn (key b - key a)) l) = Some s ->
  exists l1 l2, l = l1 ++ s :: l2
                /\ Forall (fun x => key x < key s) l1
                /\ Forall (fun x => key x <= key s) l2.
Proof.
  intros H.
  set (cmp := fun a b => Z.sgn (key b - key a)) in *.
  assert (K : forall x y, keeps cmp x y <-> key y <= key x).
  { intros x y. unfold keeps, cmp. rewrite Z.ltb_ge. lia. }
  destruct (sort_head cmp (fun _ => True)) with (l := l) (s := s) as [_ M]; auto.
  - intros x y _ _ E. apply K. apply Z.ltb_lt in E. unfold cmp in E. lia.
  - intros x y z _ _ _ H1 H2. apply K in H1, H2. apply K. lia.
  - apply Forall_forall. auto.
  - destruct (sort_head_first cmp (fun x => key x =? key s) l s)
      as (l1 & l2 & -> & F); auto.
    + intros x y Hx Hy. apply Z.eqb_eq in Hx, Hy. apply K. lia.
    + apply Z.eqb_refl.
    + exists l1, l2. split; [reflexivity |]. split.
      * rewrite Forall_forall in F |- *. intros x Hx.
        specialize (F x Hx). cbv beta in F. apply Z.eqb_neq in F.
        assert (key x <= key s) by (apply K, M, in_or_app; auto). lia.
      * apply Forall_forall. intros x Hx. apply K, M, in_or_app.
        right. right. exact Hx.
Qed.

(* ================================================================= *)
(** ** Facts about the order of two doubles that are numbers *)

Module OrderFacts.
Import FloatOrder FloatFacts RankFacts.

Lemma lexLt_asym a b : lexLt a b -> ~ lexLt b a.
Proof.
  destruct a as [[a1 a2] a3], b as [[b1 b2] b3]. unfold lexLt. lia.
Qed.

Lemma lexLt_cotrans a b c : lexLt a c -> lexLt a b \/ lexLt b c.
Proof.
  destruct a as [[a1 a2] a3], b as [[b1 b2] b3], c as [[c1 c2] c3].
  unfold lexLt. lia.
Qed.

Lemma lexLt_total a b : lexLt a b \/ a = b \/ lexLt b a.
Proof.
  destruct a as [[a1 a2] a3], b as [[b1 b2] b3]. unfold lexLt.
  destruct (Z.lt_total a1 b1) as [? | [? | ?]]; try lia;
  destruct (Z.lt_total a2 b2) as [? | [? | ?]]; try lia;
  destruct (Z.lt_total a3 b3) as [? | [? | ?]]; try lia.
  right. left. subst. reflexivity.
Qed.

Lemma not_ltb_leb x y :
  number x = true -> number y = true ->
  PrimFloat.ltb y x = false -> PrimFloat.leb x y = true.
Proof.
  intros Nx Ny H. apply leb_key. repeat split; try assumption.
  destruct (lexLt_total (fkey x) (fkey y)) as [L | [E | L]]; auto.
  assert (PrimFloat.ltb y x = true) by (apply ltb_key; auto). congruence.
Qed.

Lemma ltb_asym x y : PrimFloat.ltb x y = true -> PrimFloat.ltb y x = false.
Proof.
  intros H. apply ltb_key in H. destruct H as (_ & _ & L).
  destruct (PrimFloat.ltb y x) eqn:E; [| reflexivity].
  apply ltb_key in E. destruct E as (_ & _ & L').
  destruct (lexLt_asym _ _ L L').
Qed.

Lemma ltb_cotrans x y z :
  number y = true ->
  PrimFloat.ltb x z = true -> PrimFloat.ltb x y = true \/ PrimFloat.ltb y z = true.
Proof.
  intros Ny H. apply ltb_key in H. destruct H as (Nx & Nz & L).
  destruct (lexLt_cotrans _ (fkey y) _ L); [left | right]; apply ltb_key; auto.
Qed.

(** A comparator that returns [key a - key b] keeps [x] before [y] unless
    the key of [y] is smaller. *)
Lemma keeps_ascending {A : Type} (key : A -> float) x y :
  keeps (fun a b => JS.signF (key a - key b)%float) x y
  <-> PrimFloat.ltb (key y) (key x) = false.
Proof. unfold keeps. rewrite signF_pos, sub_pos. tauto. Qed.

Lemma keeps_descending {A : Type} (key : A -> float) x y :
  keeps (fun a b => JS.signF (key b - key a)%float) x y
  <-> PrimFloat.ltb (key x) (key y) = false.
Proof. unfold keeps. rewrite signF_pos, sub_pos. tauto. Qed.

(** The head of a copy sorted by a double that is a number throughout,
    smallest first and largest first. *)
Lemma sort_head_lowest {A : Type} (key : A -> float) l s :
  Forall (fun x => number (key x) = true) l ->
  hd_error (JS.sort (fun a b => JS.signF (key a - key b)%float) l) = Some s ->
  In s l /\ forall x, In x l -> PrimFloat.leb (key s) (key x) = true.
Proof.
  intros F H.
  destruct (sort_head (fun a b => JS.signF (key a - key b)%float)
                      (fun x => number (key x) = true)) with (l := l) (s := s)
    as [Is M]; auto.
  - intros x y _ _ E. rewrite signF_pos, sub_pos in E.
    apply keeps_ascending, ltb_asym, E.
  - intros x y z _ Ny _ H1 H2. apply keeps_ascending in H1, H2.
    apply keeps_ascending.
    destruct (PrimFloat.ltb (key z) (key x)) eqn:E; [| reflexivity].
    destruct (ltb_cotrans _ (key y) _ Ny E); congruence.
  - split; [exact Is |]. intros x Hx. rewrite Forall_forall in F.
    apply not_ltb_leb; auto. apply keeps_ascending, M, Hx.
Qed.

Lemma sort_head_highest {A : Type} (key : A -> float) l s :
  Forall (fun x => number (key x) = true) l ->
  hd_error (JS.sort (fun a b => JS.signF (key b - key a)%float) l) = Some s ->
  In s l /\ forall x, In x l -> PrimFloat.leb (key x) (key s) = true.
Proof.
  intros F H.
  destruct (sort_head (fun a b => JS.signF (key b - key a)%float)
                      (fun x => number (key x) = true)) with (l := l) (s := s)
    as [Is M]; auto.
  - intros x y _ _ E. rewrite signF_pos, sub_pos in E.
    apply keeps_descending, ltb_asym, E.
  - intros x y z _ Ny _ H1 H2. apply keeps_descending in H1, H2.
    apply keeps_descending.
    destruct (PrimFloat.ltb (key x) (key z)) eqn:E; [| reflexivity].
    destruct (ltb_cotrans _ (key y) _ Ny E); congruence.
  - split; [exact Is |]. intros x Hx. rewrite Forall_forall in F.
    apply not_ltb_leb; auto. apply keeps_descending, M, Hx.
Qed.

End OrderFacts.

(* ================================================================= *)
(** ** Facts about the dashboard *)

Lemma standings_nil t : standings t = [] <-> teams t = [].
Proof.
  unfold standings. rewrite sort_nil.
  pose proof (standingsMap_ids t) as I.
  split; intros H.
  - rewrite H in I. cbn [map] in I.
    destruct (teams t) as [| tm l]; [reflexivity |].
    assert (In (Team.id tm) (insertionOrder (map Team.id (tm :: l))))
      by (apply insertionOrder_In; left; reflexivity).
    rewrite <- I in H0. destruct H0.
  - rewrite H in I. cbn in I.
    destruct (Object_values (standingsMap t)); [reflexivity | discriminate I].
Qed.

Lemma number_not_nan x :
  PrimFloat.is_nan x = false -> FloatOrder.number x = true.
Proof. intros H. rewrite FloatFacts.number_is_nan, H. reflexivity. Qed.

(** X11.  The team shown with the most runs has the largest total of runs
    scored, and is the highest placed of the teams that have it; no team is
    shown only when there are no teams. *)
Theorem most_runs t :
  match mostRunsTeam t with
  | Some s =>
      exists above below,
        standings t = above ++ s :: below
        /\ Forall (fun x => Standing.runsScored x < Standing.runsScored s) above
        /\ Forall (fun x => Standing.runsScored x <= Standing.runsScored s) below
  | None => teams t = []
  end.
Proof.
  unfold mostRunsTeam.
  destruct (hd_error _) as [s |] eqn:H.
  - apply (sort_head_largest Standing.runsScored), H.
  - apply standings_nil.
    destruct (JS.sort _ (standings t)) eqn:E; [| discriminate H].
    apply sort_nil in E. exact E.
Qed.

(** X12.  When the scoring rates are numbers, the team shown with the highest
    scoring rate has a rate at least that of every team. *)
Theorem highest_scoring_rate t :
  Forall rated (standings t) ->
  match highestScoringRateTeam t with
  | Some s =>
      In s (standings t)
      /\ forall x, In x (standings t) ->
           PrimFloat.leb (Standing.scoringRate x) (Standing.scoringRate s) = true
  | None => teams t = []
  end.
Proof.
  intros R. unfold highestScoringRateTeam.
  destruct (hd_error _) as [s |] eqn:H.
  - apply (OrderFacts.sort_head_highest Standing.scoringRate); [| exact H].
    apply Forall_forall. intros x Hx. rewrite Forall_forall in R.
    apply RankFacts.rated_number, R, Hx.
  - apply standings_nil.
    destruct (JS.sort _ (standings t)) eqn:E; [| discriminate H].
    apply sort_nil in E. exact E.
Qed.

Lemma highest_scoring_rate_witness :
  match highestScoringRateTeam TwoOrders.firstOrder with
  | Some s =>
      In s (standings TwoOrders.firstOrder)
      /\ forall x, In x (standings TwoOrders.firstOrder) ->
           PrimFloat.leb (Standing.scoringRate x) (Standing.scoringRate s) = true
  | None => teams TwoOrders.firstOrder = []
  end.
Proof.
  apply (highest_scoring_rate TwoOrders.firstOrder).
  unfold rated. vm_compute. repeat constructor.
Defined.

(** X13.  The team shown with the best economy has bowled, and when the
    economy rates are numbers its rate is at most that of every team that
    has bowled; no team is shown when none has bowled. *)
Theorem best_economy t :
  Forall (fun x => PrimFloat.is_nan (Standing.economyRate x) = false) (standings t) ->
  match bestEconomyTeam t with
  | Some s =>
      In s (standings t)
      /\ PrimFloat.ltb 0 (Standing.oversBowled s) = true
      /\ forall x, In x (standings t) ->
           PrimFloat.ltb 0 (Standing.oversBowled x) = true ->
           PrimFloat.leb (Standing.economyRate s) (Standing.economyRate x) = true
  | None =>
      forall x, In x (standings t) -> PrimFloat.ltb 0 (Standing.oversBowled x) = false
  end.
Proof.
  intros R. unfold bestEconomyTeam.
  set (bowled := filter _ (standings t)).
  destruct (hd_error _) as [s |] eqn:H.
  - destruct (OrderFacts.sort_head_lowest Standing.economyRate bowled s) as [Is M].
    + apply Forall_forall. intros x Hx. apply filter_In in Hx.
      rewrite Forall_forall in R. apply number_not_nan, R, Hx.
    + exact H.
    + apply filter_In in Is. destruct Is as [Is B].
      repeat split; try assumption.
      intros x Hx Bx. apply M, filter_In. split; assumption.
  - intros x Hx.
    destruct (JS.sort _ bowled) eqn:E; [| discriminate H].
    apply sort_nil in E.
    destruct (PrimFloat.ltb 0 (Standing.oversBowled x)) eqn:B; [| reflexivity].
    assert (I : In x bowled) by (apply filter_In; split; assumption).
    rewrite E in I. destruct I.
Qed.

Lemma best_economy_witness :
  match bestEconomyTeam TwoOrders.firstOrder with
  | Some s =>
      In s (standings TwoOrders.firstOrder)
      /\ PrimFloat.ltb 0 (Standing.oversBowled s) = true
      /\ forall x, In x (standings TwoOrders.firstOrder) ->
           PrimFloat.ltb 0 (Standing.oversBowled x) = true ->
           PrimFloat.leb (Standing.economyRate s) (Standing.economyRate x) = true
  | None =>
      forall x, In x (standings TwoOrders.firstOrder) ->
                PrimFloat.ltb 0 (Standing.oversBowled x) = false
  end.
Proof.
  apply (best_economy TwoOrders.firstOrder).
  vm_compute. repeat constructor.
Defined.

(** It moves [a] behind [b] when [b] has more wickets, or as many and a
    lower economy rate. *)
Lemma byWickets_pos a b :
  (0 <? byWickets a b) = true
  <-> Standing.wicketsTaken a < Standing.wicketsTaken b
      \/ (Standing.wicketsTaken a = Standing.wicketsTaken b
          /\ PrimFloat.ltb (Standing.economyRate b) (Standing.economyRate a) = true).
Proof.
  unfold byWickets.
  destruct (Z.eqb_spec (Standing.wicketsTaken b - Standing.wicketsTaken a) 0) as [E | N];
    cbn [negb].
  - rewrite RankFacts.signF_pos, FloatFacts.sub_pos.
    split; [right; split; [lia | assumption] |].
    intros [L | [_ H]]; [lia | exact H].
  - rewrite Z.ltb_lt. split; [left; lia |]. intros [L | [L _]]; lia.
Qed.

Lemma keeps_byWickets a b :
  keeps byWickets a b
  <-> Standing.wicketsTaken b < Standing.wicketsTaken a
      \/ (Standing.wicketsTaken b = Standing.wicketsTaken a
          /\ PrimFloat.ltb (Standing.economyRate b) (Standing.economyRate a) = false).
Proof.
  unfold keeps. pose proof (byWickets_pos a b) as P.
  destruct (0 <? byWickets a b).
  - split; [discriminate |]. intros H.
    destruct (proj1 P eq_refl) as [L | [E F]]; destruct H as [L' | [E' F']];
      try lia; congruence.
  - split; [| reflexivity]. intros _.
    destruct (Z.lt_total (Standing.wicketsTaken b) (Standing.wicketsTaken a))
      as [L | [L | L]]; [left; exact L | | ].
    + right. split; [exact L |].
      destruct (PrimFloat.ltb (Standing.economyRate b) (Standing.economyRate a)) eqn:F;
        [| reflexivity].
      assert (false = true)
        by (apply P; right; split; [symmetry; assumption | reflexivity]).
      discriminate.
    + assert (false = true) by (apply P; left; exact L). discriminate.
Qed.

(** X14.  The team shown with the most wickets has the largest total of
    wickets taken and, when the economy rates are numbers, the lowest
    economy rate of the teams that have it. *)
Theorem most_wickets t :
  Forall (fun x => PrimFloat.is_nan (Standing.economyRate x) = false) (standings t) ->
  match mostWicketsTeam t with
  | Some s =>
      In s (standings t)
      /\ forall x, In x (standings t) ->
           Standing.wicketsTaken x < Standing.wicketsTaken s
           \/ (Standing.wicketsTaken x = Standing.wicketsTaken s
               /\ PrimFloat.leb (Standing.economyRate s) (Standing.economyRate x) = true)
  | None => teams t = []
  end.
Proof.
  intros R. unfold mostWicketsTeam.
  destruct (hd_error _) as [s |] eqn:H.
  - rewrite Forall_forall in R.
    assert (F : Forall (fun x => FloatOrder.number (Standing.economyRate x) = true)
                       (standings t)).
    { apply Forall_forall. intros x Hx. apply number_not_nan, R, Hx. }
    destruct (sort_head byWickets
                (fun x => FloatOrder.number (Standing.economyRate x) = true))
      with (l := standings t) (s := s) as [Is M]; try assumption.
    + intros x y _ _ E. apply keeps_byWickets.
      apply byWickets_pos in E. destruct E as [L | [E F']]; [left; exact L |].
      right. split; [exact E | apply OrderFacts.ltb_asym, F'].
    + intros x y z _ Ny _ H1 H2.
      apply keeps_byWickets in H1, H2. apply keeps_byWickets.
      destruct H1 as [L1 | [E1 F1]], H2 as [L2 | [E2 F2]]; try (left; lia).
      right. split; [lia |].
      destruct (PrimFloat.ltb (Standing.economyRate z) (Standing.economyRate x)) eqn:E;
        [| reflexivity].
      destruct (OrderFacts.ltb_cotrans _ (Standing.economyRate y) _ Ny E); congruence.
    + split; [exact Is |]. intros x Hx.
      destruct (proj1 (keeps_byWickets s x) (M x Hx)) as [L | [E F']]; [left; exact L |].
      right. split; [exact E |].
      apply OrderFacts.not_ltb_leb; auto; apply number_not_nan, R; assumption.
  - apply standings_nil.
    destruct (JS.sort _ (standings t)) eqn:E; [| discriminate H].
    apply sort_nil in E. exact E.
Qed.

Lemma most_wickets_witness :
  match mostWicketsTeam TwoOrders.firstOrder with
  | Some s =>
      In s (standings TwoOrders.firstOrder)
      /\ forall x, In x (standings TwoOrders.firstOrder) ->
           Standing.wicketsTaken x < Standing.wicketsTaken s
           \/ (Standing.wicketsTaken x = Standing.wicketsTaken s
               /\ PrimFloat.leb (Standing.economyRate s) (Standing.economyRate x) = true)
  | None => teams TwoOrders.firstOrder = []
  end.
Proof.
  apply (most_wickets TwoOrders.firstOrder).
  vm_compute. repeat constructor.
Defined.

(** *** Progress by round *)

Lemma round_le_totalRounds t m :
  In m (matches t) -> Match.round m <= totalRounds t.
Proof.
  unfold totalRounds. induction (matches t) as [| x l IH]; intros H; [destruct H |].
  cbn [map fold_right]. destruct H as [<- | H]; [lia |].
  specialize (IH H). lia.
Qed.

Lemma totalRounds_nonneg t : 0 <= totalRounds t.
Proof.
  unfold totalRounds. induction (matches t) as [| x l IH]; cbn [map fold_right]; lia.
Qed.

(** A round number is met once among the rounds 1 to [n], or not at all. *)
Lemma total_rounds_upto r n :
  total (fun i => if r =? Z.of_nat i + 1 then 1 else 0) (seq 0 n)
  = if (1 <=? r) && (r <=? Z.of_nat n) then 1 else 0.
Proof.
  induction n as [| n IH].
  - cbn [seq total fold_right].
    destruct (Z.leb_spec 1 r), (Z.leb_spec r (Z.of_nat 0)); cbn [andb]; lia.
  - rewrite seq_S, total_app, IH. cbn [Nat.add total fold_right].
    destruct (Z.leb_spec 1 r), (Z.leb_spec r (Z.of_nat n)),
             (Z.leb_spec r (Z.of_nat (S n))), (Z.eqb_spec r (Z.of_nat n + 1));
      cbn [andb]; lia.
Qed.

Lemma length_filter_filter {A : Type} (p q : A -> bool) l :
  Z.of_nat (List.length (filter q (filter p l)))
  = total (fun x => if p x && q x then 1 else 0) l.
Proof.
  induction l as [| x l IH]; [reflexivity |].
  rewrite total_cons, <- IH. cbn [filter].
  destruct (p x); cbn [andb filter]; [destruct (q x); cbn [List.length] |]; lia.
Qed.

Lemma total_by_round t (q : Match.t -> bool) :
  total (fun i => Z.of_nat (List.length
                   (filter q (filter (fun m => Match.round m =? Z.of_nat i + 1)
                                     (matches t)))))
        (seq 0 (Z.to_nat (totalRounds t)))
  = Z.of_nat (List.length (filter (fun m => (1 <=? Match.round m) && q m) (matches t))).
Proof.
  rewrite (total_ext_in _ _ _ (fun i _ => length_filter_filter _ q (matches t))).
  rewrite total_swap, <- total_filter.
  apply total_ext_in. intros m Hm.
  rewrite (total_ext_in _
             (fun i => (if Match.round m =? Z.of_nat i + 1 then 1 else 0)
                       * (if q m then 1 else 0))).
  2: { intros i _. destruct (Match.round m =? Z.of_nat i + 1), (q m); reflexivity. }
  rewrite total_scale, total_rounds_upto.
  pose proof (round_le_totalRounds t m Hm). pose proof (totalRounds_nonneg t).
  rewrite Z2Nat.id by assumption.
  destruct (Z.leb_spec 1 (Match.round m)),
           (Z.leb_spec (Match.round m) (totalRounds t)), (q m); cbn [andb]; lia.
Qed.

(** X15.  The progress by round counts every match with a round number of 1
    or more in exactly one round, and each completed one of them once more
    as completed; no round has more completed matches than matches. *)
Theorem round_progress t :
  total (fun p => Z.of_nat (RoundProgress.total p)) (roundProgress t)
    = Z.of_nat (List.length (filter (fun m => 1 <=? Match.round m) (matches t)))
  /\ total (fun p => Z.of_nat (RoundProgress.completed p)) (roundProgress t)
     = Z.of_nat (List.length
                   (filter (fun m => (1 <=? Match.round m) && isCompleted m) (matches t)))
  /\ Forall (fun p => (RoundProgress.completed p <= RoundProgress.total p)%nat)
            (roundProgress t).
Proof.
  unfold roundProgress. repeat split.
  - rewrite total_map. cbn [RoundProgress.total].
    pose proof (total_by_round t (fun _ => true)) as H.
    rewrite (total_ext_in _ (fun i => Z.of_nat (List.length
               (filter (fun m => Match.round m =? Z.of_nat i + 1) (matches t))))) in H.
    2: { intros i _. do 2 f_equal. clear.
         induction (filter _ (matches t)) as [| x l IH]; [reflexivity |].
         cbn [filter]. rewrite IH. reflexivity. }
    rewrite H. do 2 f_equal. apply filter_ext. intros m. apply andb_true_r.
  - rewrite total_map. cbn [RoundProgress.completed]. apply total_by_round.
  - apply Forall_forall. intros p Hp. apply in_map_iff in Hp.
    destruct Hp as (i & <- & _). cbn [RoundProgress.completed RoundProgress.total].
    apply filter_length_le.
Qed.

(* ================================================================= *)
(** ** Facts about the fixtures *)

Lemma rotate_perm l : Permutation (rotate l) l.
Proof.
  unfold rotate. destruct (rev l) as [| x r] eqn:E; [| ].
  - apply (f_equal (@rev _)) in E. rewrite rev_involutive in E. subst. constructor.
  - apply (f_equal (@rev _)) in E. rewrite rev_involutive in E. subst l.
    cbn [rev]. eapply perm_trans; [| apply Permutation_cons_append].
    eapply perm_trans; [apply Permutation_sym, Permutation_middle |].
    rewrite firstn_skipn. apply Permutation_refl.
Qed.

Lemma rotate_length l : List.length (rotate l) = List.length l.
Proof. apply Permutation_length, rotate_perm. Qed.

Lemma iter_rotate_perm j l : Permutation (Nat.iter j rotate l) l.
Proof.
  induction j as [| j IH]; [apply Permutation_refl |].
  rewrite Nat.iter_succ. eapply perm_trans; [apply rotate_perm | exact IH].
Qed.

Lemma iter_rotate_length j l : List.length (Nat.iter j rotate l) = List.length l.
Proof. apply Permutation_length, iter_rotate_perm. Qed.

Lemma iter_rotate_shift j l : Nat.iter j rotate (rotate l) = Nat.iter (S j) rotate l.
Proof. symmetry. apply Nat.iter_succ_r. Qed.

Lemma roundFixtures_length r l c :
  List.length (roundFixtures r l c) = ((List.length l + 1) / 2)%nat.
Proof. unfold roundFixtures. rewrite length_map, length_seq. reflexivity. Qed.

Lemma roundFixtures_round r l c m :
  In m (roundFixtures r l c) -> Match.round m = Z.of_nat r + 1.
Proof.
  unfold roundFixtures. intros H. apply in_map_iff in H.
  destruct H as (i & <- & _). reflexivity.
Qed.

Lemma map_seq_shift {A : Type} (f : nat -> A) c n :
  map (fun m => f (c + m)%nat) (seq 0 n) = map f (seq c n).
Proof.
  rewrite <- (map_map (fun m => (c + m)%nat) f). f_equal.
  revert c. induction n as [| n IH]; intros c; [reflexivity |].
  rewrite !seq_S, map_app, IH. cbn [map]. reflexivity.
Qed.

Lemma roundFixtures_ids r l c :
  map Match.id (roundFixtures r l c)
  = map fixtureId (seq c ((List.length l + 1) / 2)).
Proof.
  unfold roundFixtures. rewrite map_map. cbn [fixtureOf Match.id].
  apply (map_seq_shift fixtureId).
Qed.

(** The schedule of [rounds] rounds. *)
Lemma roundsFrom_length rounds : forall r l c,
  List.length (roundsFrom rounds r l c)
  = (rounds * ((List.length l + 1) / 2))%nat.
Proof.
  induction rounds as [| k IH]; intros r l c; [reflexivity |].
  cbn [roundsFrom]. rewrite length_app, roundFixtures_length, IH, rotate_length.
  lia.
Qed.

Lemma roundsFrom_ids rounds : forall r l c,
  map Match.id (roundsFrom rounds r l c)
  = map fixtureId (seq c (rounds * ((List.length l + 1) / 2))).
Proof.
  induction rounds as [| k IH]; intros r l c; [reflexivity |].
  cbn [roundsFrom]. rewrite map_app, roundFixtures_ids, IH, rotate_length.
  cbn [Nat.mul]. rewrite seq_app, map_app. reflexivity.
Qed.

Lemma roundsFrom_fresh rounds : forall r l c m,
  In m (roundsFrom rounds r l c) ->
  Match.status m = NOT_STARTED /\ Match.resultType m = None
  /\ Match.winnerId m = None /\ score m = [0; 0; 0; 0; 0; 0; 0; 0].
Proof.
  induction rounds as [| k IH]; intros r l c m H; [destruct H |].
  cbn [roundsFrom] in H. apply in_app_or in H. destruct H as [H | H].
  - unfold roundFixtures in H. apply in_map_iff in H.
    destruct H as (i & <- & _). repeat split.
  - apply (IH _ _ _ _ H).
Qed.

Lemma roundsFrom_rounds rounds : forall r l c m,
  In m (roundsFrom rounds r l c) ->
  Z.of_nat r + 1 <= Match.round m <= Z.of_nat r + Z.of_nat rounds.
Proof.
  induction rounds as [| k IH]; intros r l c m H; [destruct H |].
  cbn [roundsFrom] in H. apply in_app_or in H. destruct H as [H | H].
  - apply roundFixtures_round in H. lia.
  - apply IH in H. lia.
Qed.

Lemma inRound_all r ms :
  (forall m, In m ms -> Match.round m = r) -> inRound r ms = ms.
Proof.
  intros H. unfold inRound. induction ms as [| m ms IH]; [reflexivity |].
  cbn [filter]. rewrite (H m) by (left; reflexivity). rewrite Z.eqb_refl.
  rewrite IH by (intros; apply H; right; assumption). reflexivity.
Qed.

Lemma inRound_none r ms :
  (forall m, In m ms -> Match.round m <> r) -> inRound r ms = [].
Proof.
  intros H. unfold inRound. induction ms as [| m ms IH]; [reflexivity |].
  cbn [filter]. destruct (Z.eqb_spec (Match.round m) r) as [E | _].
  - destruct (H m (or_introl eq_refl) E).
  - apply IH. intros; apply H; right; assumption.
Qed.

(** The fixtures of one round of the schedule are the fixtures made from
    the team list as rotated that many times. *)
Lemma roundsFrom_inRound rounds : forall r0 l c j,
  (j < rounds)%nat ->
  inRound (Z.of_nat (r0 + j) + 1) (roundsFrom rounds r0 l c)
  = roundFixtures (r0 + j) (Nat.iter j rotate l)
                  (c + j * ((List.length l + 1) / 2)).
Proof.
  induction rounds as [| k IH]; intros r0 l c j Hj; [lia |].
  cbn [roundsFrom]. unfold inRound. rewrite filter_app.
  fold (inRound (Z.of_nat (r0 + j) + 1) (roundFixtures r0 l c)).
  fold (inRound (Z.of_nat (r0 + j) + 1)
                (roundsFrom k (S r0) (rotate l) (c + (List.length l + 1) / 2))).
  destruct j as [| j].
  - rewrite Nat.add_0_r. rewrite inRound_all by apply roundFixtures_round.
    rewrite inRound_none.
    + rewrite app_nil_r. cbn [Nat.iter Nat.mul]. rewrite Nat.add_0_r. reflexivity.
    + intros m H. apply roundsFrom_rounds in H. lia.
  - rewrite inRound_none.
    + cbn [app]. replace (r0 + S j)%nat with (S r0 + j)%nat by lia.
      rewrite IH by lia. rewrite rotate_length, iter_rotate_shift.
      f_equal. lia.
    + intros m H. apply roundFixtures_round in H. lia.
Qed.

Lemma map_nth_seq {A : Type} (l : list A) d h :
  (h <= List.length l)%nat ->
  map (fun m => nth m l d) (seq 0 h) = firstn h l.
Proof.
  revert l. induction h as [| h IH]; intros l H; [reflexivity |].
  destruct l as [| x l]; [cbn in H; lia |].
  cbn [seq map nth firstn]. f_equal.
  rewrite <- seq_shift, map_map. cbn [nth]. apply IH. cbn in H. lia.
Qed.

Lemma map_nth_back {A : Type} (l : list A) d h :
  (h <= List.length l)%nat ->
  map (fun m => nth (List.length l - 1 - m) l d) (seq 0 h)
  = rev (skipn (List.length l - h) l).
Proof.
  intros H. rewrite <- firstn_rev, <- (map_nth_seq (rev l) d h)
    by (rewrite length_rev; exact H).
  apply map_ext_in. intros m Hm. apply in_seq in Hm.
  rewrite rev_nth by lia. f_equal. lia.
Qed.

Lemma fixtureId_inj i j : fixtureId i = fixtureId j -> i = j.
Proof.
  unfold fixtureId. intros H. cbn [String.append] in H.
  injection H as H. apply TextFacts.toString_inj in H. lia.
Qed.

Lemma NoDup_map_inj {A B : Type} (f : A -> B) l :
  (forall x y, f x = f y -> x = y) -> NoDup l -> NoDup (map f l).
Proof.
  intros I. induction 1 as [| x l N _ IH]; cbn [map]; constructor; [| exact IH].
  intros H. apply in_map_iff in H. destruct H as (y & E & Hy).
  apply I in E. subst. contradiction.
Qed.

Section ScheduleFacts.
Variable t : Tournament.
Variable venues : list string.
Hypothesis unlocked : isLocked t = false.
Hypothesis enough : (2 <= List.length (teams t))%nat.
Hypothesis somewhere : venues <> [].

Lemma generateSchedule_matches :
  matches (generateSchedule t venues)
  = roundsFrom (List.length (teams t) - 1) 0 (map Team.id (teams t)) 1.
Proof.
  unfold generateSchedule. rewrite unlocked, length_map.
  destruct (Nat.ltb_spec (List.length (teams t)) 2) as [L | _]; [lia |].
  destruct venues; [contradiction |]. reflexivity.
Qed.

Lemma generateSchedule_inRound r :
  (r < List.length (teams t) - 1)%nat ->
  inRound (Z.of_nat r + 1) (matches (generateSchedule t venues))
  = roundFixtures r (Nat.iter r rotate (map Team.id (teams t)))
      (1 + r * ((List.length (teams t) + 1) / 2)).
Proof.
  intros H. rewrite generateSchedule_matches.
  rewrite <- (length_map Team.id (teams t)) at 2.
  apply (roundsFrom_inRound _ 0 _ 1 r H).
Qed.

Lemma generateSchedule_length :
  List.length (matches (generateSchedule t venues))
  = ((List.length (teams t) - 1) * ((List.length (teams t) + 1) / 2))%nat.
Proof.
  rewrite generateSchedule_matches, roundsFrom_length, length_map. reflexivity.
Qed.

Lemma generateSchedule_ids :
  map Match.id (matches (generateSchedule t venues))
  = map fixtureId (seq 1 (List.length (matches (generateSchedule t venues)))).
Proof.
  rewrite generateSchedule_length, generateSchedule_matches, roundsFrom_ids, length_map.
  reflexivity.
Qed.

Lemma generateSchedule_distinct :
  NoDup (map Match.id (matches (generateSchedule t venues))).
Proof.
  rewrite generateSchedule_ids.
  apply NoDup_map_inj; [apply fixtureId_inj | apply seq_NoDup].
Qed.

Lemma generateSchedule_fresh :
  Forall (fun m => Match.status m = NOT_STARTED /\ Match.resultType m = None)
         (matches (generateSchedule t venues)).
Proof.
  apply Forall_forall. intros m Hm. rewrite generateSchedule_matches in Hm.
  apply roundsFrom_fresh in Hm. tauto.
Qed.

End ScheduleFacts.

(** X16.  A generated schedule has [(n - 1) * ceil(n / 2)] fixtures for [n]
    teams, numbered M-1, M-2, ... without repetition, [ceil(n / 2)] of
    them in each of the rounds 1 to [n - 1], and none of them started. *)
Theorem schedule_shape t venues :
  isLocked t = false -> (2 <= List.length (teams t))%nat -> venues <> [] ->
  let n := List.length (teams t) in
  let ms := matches (generateSchedule t venues) in
  List.length ms = ((n - 1) * ((n + 1) / 2))%nat
  /\ map Match.id ms = map fixtureId (seq 1 (List.length ms))
  /\ NoDup (map Match.id ms)
  /\ Forall (fun m => Match.status m = NOT_STARTED /\ Match.resultType m = None) ms
  /\ forall r, (r < n - 1)%nat ->
       List.length (inRound (Z.of_nat r + 1) ms) = ((n + 1) / 2)%nat.
Proof.
  intros L E V. cbv zeta. repeat split.
  - apply generateSchedule_length; assumption.
  - apply generateSchedule_ids; assumption.
  - apply generateSchedule_distinct; assumption.
  - apply generateSchedule_fresh; assumption.
  - intros r Hr. rewrite (generateSchedule_inRound t venues L E V r Hr).
    rewrite roundFixtures_length, iter_rotate_length, length_map. reflexivity.
Qed.

Lemma schedule_shape_witness :
  let t := TwoOrders.firstOrder in
  let ms := matches (generateSchedule t ["stadium-0"%string]) in
  List.length ms = ((4 - 1) * ((4 + 1) / 2))%nat
  /\ map Match.id ms = map fixtureId (seq 1 (List.length ms))
  /\ NoDup (map Match.id ms)
  /\ Forall (fun m => Match.status m = NOT_STARTED /\ Match.resultType m = None) ms
  /\ forall r, (r < 4 - 1)%nat ->
       List.length (inRound (Z.of_nat r + 1) ms) = ((4 + 1) / 2)%nat.
Proof.
  intros t ms.
  apply (schedule_shape t ["stadium-0"%string]).
  - reflexivity.
  - cbn. lia.
  - discriminate.
Defined.

(** X17.  With an even number of teams, the two sides of the fixtures of a
    round are the teams of the team list, each as often as it is listed:
    every team plays once in every round. *)
Theorem schedule_round_even t venues r :
  isLocked t = false -> (2 <= List.length (teams t))%nat -> venues <> [] ->
  Nat.even (List.length (teams t)) = true ->
  (r < List.length (teams t) - 1)%nat ->
  let fx := inRound (Z.of_nat r + 1) (matches (generateSchedule t venues)) in
  Permutation (map Match.team1Id fx ++ map Match.team2Id fx)
              (map Team.id (teams t)).
Proof.
  intros L E V Ev Hr. cbv zeta.
  rewrite (generateSchedule_inRound t venues L E V r Hr).
  set (T := Nat.iter r rotate (map Team.id (teams t))).
  assert (LT : List.length T = List.length (teams t))
    by (unfold T; rewrite iter_rotate_length, length_map; reflexivity).
  apply Nat.even_spec in Ev. destruct Ev as [h Eh].
  unfold roundFixtures. rewrite !map_map. cbn [fixtureOf Match.team1Id Match.team2Id].
  rewrite LT, Eh.
  replace ((2 * h + 1) / 2)%nat with h
    by (apply Nat.div_unique with 1%nat; lia).
  rewrite map_nth_seq by lia.
  rewrite <- Eh, <- LT, map_nth_back by lia.
  replace (List.length T - h)%nat with h by lia.
  apply perm_trans with (firstn h T ++ skipn h T);
    [| rewrite firstn_skipn; apply iter_rotate_perm].
  apply Permutation_app_head, Permutation_sym, Permutation_rev.
Qed.

Lemma schedule_round_even_witness :
  let t := TwoOrders.firstOrder in
  let fx := inRound (Z.of_nat 1 + 1) (matches (generateSchedule t ["stadium-0"%string])) in
  Permutation (map Match.team1Id fx ++ map Match.team2Id fx)
              (map Team.id (teams t)).
Proof.
  intros t.
  apply (schedule_round_even t ["stadium-0"%string] 1).
  - reflexivity.
  - cbn. lia.
  - discriminate.
  - reflexivity.
  - cbn. lia.
Defined.

(** X18.  With an odd number of teams, every round has a fixture that sets a
    team of the team list against itself. *)
Theorem schedule_round_odd t venues r :
  isLocked t = false -> (2 <= List.length (teams t))%nat -> venues <> [] ->
  Nat.odd (List.length (teams t)) = true ->
  (r < List.length (teams t) - 1)%nat ->
  exists m,
    In m (matches (generateSchedule t venues))
    /\ Match.round m = Z.of_nat r + 1
    /\ Match.team1Id m = Match.team2Id m
    /\ In (Match.team1Id m) (map Team.id (teams t)).
Proof.
  intros L E V Od Hr.
  pose proof (generateSchedule_inRound t venues L E V r Hr) as R.
  set (T := Nat.iter r rotate (map Team.id (teams t))) in *.
  assert (LT : List.length T = List.length (teams t))
    by (unfold T; rewrite iter_rotate_length, length_map; reflexivity).
  apply Nat.odd_spec in Od. destruct Od as [h Eh].
  set (c := (1 + r * ((List.length (teams t) + 1) / 2))%nat) in *.
  exists (fixtureOf (c + h) r (nth h T EmptyString)
                    (nth (List.length T - 1 - h) T EmptyString)).
  assert (I : In (fixtureOf (c + h) r (nth h T EmptyString)
                            (nth (List.length T - 1 - h) T EmptyString))
                 (roundFixtures r T c)).
  { unfold roundFixtures. apply in_map_iff. exists h. split; [reflexivity |].
    apply in_seq. rewrite LT, Eh.
    replace ((2 * h + 1 + 1) / 2)%nat with (S h)
      by (apply Nat.div_unique with 0%nat; lia).
    lia. }
  repeat split.
  - rewrite <- R in I. unfold inRound in I. apply filter_In in I. apply I.
  - cbn [fixtureOf Match.team1Id Match.team2Id]. f_equal. lia.
  - cbn [fixtureOf Match.team1Id].
    apply (Permutation_in _ (iter_rotate_perm r (map Team.id (teams t)))).
    fold T. apply nth_In. lia.
Qed.

Lemma schedule_round_odd_witness :
  exists m,
    In m (matches (generateSchedule FiveTeams.tournament ["stadium-0"%string]))
    /\ Match.round m = Z.of_nat 2 + 1
    /\ Match.team1Id m = Match.team2Id m
    /\ In (Match.team1Id m) (map Team.id (teams FiveTeams.tournament)).
Proof.
  apply (schedule_round_odd FiveTeams.tournament ["stadium-0"%string] 2).
  - reflexivity.
  - cbn. lia.
  - discriminate.
  - reflexivity.
  - cbn. lia.
Defined.

(* ================================================================= *)
(** ** Facts about the points of a result card *)

(** X19.  The points a result card shows for a side are the points the table
    adds for that side when the result is a win of either side or a tie;
    for every other result the table adds the points of a draw. *)
Theorem card_points t m s v1 v2 :
  Match.team1Id m <> Match.team2Id m ->
  lookup (Match.team1Id m) s = Some v1 ->
  lookup (Match.team2Id m) s = Some v2 ->
  exists v1' v2',
    lookup (Match.team1Id m) (recordMatch t m s) = Some v1'
    /\ lookup (Match.team2Id m) (recordMatch t m s) = Some v2'
    /\ Standing.actualPoints v1'
       = Standing.actualPoints v1
         + match Match.resultType m with
           | Some T1_WIN | Some T2_WIN | Some TIE => t1Earned t m
           | _ => draw (pointsConfig t)
           end
    /\ Standing.actualPoints v2'
       = Standing.actualPoints v2
         + match Match.resultType m with
           | Some T1_WIN | Some T2_WIN | Some TIE => t2Earned t m
           | _ => draw (pointsConfig t)
           end.
Proof.
  intros D L1 L2.
  rewrite recordMatch_guard. unfold bothKnown. rewrite L1, L2.
  rewrite !lookup_map_touch, L1, L2. cbn [option_map].
  eexists _, _. split; [reflexivity |]. split; [reflexivity |].
  pose proof (touch_totals t m (Match.team1Id m) v1) as (_ & _ & P1 & _).
  pose proof (touch_totals t m (Match.team2Id m) v2) as (_ & _ & P2 & _).
  rewrite P1, P2. unfold side1, side2.
  rewrite !String.eqb_refl.
  apply String.eqb_neq in D. rewrite D.
  rewrite String.eqb_sym in D. rewrite D.
  unfold awarded1, awarded2, wonBy1, wonBy2, t1Earned, t2Earned.
  destruct (Match.resultType m) as [[] |]; split; lia.
Qed.

Lemma card_points_witness :
  let t := Scenario.after in
  let m := hd Scenario.fixture (matches t) in
  exists v1' v2',
    lookup (Match.team1Id m) (recordMatch t m (initialStats t)) = Some v1'
    /\ lookup (Match.team2Id m) (recordMatch t m (initialStats t)) = Some v2'
    /\ Standing.actualPoints v1'
       = Standing.actualPoints (freshStanding Scenario.A)
         + match Match.resultType m with
           | Some T1_WIN | Some T2_WIN | Some TIE => t1Earned t m
           | _ => draw (pointsConfig t)
           end
    /\ Standing.actualPoints v2'
       = Standing.actualPoints (freshStanding Scenario.B)
         + match Match.resultType m with
           | Some T1_WIN | Some T2_WIN | Some TIE => t2Earned t m
           | _ => draw (pointsConfig t)
           end.
Proof.
  intros t m.
  apply (card_points t m (initialStats t)
                     (freshStanding Scenario.A) (freshStanding Scenario.B)).
  - vm_compute. discriminate.
  - reflexivity.
  - reflexivity.
Defined.

(* ================================================================= *)
(** ** Facts about the status of a tournament *)

Lemma filter_none {A : Type} (p : A -> bool) l :
  filter p l = [] <-> Forall (fun x => p x = false) l.
Proof.
  induction l as [| x l IH]; cbn [filter].
  - split; constructor.
  - destruct (p x) eqn:E.
    + split; [discriminate |]. intros H. inversion H. congruence.
    + rewrite IH. split; intros H; [constructor; assumption | inversion H; assumption].
Qed.

Lemma filter_all {A : Type} (p : A -> bool) l :
  List.length (filter p l) = List.length l <-> Forall (fun x => p x = true) l.
Proof.
  induction l as [| x l IH]; cbn [filter].
  - split; constructor.
  - pose proof (filter_length_le p l) as B. destruct (p x) eqn:E; cbn [List.length].
    + split; intros H.
      * constructor; [exact E | apply IH; lia].
      * inversion H. f_equal. apply IH. assumption.
    + split; intros H; [lia |]. inversion H. congruence.
Qed.

(** X20.  A tournament is shown as upcoming exactly when none of its matches
    is completed (so also when it has none), and as completed exactly when
    it has matches and all are completed. *)
Theorem status_shown t :
  (ManageTournamentList.status t = ManageTournamentList.Upcoming
   <-> Forall (fun m => isCompleted m = false) (matches t))
  /\ (ManageTournamentList.status t = ManageTournamentList.Completed
      <-> matches t <> [] /\ Forall (fun m => isCompleted m = true) (matches t)).
Proof.
  unfold ManageTournamentList.status.
  pose proof (filter_none isCompleted (matches t)) as N.
  pose proof (filter_all isCompleted (matches t)) as A.
  destruct (Nat.eqb_spec (List.length (filter isCompleted (matches t))) 0) as [Z | NZ].
  - apply length_zero_iff_nil in Z. split.
    + split; [intros _; apply N, Z | reflexivity].
    + split; [discriminate |]. intros [NE F]. exfalso.
      apply A in F. rewrite Z in F. destruct (matches t); [auto | discriminate F].
  - assert (filter isCompleted (matches t) <> [])
      by (intros E; rewrite E in NZ; auto).
    destruct (Nat.eqb_spec (List.length (filter isCompleted (matches t)))
                           (List.length (matches t))) as [E | NE].
    + split.
      * split; [discriminate |]. intros F. apply N in F. contradiction.
      * split; [| reflexivity]. intros _. split; [| apply A, E].
        intros M. rewrite M in H. auto.
    + split.
      * split; [discriminate |]. intros F. apply N in F. contradiction.
      * split; [discriminate |]. intros [_ F]. apply A in F. contradiction.
Qed.

(* ================================================================= *)
(** ** Facts about a schedule and its first result *)

Lemma filter_isCompleted_fresh ms :
  Forall (fun m => Match.status m = NOT_STARTED /\ Match.resultType m = None) ms ->
  Forall (fun m => isCompleted m = false) ms.
Proof.
  intros F. rewrite Forall_forall in F |- *. intros m Hm.
  unfold isCompleted. rewrite (proj1 (F m Hm)). reflexivity.
Qed.

Lemma generateSchedule_frame t venues :
  isLocked (generateSchedule t venues) = isLocked t
  /\ teams (generateSchedule t venues) = teams t
  /\ config (generateSchedule t venues) = config t.
Proof.
  unfold generateSchedule. destruct (isLocked t) eqn:L; [auto |].
  destruct (_ || _); cbn [isLocked teams config]; auto.
Qed.

Lemma filter_map_length {A B : Type} (p : B -> bool) (g : A -> B) l :
  List.length (filter p (map g l)) = List.length (filter (fun x => p (g x)) l).
Proof.
  induction l as [| x l IH]; [reflexivity |].
  cbn [map filter]. destruct (p (g x)); cbn [List.length]; rewrite IH; reflexivity.
Qed.

(** X21.  A generated schedule is shown as upcoming; saving a result for one
    of its fixtures completes that fixture and no other, after which the
    tournament is shown as ongoing, or as completed when the fixture is the
    only one. *)
Theorem first_result t venues form k :
  isLocked t = false -> (2 <= List.length (teams t))%nat -> venues <> [] ->
  (1 <= k <= List.length (matches (generateSchedule t venues)))%nat ->
  let scheduled := generateSchedule t venues in
  let played := handleSaveResult scheduled form (fixtureId k) in
  ManageTournamentList.status scheduled = ManageTournamentList.Upcoming
  /\ Forall (fun m => isCompleted m = hasId (fixtureId k) m) (matches played)
  /\ List.length (filter isCompleted (matches played)) = 1%nat
  /\ ManageTournamentList.status played
     = if (List.length (matches scheduled) =? 1)%nat
       then ManageTournamentList.Completed else ManageTournamentList.Ongoing.
Proof.
  intros L E V K. cbv zeta.
  pose proof (generateSchedule_ids t venues L E V) as Ids.
  pose proof (generateSchedule_distinct t venues L E V) as N.
  pose proof (generateSchedule_fresh t venues L E V) as F.
  set (scheduled := generateSchedule t venues) in *.
  pose proof (filter_isCompleted_fresh _ F) as NC.
  assert (I : In (fixtureId k) (map Match.id (matches scheduled))).
  { rewrite Ids. apply in_map, in_seq. lia. }
  assert (U : isLocked scheduled = false).
  { unfold scheduled. rewrite (proj1 (generateSchedule_frame t venues)). exact L. }
  assert (Fm : exists m, find (hasId (fixtureId k)) (matches scheduled) = Some m).
  { apply in_map_iff in I. destruct I as (m' & Em & Im).
    apply (find_hasId_In _ _ m' Im). unfold hasId. rewrite Em. apply String.eqb_refl. }
  destruct Fm as (m & Fm).
  rewrite (handleSaveResult_found scheduled form (fixtureId k) m U Fm).
  cbn [withMatches matches].
  set (g := fun x => if hasId (fixtureId k) x then completedWith form _ _ x else x).
  assert (G : forall x, In x (matches scheduled) ->
                isCompleted (g x) = hasId (fixtureId k) x
                /\ hasId (fixtureId k) (g x) = hasId (fixtureId k) x).
  { intros x Hx. unfold g. destruct (hasId (fixtureId k) x) eqn:H.
    - split; [reflexivity | exact H].
    - split; [| exact H]. rewrite Forall_forall in NC. apply NC, Hx. }
  assert (One : List.length (filter isCompleted (map g (matches scheduled))) = 1%nat).
  { rewrite filter_map_length.
    rewrite (filter_ext_in _ (fun x => String.eqb (Match.id x) (fixtureId k)))
      by (intros x Hx; apply (proj1 (G x Hx))).
    apply count_one; assumption. }
  repeat split.
  - unfold ManageTournamentList.status.
    rewrite (proj2 (filter_none isCompleted _) NC). reflexivity.
  - apply Forall_forall. intros y Hy. apply in_map_iff in Hy.
    destruct Hy as (x & <- & Hx). destruct (G x Hx) as [G1 G2]. congruence.
  - exact One.
  - unfold ManageTournamentList.status. cbv zeta.
    change (matches (withMatches scheduled (map g (matches scheduled))))
      with (map g (matches scheduled)).
    rewrite One, length_map. cbn [Nat.eqb]. rewrite Nat.eqb_sym. reflexivity.
Qed.

Lemma first_result_witness :
  let scheduled := generateSchedule TwoOrders.firstOrder ["stadium-0"%string] in
  let played := handleSaveResult scheduled Scenario.form (fixtureId 2) in
  ManageTournamentList.status scheduled = ManageTournamentList.Upcoming
  /\ Forall (fun m => isCompleted m = hasId (fixtureId 2) m) (matches played)
  /\ List.length (filter isCompleted (matches played)) = 1%nat
  /\ ManageTournamentList.status played
     = if (List.length (matches scheduled) =? 1)%nat
       then ManageTournamentList.Completed else ManageTournamentList.Ongoing.
Proof.
  intros scheduled played.
  apply (first_result TwoOrders.firstOrder ["stadium-0"%string] Scenario.form 2).
  - reflexivity.
  - cbn. lia.
  - discriminate.
  - vm_compute. split; repeat constructor.
Defined.

(** X22.  Generating a schedule resets the table: whatever results the
    tournament held, every team is back at zero, in the order of the team
    list. *)
Theorem schedule_resets_table t venues :
  isLocked t = false -> (2 <= List.length (teams t))%nat -> venues <> [] ->
  NoDup (map Team.id (teams t)) ->
  standings (generateSchedule t venues) = map freshStanding (teams t).
Proof.
  intros L E V N.
  pose proof (generateSchedule_fresh t venues L E V) as F.
  destruct (generateSchedule_frame t venues) as (_ & T & _).
  set (scheduled := generateSchedule t venues) in *.
  assert (C : counted scheduled = []).
  { unfold counted. apply filter_none.
    rewrite Forall_forall in F |- *. intros m Hm.
    unfold isCompleted. rewrite (proj1 (F m Hm)). reflexivity. }
  unfold standings. rewrite (unplayed_values scheduled C), T by (rewrite T; exact N).
  apply sort_fresh.
Qed.

Lemma schedule_resets_table_witness :
  standings (generateSchedule TwoOrders.firstOrder ["stadium-0"%string])
  = map freshStanding (teams TwoOrders.firstOrder).
Proof.
  apply (schedule_resets_table TwoOrders.firstOrder ["stadium-0"%string]).
  - reflexivity.
  - cbn. lia.
  - discriminate.
  - cbn. repeat constructor; cbn; intuition discriminate.
Defined.

(* ================================================================= *)
(** ** Facts about the rotation of the team list *)

Lemma rotate_shape (l : list string) :
  (2 <= List.length l)%nat ->
  exists y mid x, l = y :: mid ++ [x] /\ rotate l = y :: x :: mid.
Proof.
  intros H. destruct (rev l) as [| x r] eqn:E.
  - apply (f_equal (@rev _)) in E. rewrite rev_involutive in E. subst. cbn in H. lia.
  - unfold rotate. rewrite E.
    apply (f_equal (@rev _)) in E. rewrite rev_involutive in E. cbn [rev] in E.
    destruct (rev r) as [| y mid] eqn:R.
    + subst l. cbn in H. lia.
    + exists y, mid, x. split; [exact E | reflexivity].
Qed.

Lemma rotate_nth (l : list string) d p :
  (2 <= List.length l)%nat -> (p < List.length l)%nat ->
  nth (moved (List.length l) p) (rotate l) d = nth p l d.
Proof.
  intros H Hp. destruct (rotate_shape l H) as (y & mid & x & -> & ->).
  rewrite length_cons, length_app in *. cbn [List.length] in *.
  unfold moved. destruct p as [| p]; [reflexivity |].
  change (S p =? 0)%nat with false. cbv iota.
  destruct (Nat.eqb_spec (S p) (S (List.length mid + 1) - 1)) as [E | N].
  - cbn [nth]. replace p with (List.length mid) by lia.
    rewrite app_nth2, Nat.sub_diag by lia. reflexivity.
  - cbn [nth]. rewrite app_nth1 by lia. reflexivity.
Qed.

Lemma moved_bound n p : (2 <= n)%nat -> (p < n)%nat -> (moved n p < n)%nat.
Proof.
  intros H Hp. unfold moved.
  destruct (Nat.eqb_spec p 0); [lia |].
  destruct (Nat.eqb_spec p (n - 1)); lia.
Qed.

Lemma place_bound n r q : (2 <= n)%nat -> (q < n)%nat -> (place n r q < n)%nat.
Proof.
  intros H Hq. unfold place. destruct (Nat.eqb_spec q 0); [lia |].
  pose proof (Nat.mod_upper_bound (q - 1 + r) (n - 1)). lia.
Qed.

Lemma place_next n r q :
  (2 <= n)%nat -> (q < n)%nat -> place n (S r) q = moved n (place n r q).
Proof.
  intros H Hq. unfold place, moved.
  destruct (Nat.eqb_spec q 0) as [-> | N]; [reflexivity |].
  pose proof (Nat.mod_upper_bound (q - 1 + r) (n - 1) ltac:(lia)) as B.
  replace (q - 1 + S r)%nat with (1 + (q - 1 + r))%nat by lia.
  rewrite <- Nat.Div0.add_mod_idemp_r.
  set (a := ((q - 1 + r) mod (n - 1))%nat) in *.
  destruct (Nat.eqb_spec (S a) 0) as [Z | _]; [discriminate Z |].
  destruct (Nat.eqb_spec (S a) (n - 1)) as [E | D].
  - replace (1 + a)%nat with (n - 1)%nat by lia.
    rewrite Nat.Div0.mod_same. reflexivity.
  - rewrite Nat.mod_small by lia. reflexivity.
Qed.

(** The element first at position [q] is at position [place n r q] after
    [r] rotations. *)
Lemma iter_rotate_nth (l : list string) d r q :
  (2 <= List.length l)%nat -> (q < List.length l)%nat ->
  nth (place (List.length l) r q) (Nat.iter r rotate l) d = nth q l d.
Proof.
  intros H Hq. induction r as [| r IH].
  - cbn [Nat.iter]. f_equal. unfold place.
    destruct (Nat.eqb_spec q 0) as [-> | N]; [reflexivity |].
    rewrite Nat.add_0_r, Nat.mod_small by lia. lia.
  - rewrite Nat.iter_succ, place_next by assumption.
    rewrite <- (iter_rotate_length r l) at 1.
    rewrite rotate_nth; rewrite ?iter_rotate_length; try assumption.
    apply place_bound; assumption.
Qed.

(** *** The rounds in which two positions meet *)

(** Two positions are paired in a round when, after the rotations of the
    round, they add up to the last position. *)
Lemma congruent_rounds (N h r r' D : Z) :
  N = 2 * h - 1 -> 0 <= r < N -> 0 <= r' < N ->
  2 * (r - r') = N * D -> r = r'.
Proof.
  intros HN Hr Hr' E.
  assert (B : -1 <= D <= 1) by nia.
  assert (C : D = -1 \/ D = 0 \/ D = 1) by lia.
  destruct C as [-> | [-> | ->]]; lia.
Qed.

Lemma place_meet_unique n h i j r r' :
  n = (2 * h)%nat -> (i < n)%nat -> (j < n)%nat -> i <> j ->
  (r < n - 1)%nat -> (r' < n - 1)%nat ->
  (place n r i + place n r j = n - 1)%nat ->
  (place n r' i + place n r' j = n - 1)%nat ->
  r = r'.
Proof.
  intros Hn Hi Hj D Hr Hr'. unfold place.
  assert (P : (0 < n - 1)%nat) by lia.
  pose proof (Nat.div_mod_eq (i - 1 + r) (n - 1)) as E1.
  pose proof (Nat.div_mod_eq (j - 1 + r) (n - 1)) as E2.
  pose proof (Nat.div_mod_eq (i - 1 + r') (n - 1)) as E3.
  pose proof (Nat.div_mod_eq (j - 1 + r') (n - 1)) as E4.
  pose proof (Nat.mod_upper_bound (i - 1 + r) (n - 1) ltac:(lia)) as B1.
  pose proof (Nat.mod_upper_bound (j - 1 + r) (n - 1) ltac:(lia)) as B2.
  pose proof (Nat.mod_upper_bound (i - 1 + r') (n - 1) ltac:(lia)) as B3.
  pose proof (Nat.mod_upper_bound (j - 1 + r') (n - 1) ltac:(lia)) as B4.
  revert E1 E2 E3 E4 B1 B2 B3 B4.
  generalize ((i - 1 + r) mod (n - 1))%nat ((i - 1 + r) / (n - 1))%nat
             ((j - 1 + r) mod (n - 1))%nat ((j - 1 + r) / (n - 1))%nat
             ((i - 1 + r') mod (n - 1))%nat ((i - 1 + r') / (n - 1))%nat
             ((j - 1 + r') mod (n - 1))%nat ((j - 1 + r') / (n - 1))%nat.
  intros a1 q1 a2 q2 a3 q3 a4 q4 E1 E2 E3 E4 B1 B2 B3 B4.
  destruct (Nat.eqb_spec i 0) as [Zi | Ni], (Nat.eqb_spec j 0) as [Zj | Nj];
    intros S1 S2; [lia | | |].
  - apply Nat2Z.inj.
    apply (congruent_rounds (Z.of_nat (n - 1)) (Z.of_nat h) _ _
             (2 * (Z.of_nat q2 - Z.of_nat q4))); nia.
  - apply Nat2Z.inj.
    apply (congruent_rounds (Z.of_nat (n - 1)) (Z.of_nat h) _ _
             (2 * (Z.of_nat q1 - Z.of_nat q3))); nia.
  - apply Nat2Z.inj.
    apply (congruent_rounds (Z.of_nat (n - 1)) (Z.of_nat h) _ _
             (Z.of_nat q1 + Z.of_nat q2 - Z.of_nat q3 - Z.of_nat q4)); nia.
Qed.

Lemma small_multiple (N d q : Z) :
  0 < N -> - N < d < N -> d = N * q -> d = 0.
Proof. intros HN B E. assert (q = 0) by nia. subst q. lia. Qed.

Lemma quotient_one_or_two (N K s : Z) :
  1 <= N -> 2 <= s <= 2 * N -> s = N * K -> K = 1 \/ K = 2.
Proof. intros HN B E. assert (1 <= K <= 2) by nia. lia. Qed.

Lemma meeting_round (N h i j r q3 a b q1 q2 : Z) :
  N = 2 * h - 1 -> 1 <= i <= N -> 1 <= j <= N -> i <> j ->
  h * (2 * N - i - j) = N * q3 + r -> 0 <= r < N ->
  i - 1 + r = N * q1 + a -> 0 <= a < N ->
  j - 1 + r = N * q2 + b -> 0 <= b < N ->
  a + b = N - 2.
Proof.
  intros HN Hi Hj D E3 Br E1 Ba E2 Bb.
  assert (EK : a + b + 2
               = N * (2 + 2 * N - i - j - 2 * q3 - q1 - q2)).
  { assert (Ea : a = i - 1 + r - N * q1) by lia.
    assert (Eb : b = j - 1 + r - N * q2) by lia.
    assert (Er : r = h * (2 * N - i - j) - N * q3) by lia.
    rewrite Ea, Eb, Er, HN. ring. }
  destruct (quotient_one_or_two N _ (a + b + 2) ltac:(lia) ltac:(lia) EK) as [C | C];
    rewrite C in EK; [lia |].
  exfalso. assert (a = N - 1 /\ b = N - 1) as [-> ->] by lia.
  apply D. assert (i - j = 0); [| lia].
  apply (small_multiple N (i - j) (q1 - q2)); lia.
Qed.

Lemma place_meet_exists n h i j :
  n = (2 * h)%nat -> (i < n)%nat -> (j < n)%nat -> i <> j ->
  exists r, (r < n - 1)%nat /\ (place n r i + place n r j = n - 1)%nat.
Proof.
  intros Hn Hi Hj D. unfold place.
  destruct (Nat.eqb_spec i 0) as [Zi | Ni], (Nat.eqb_spec j 0) as [Zj | Nj]; [lia | | |].
  - exists (n - 1 - j)%nat. split; [lia |].
    replace (j - 1 + (n - 1 - j))%nat with (n - 2)%nat by lia.
    rewrite Nat.mod_small by lia. lia.
  - exists (n - 1 - i)%nat. split; [lia |].
    replace (i - 1 + (n - 1 - i))%nat with (n - 2)%nat by lia.
    rewrite Nat.mod_small by lia. lia.
  - set (r := ((h * (2 * (n - 1) - i - j)) mod (n - 1))%nat).
    exists r.
    pose proof (Nat.div_mod_eq (h * (2 * (n - 1) - i - j)) (n - 1)) as E3.
    pose proof (Nat.mod_upper_bound (h * (2 * (n - 1) - i - j)) (n - 1) ltac:(lia)) as B3.
    fold r in E3, B3. split; [exact B3 |].
    pose proof (Nat.div_mod_eq (i - 1 + r) (n - 1)) as E1.
    pose proof (Nat.div_mod_eq (j - 1 + r) (n - 1)) as E2.
    pose proof (Nat.mod_upper_bound (i - 1 + r) (n - 1) ltac:(lia)) as B1.
    pose proof (Nat.mod_upper_bound (j - 1 + r) (n - 1) ltac:(lia)) as B2.
    revert E1 E2 E3 B1 B2.
    generalize ((i - 1 + r) mod (n - 1))%nat ((i - 1 + r) / (n - 1))%nat
               ((j - 1 + r) mod (n - 1))%nat ((j - 1 + r) / (n - 1))%nat
               ((h * (2 * (n - 1) - i - j)) / (n - 1))%nat.
    clearbody r. intros a q1 b q2 q3 E1 E2 E3 B1 B2.
    pose proof (meeting_round (Z.of_nat (n - 1)) (Z.of_nat h) (Z.of_nat i) (Z.of_nat j)
                  (Z.of_nat r) (Z.of_nat q3) (Z.of_nat a) (Z.of_nat b)
                  (Z.of_nat q1) (Z.of_nat q2)) as M.
    assert (Z.of_nat a + Z.of_nat b = Z.of_nat (n - 1) - 2); [| lia].
    apply M; [lia | lia | lia | lia | | lia | | lia | | lia].
    + rewrite <- Nat2Z.inj_mul, <- Nat2Z.inj_add, <- E3.
      rewrite Nat2Z.inj_mul. f_equal. lia.
    + rewrite <- Nat2Z.inj_mul, <- Nat2Z.inj_add, <- E1. lia.
    + rewrite <- Nat2Z.inj_mul, <- Nat2Z.inj_add, <- E2. lia.
Qed.

(** *** The matches of the schedule *)

Section RoundRobinFacts.
Variable t : Tournament.
Variable venues : list string.
Hypothesis unlocked : isLocked t = false.
Hypothesis enough : (2 <= List.length (teams t))%nat.
Hypothesis somewhere : venues <> [].

(** The match number [k] of round [r]. *)
Let fixture (r k : nat) : Match.t :=
  let n := List.length (teams t) in
  let T := Nat.iter r rotate (map Team.id (teams t)) in
  fixtureOf (1 + r * ((n + 1) / 2) + k) r
            (nth k T EmptyString) (nth (n - 1 - k) T EmptyString).

Lemma generateSchedule_In m :
  In m (matches (generateSchedule t venues))
  <-> exists r k,
        (r < List.length (teams t) - 1)%nat
        /\ (k < (List.length (teams t) + 1) / 2)%nat
        /\ m = fixture r k.
Proof.
  split.
  - intros H.
    assert (R : exists r, (r < List.length (teams t) - 1)%nat
                          /\ Match.round m = Z.of_nat r + 1).
    { rewrite (generateSchedule_matches t venues unlocked enough somewhere) in H.
      apply roundsFrom_rounds in H.
      exists (Z.to_nat (Match.round m - 1)). lia. }
    destruct R as (r & Hr & E).
    assert (I : In m (inRound (Z.of_nat r + 1) (matches (generateSchedule t venues)))).
    { apply filter_In. split; [exact H | apply Z.eqb_eq, E]. }
    rewrite (generateSchedule_inRound t venues unlocked enough somewhere r Hr) in I.
    unfold roundFixtures in I. apply in_map_iff in I. destruct I as (k & <- & Hk).
    apply in_seq in Hk. rewrite iter_rotate_length, length_map in Hk |- *.
    exists r, k. repeat split; [exact Hr | lia].
  - intros (r & k & Hr & Hk & ->).
    assert (I : In (fixture r k)
                   (inRound (Z.of_nat r + 1) (matches (generateSchedule t venues)))).
    { rewrite (generateSchedule_inRound t venues unlocked enough somewhere r Hr).
      unfold roundFixtures. apply in_map_iff. exists k.
      rewrite iter_rotate_length, length_map.
      split; [reflexivity | apply in_seq; lia]. }
    apply filter_In in I. apply I.
Qed.

Hypothesis distinct : NoDup (map Team.id (teams t)).

(** After [r] rotations a position holds the team first at position [q]
    exactly when it is the place of [q]. *)
Lemma rotated_holds r p q :
  (p < List.length (teams t))%nat -> (q < List.length (teams t))%nat ->
  nth p (Nat.iter r rotate (map Team.id (teams t))) EmptyString
    = nth q (map Team.id (teams t)) EmptyString
  <-> p = place (List.length (teams t)) r q.
Proof.
  intros Hp Hq.
  pose proof (iter_rotate_nth (map Team.id (teams t)) EmptyString r q) as P.
  rewrite length_map in P. specialize (P enough Hq).
  pose proof (place_bound (List.length (teams t)) r q enough Hq) as B.
  split; intros H.
  - assert (N : NoDup (Nat.iter r rotate (map Team.id (teams t)))).
    { apply (Permutation_NoDup (Permutation_sym (iter_rotate_perm r _)) distinct). }
    rewrite (NoDup_nth _ EmptyString) in N. apply N.
    + rewrite iter_rotate_length, length_map. exact Hp.
    + rewrite iter_rotate_length, length_map. exact B.
    + congruence.
  - subst p. exact P.
Qed.

(** Two teams are the sides of a match of round [r] exactly when their
    places in that round add up to the last position, and the match is
    the one numbered by the smaller place. *)
Lemma fixture_meets r k i j :
  (k < (List.length (teams t) + 1) / 2)%nat ->
  Nat.even (List.length (teams t)) = true ->
  (i < List.length (teams t))%nat -> (j < List.length (teams t))%nat ->
  meets (nth i (map Team.id (teams t)) EmptyString)
        (nth j (map Team.id (teams t)) EmptyString) (fixture r k) = true
  <-> (place (List.length (teams t)) r i + place (List.length (teams t)) r j
       = List.length (teams t) - 1)%nat
      /\ k = Nat.min (place (List.length (teams t)) r i)
                     (place (List.length (teams t)) r j).
Proof.
  intros Hk Ev Hi Hj.
  apply Nat.even_spec in Ev. destruct Ev as [h Eh].
  assert (Hh : ((List.length (teams t) + 1) / 2 = h)%nat).
  { rewrite Eh. symmetry. apply Nat.div_unique with 1%nat; lia. }
  rewrite Hh in Hk.
  unfold meets, fixture. cbv zeta. cbn [fixtureOf Match.team1Id Match.team2Id].
  rewrite orb_true_iff, !andb_true_iff, !String.eqb_eq.
  rewrite !rotated_holds by lia.
  lia.
Qed.

Lemma fixture_meets_places r k i j :
  (k < (List.length (teams t) + 1) / 2)%nat ->
  (i < List.length (teams t))%nat -> (j < List.length (teams t))%nat ->
  meets (nth i (map Team.id (teams t)) EmptyString)
        (nth j (map Team.id (teams t)) EmptyString) (fixture r k) = true ->
  (place (List.length (teams t)) r i + place (List.length (teams t)) r j
   = List.length (teams t) - 1)%nat.
Proof.
  intros Hk Hi Hj.
  assert (Kn : (k < List.length (teams t))%nat).
  { apply Nat.lt_le_trans with (1 := Hk). apply Nat.Div0.div_le_upper_bound. lia. }
  unfold meets, fixture. cbv zeta. cbn [fixtureOf Match.team1Id Match.team2Id].
  rewrite orb_true_iff, !andb_true_iff, !String.eqb_eq.
  rewrite !rotated_holds by lia.
  lia.
Qed.

End RoundRobinFacts.

(** With an odd number of teams the places of the second and the third
    team never add up to the last position. *)
Lemma odd_places_apart n h r :
  n = (2 * h + 1)%nat -> (3 <= n)%nat -> (r < n - 1)%nat ->
  (place n r 1 + place n r 2 <> n - 1)%nat.
Proof.
  intros Hn H3 Hr. unfold place. cbn [Nat.eqb Nat.sub Nat.add].
  rewrite (Nat.mod_small r) by lia.
  destruct (Nat.eq_dec (S r) (n - 1)) as [E | D].
  - rewrite E, Nat.Div0.mod_same. lia.
  - rewrite Nat.mod_small by lia. lia.
Qed.

(** X23.  With an even number of teams with distinct ids, every two different
    teams of the team list meet in exactly one match of the generated
    schedule. *)
Theorem round_robin t venues a b :
  isLocked t = false -> (2 <= List.length (teams t))%nat -> venues <> [] ->
  Nat.even (List.length (teams t)) = true ->
  NoDup (map Team.id (teams t)) ->
  In a (map Team.id (teams t)) -> In b (map Team.id (teams t)) -> a <> b ->
  exists m,
    In m (matches (generateSchedule t venues))
    /\ meets a b m = true
    /\ forall m', In m' (matches (generateSchedule t venues)) ->
                  meets a b m' = true -> m' = m.
Proof.
  intros L E V Ev N Ia Ib D.
  apply (In_nth _ _ EmptyString) in Ia, Ib.
  destruct Ia as (i & Hi & <-), Ib as (j & Hj & <-).
  rewrite length_map in Hi, Hj.
  assert (Dij : i <> j) by (intros ->; apply D; reflexivity).
  pose proof Ev as Ev'. apply Nat.even_spec in Ev'. destruct Ev' as [h Eh].
  destruct (place_meet_exists _ h i j Eh Hi Hj Dij) as (r & Hr & S).
  set (n := List.length (teams t)) in *.
  set (k := Nat.min (place n r i) (place n r j)).
  assert (Hh : ((n + 1) / 2 = h)%nat).
  { rewrite Eh. symmetry. apply Nat.div_unique with 1%nat; lia. }
  assert (Hk : (k < (n + 1) / 2)%nat) by (rewrite Hh; unfold k; lia).
  pose proof (generateSchedule_In t venues L E V) as G.
  pose proof (fun r k => fixture_meets t E N r k i j) as F.
  cbv beta zeta in G, F. fold n in G, F.
  eexists. split; [apply G; exists r, k; split; [exact Hr | split; [exact Hk | reflexivity]] |].
  split.
  - apply (F r k Hk Ev Hi Hj). split; [exact S | reflexivity].
  - intros m' Hm' M. apply G in Hm'. destruct Hm' as (r' & k' & Hr' & Hk' & ->).
    apply (F r' k' Hk' Ev Hi Hj) in M. destruct M as [S' K'].
    assert (r' = r) by (apply (place_meet_unique n h i j); assumption).
    subst r'. fold k in K'. subst k'. reflexivity.
Qed.

Lemma round_robin_witness :
  let t := TwoOrders.firstOrder in
  let ms := matches (generateSchedule t ["stadium-0"%string]) in
  exists m,
    In m ms
    /\ meets (Team.id Scenario.B) (Team.id TwoOrders.D) m = true
    /\ forall m', In m' ms ->
                  meets (Team.id Scenario.B) (Team.id TwoOrders.D) m' = true -> m' = m.
Proof.
  intros t ms.
  apply (round_robin t ["stadium-0"%string]).
  - reflexivity.
  - cbn. lia.
  - discriminate.
  - reflexivity.
  - cbn. repeat constructor; cbn; intuition discriminate.
  - cbn. auto.
  - cbn. auto.
  - discriminate.
Defined.

(** X24.  With an odd number of teams the generated schedule is no round
    robin: the second and the third team of the team list never meet. *)
Theorem odd_schedule_misses t venues m :
  isLocked t = false -> (3 <= List.length (teams t))%nat -> venues <> [] ->
  Nat.odd (List.length (teams t)) = true ->
  NoDup (map Team.id (teams t)) ->
  In m (matches (generateSchedule t venues)) ->
  meets (nth 1 (map Team.id (teams t)) EmptyString)
        (nth 2 (map Team.id (teams t)) EmptyString) m = false.
Proof.
  intros L E V Od N Hm.
  assert (E2 : (2 <= List.length (teams t))%nat) by lia.
  pose proof (generateSchedule_In t venues L E2 V) as G.
  pose proof (fun r k => fixture_meets_places t E2 N r k 1 2) as F.
  cbv beta zeta in G, F.
  apply G in Hm. destruct Hm as (r & k & Hr & Hk & ->).
  apply Nat.odd_spec in Od. destruct Od as [h Eh].
  destruct (meets _ _ _) eqn:M; [| reflexivity].
  exfalso. apply F in M; try lia.
  exact (odd_places_apart _ h r Eh E Hr M).
Qed.

Lemma odd_schedule_misses_witness :
  let t := FiveTeams.tournament in
  let m := nth 4 (matches (generateSchedule t ["stadium-0"%string])) Scenario.fixture in
  meets (nth 1 (map Team.id (teams t)) EmptyString)
        (nth 2 (map Team.id (teams t)) EmptyString) m = false.
Proof.
  intros t m.
  apply (odd_schedule_misses t ["stadium-0"%string] m).
  - reflexivity.
  - cbn. lia.
  - discriminate.
  - reflexivity.
  - cbn. repeat constructor; cbn; intuition discriminate.
  - vm_compute. do 4 right. left. reflexivity.
Defined.

(* ================================================================= *)
(** ** Facts about the ids of new teams *)

Module IdFacts.
Import Decimal DecimalString.

(** A run of digits ends at the first hyphen. *)
Lemma digits_before_hyphen d : forall d' x y,
  (NilEmpty.string_of_uint d ++ String "-" x
   = NilEmpty.string_of_uint d' ++ String "-" y)%string ->
  d = d'.
Proof.
  induction d; destruct d'; intros x y H;
    cbn [NilEmpty.string_of_uint String.append] in H;
    try discriminate H; try reflexivity;
    injection H as H; f_equal; eapply IHd; exact H.
Qed.

(** The digits of a number that is not negative. *)
Lemma toString_digits z :
  0 <= z -> exists d, Number_toString z = NilEmpty.string_of_uint d.
Proof.
  intros H. unfold Number_toString. destruct z as [| p | p]; [| | lia].
  - exists (D0 Nil). reflexivity.
  - exists (Pos.to_uint p). cbn [Z.to_int NilZero.string_of_int].
    pose proof (DecimalPos.Unsigned.to_uint_nonnil p) as N.
    unfold NilZero.string_of_uint. destruct (Pos.to_uint p); [contradiction | ..];
      reflexivity.
Qed.

Lemma teamId_inj i j x y :
  CreateTournamentForm.teamId i x = CreateTournamentForm.teamId j y -> i = j.
Proof.
  unfold CreateTournamentForm.teamId. intros H.
  cbn [String.append] in H. injection H as H.
  destruct (toString_digits (Z.of_nat i) ltac:(lia)) as (d & Ed).
  destruct (toString_digits (Z.of_nat j) ltac:(lia)) as (d' & Ed').
  rewrite Ed, Ed' in H. apply digits_before_hyphen in H. subst d'.
  rewrite <- Ed' in Ed. apply TextFacts.toString_inj in Ed. lia.
Qed.

End IdFacts.

(** X25.  The team list made by the creation form has as many teams as asked
    for, with pairwise distinct ids whatever the clock returns, and keeps
    the names already entered. *)
Theorem new_teams_distinct numTeams now teams :
  let made := CreateTournamentForm.newTeams numTeams now teams in
  List.length made = numTeams
  /\ NoDup (map Team.id made)
  /\ map Team.name made
     = firstn numTeams (map Team.name teams)
       ++ repeat EmptyString (numTeams - List.length teams).
Proof.
  cbv zeta. unfold CreateTournamentForm.newTeams. repeat split.
  - rewrite length_map, length_seq. reflexivity.
  - rewrite map_map. cbn [Team.id].
    assert (N : forall l, NoDup l ->
              NoDup (map (fun i => CreateTournamentForm.teamId i (now i)) l)).
    { induction 1 as [| i l Hi _ IH]; cbn [map]; constructor; [| exact IH].
      intros H. apply in_map_iff in H. destruct H as (j & E & Hj).
      apply IdFacts.teamId_inj in E. subst j. contradiction. }
    apply N, seq_NoDup.
  - rewrite map_map. cbn [Team.name].
    assert (G : forall n s l,
              map (fun i => CreateTournamentForm.nameAt l (i - s)) (seq s n)
              = firstn n (map Team.name l) ++ repeat EmptyString (n - List.length l)).
    { clear. induction n as [| n IH]; intros s l; [reflexivity |].
      cbn [seq map]. rewrite Nat.sub_diag.
      rewrite (map_ext_in _ (fun i => CreateTournamentForm.nameAt (tl l) (i - S s))).
      - rewrite IH. destruct l as [| x l]; cbn; [| reflexivity].
        rewrite firstn_nil. destruct n; reflexivity.
      - intros i Hi. apply in_seq in Hi.
        replace (i - s)%nat with (S (i - S s)) by lia.
        unfold CreateTournamentForm.nameAt. destruct l; [| reflexivity].
        cbn. destruct (i - S s)%nat; reflexivity. }
    rewrite <- (G numTeams 0%nat teams). apply map_ext. intros i.
    rewrite Nat.sub_0_r. reflexivity.
Qed.

(** X26.  When the overs of a match are set to a whole number from 1 up
    (below 2^53), written in digits, the limit the form enforces on whole
    overs is that number and the volume credited to a side that is all out
    is the same number: the two readings of the setting agree. *)
Theorem overs_setting t z :
  0 < z < 2 ^ 53 ->
  oversPerMatch (config t) = Some (Number_toString z) ->
  isHundred t = false /\ oversLimit t = z /\ maxOvers t = JS.Z2F z.
Proof.
  intros Hz E.
  pose proof (TextFacts.parseInt_toString z) as P.
  pose proof (TextFacts.toString_nonempty z) as NE.
  assert (H : isHundred t = false).
  { unfold isHundred. rewrite E.
    destruct (String.eqb_spec (Number_toString z) "100 Balls") as [B | _];
      [| reflexivity].
    rewrite B in P. vm_compute in P. injection P as <-.
    vm_compute in B. discriminate B. }
  assert (S : JS.orString (oversPerMatch (config t)) "20" = Number_toString z).
  { rewrite E. unfold JS.orString. destruct (Number_toString z); [contradiction |].
    reflexivity. }
  split; [exact H |]. split.
  - unfold oversLimit. rewrite H, S, P. cbn [JS.orZero]. unfold JS.orDefault.
    destruct (Z.eqb_spec z 0); [lia | reflexivity].
  - unfold maxOvers. rewrite H, S.
    assert (F : JS.parseFloat (Number_toString z) = JS.Z2F z).
    { unfold Number_toString. destruct z as [| p | p]; try lia.
      cbn [Z.to_int DecimalString.NilZero.string_of_int].
      pose proof (DecimalPos.Unsigned.to_uint_nonnil p) as Hn.
      pose proof (DecimalPos.Unsigned.of_to p) as Ho.
      assert (Z : DecimalString.NilZero.string_of_uint (Pos.to_uint p)
                  = DecimalString.NilEmpty.string_of_uint (Pos.to_uint p)).
      { unfold DecimalString.NilZero.string_of_uint.
        destruct (Pos.to_uint p); [contradiction | ..]; reflexivity. }
      rewrite Z, (OversFacts.parseFloat_uint _ Hn), TextFacts.digitsValue_0, Ho.
      cbn [Z.of_N]. unfold JS.decimalToFloat, JS.Z2F.
      change (0 <=? 0) with true. cbv iota.
      change (10 ^ 0) with 1. rewrite Z.mul_1_r. reflexivity. }
    rewrite F. apply OversFacts.orDefaultF_pos, OversFacts.Z2F_pos. lia.
Qed.

Lemma overs_setting_witness :
  isHundred Scenario.before = false
  /\ oversLimit Scenario.before = 20
  /\ maxOvers Scenario.before = JS.Z2F 20.
Proof.
  apply (overs_setting Scenario.before 20).
  - lia.
  - reflexivity.
Defined.

(* ================================================================= *)
(** ** Facts about a result entering the table *)

Lemma lookup_map_entry (f : string * Standing.t -> string * Standing.t) k s :
  (forall kv, fst (f kv) = fst kv) ->
  lookup k (map f s) = option_map (fun v => snd (f (k, v))) (lookup k s).
Proof.
  intros K. induction s as [| [k' v] s IH]; [reflexivity |].
  cbn [map lookup]. pose proof (K (k', v)) as Kf. cbn [fst] in Kf.
  destruct (f (k', v)) as [k'' v'] eqn:E. cbn [fst] in Kf. subst k''.
  destruct (String.eqb_spec k' k) as [-> | _]; [| exact IH].
  cbn [option_map]. rewrite E. reflexivity.
Qed.

(** The row of a team in [standingsMap]: the entry the team starts from,
    grown by the counted matches, with its rates. *)
Lemma lookup_standingsMap t k :
  lookup k (standingsMap t)
  = option_map (fun v => computeRates (snd (evolve t (counted t) (k, v))))
               (lookup k (initialStats t)).
Proof.
  unfold standingsMap. rewrite aggregate_evolve, map_map.
  rewrite (lookup_map_entry
             (fun kv => (fst (evolve t (counted t) kv),
                         computeRates (snd (evolve t (counted t) kv))))).
  - reflexivity.
  - intros kv. cbn [fst]. apply evolve_key.
Qed.

Lemma total_filter_if {A : Type} (p : A -> bool) (f : A -> Z) l :
  total f (filter p l) = total (fun x => if p x then f x else 0) l.
Proof.
  induction l as [| x l IH]; [reflexivity |].
  cbn [filter]. rewrite total_cons, <- IH. destruct (p x); [apply total_cons | lia].
Qed.

Lemma same_id_same_match ms x y :
  NoDup (map Match.id ms) -> In x ms -> In y ms -> Match.id x = Match.id y -> x = y.
Proof.
  induction ms as [| z ms IH]; intros N Hx Hy E; [destruct Hx |].
  cbn [map] in N. inversion N as [| ? ? Nz N']; subst.
  destruct Hx as [<- | Hx], Hy as [<- | Hy]; try reflexivity.
  - exfalso. apply Nz. rewrite E. apply in_map, Hy.
  - exfalso. apply Nz. rewrite <- E. apply in_map, Hx.
  - apply IH; assumption.
Qed.

Section EntryFacts.
Variable t : Tournament.
Variable form : ResultForm.
Variable matchId : string.
Variable m : Match.t.
Hypothesis unlocked : isLocked t = false.
Hypothesis distinct : NoDup (map Match.id (matches t)).
Hypothesis found : find (hasId matchId) (matches t) = Some m.
Hypothesis known : bothKnown m (initialStats t) = true.

(** The match as saved. *)
Let saved : Match.t :=
  completedWith form
    (fst (classifyResult m (savedAs (f_t1Runs form)) (savedAs (f_t2Runs form))))
    (snd (classifyResult m (savedAs (f_t1Runs form)) (savedAs (f_t2Runs form))))
    m.

Lemma saved_found :
  find (hasId matchId) (matches (handleSaveResult t form matchId)) = Some saved.
Proof.
  rewrite (handleSaveResult_found t form matchId m unlocked found).
  cbn [withMatches matches]. rewrite find_map_hasId, found.
  - cbn [option_map]. apply find_some in found. destruct found as [_ H].
    rewrite H. reflexivity.
  - intros x. destruct (hasId matchId x); reflexivity.
Qed.

(** A sum over the counted matches after the save: the share of the match
    as it was is replaced by the share of the match as saved. *)
Lemma total_counted_saved (f : Match.t -> Z) :
  total f (counted (handleSaveResult t form matchId))
  = total f (counted t) - (if isCompleted m then f m else 0) + f saved.
Proof.
  rewrite (handleSaveResult_found t form matchId m unlocked found).
  unfold counted at 1 2. cbn [withMatches matches].
  change (initialStats (withMatches t _)) with (initialStats t).
  rewrite !total_filter_if, total_map.
  pose proof (find_some _ _ found) as [Im Hm].
  assert (C : List.length (filter (hasId matchId) (matches t)) = 1%nat).
  { apply (count_one Match.id matchId _ distinct).
    apply String.eqb_eq in Hm. rewrite <- Hm. apply in_map, Im. }
  rewrite <- Nat2Z.inj_iff, <- total_filter in C.
  rewrite (total_ext_in _
             (fun x => (if isCompleted x && bothKnown x (initialStats t)
                        then f x else 0)
                       + (if hasId matchId x then 1 else 0)
                         * (f saved - (if isCompleted m then f m else 0)))).
  - rewrite total_plus, total_scale, C. lia.
  - intros x Hx. destruct (hasId matchId x) eqn:H.
    + assert (x = m).
      { apply (same_id_same_match (matches t)); try assumption.
        apply String.eqb_eq in H, Hm. congruence. }
      subst x. fold saved.
      assert (S : isCompleted saved && bothKnown saved (initialStats t) = true).
      { unfold saved, bothKnown, isCompleted. cbn [completedWith Match.status
          Match.team1Id Match.team2Id]. exact known. }
      rewrite S, known, andb_true_r. destruct (isCompleted m); lia.
    + lia.
Qed.

(** The totals of a row after the save, one total at a time. *)
Lemma row_after_save (f : Standing.t -> Z) (g : string -> Match.t -> Z) k v :
  (forall x, f (computeRates x) = f x) ->
  (forall x k v, f (snd (touch t x (k, v))) = f v + g k x) ->
  f (computeRates
       (snd (evolve (handleSaveResult t form matchId)
                    (counted (handleSaveResult t form matchId)) (k, v))))
  = f (computeRates (snd (evolve t (counted t) (k, v))))
    - (if isCompleted m then g k m else 0) + g k saved.
Proof.
  intros Hc Ht.
  pose proof (total_counted_saved (g k)) as T. revert T.
  rewrite (handleSaveResult_found t form matchId m unlocked found).
  fold saved. intros T.
  rewrite !Hc, (evolve_field t f g Ht).
  rewrite (evolve_field (withMatches t _) f g Ht).
  rewrite T. lia.
Qed.

End EntryFacts.

(** X27.  When the points are added up exactly, saving a result leaves them
    so and changes the row of every team by that match alone: each of the
    six integer totals of the row loses what the match gave it before, if it
    was completed, and gains what the match as saved gives. *)
Theorem result_enters_table t form matchId m k s :
  pointsExact t ->
  isLocked t = false ->
  NoDup (map Match.id (matches t)) ->
  find (hasId matchId) (matches t) = Some m ->
  bothKnown m (initialStats t) = true ->
  lookup k (standingsMap t) = Some s ->
  let t' := handleSaveResult t form matchId in
  pointsExact t'
  /\ exists m' s',
       find (hasId matchId) (matches t') = Some m'
       /\ lookup k (standingsMap t') = Some s'
       /\ forall i,
            nth i (tally s') 0
            = nth i (tally s) 0
              - (if isCompleted m then nth i (share t k m) 0 else 0)
              + nth i (share t' k m') 0.
Proof.
  intros X L N F K S. cbv zeta. split.
  { rewrite (handleSaveResult_found t form matchId m L F).
    apply pointsExact_withMatches; [apply length_map | exact X]. }
  rewrite lookup_standingsMap in S.
  destruct (lookup k (initialStats t)) as [v |] eqn:Lk; [| discriminate S].
  cbn [option_map] in S. injection S as <-.
  eexists _, _. split; [apply (saved_found t form matchId m L F) |].
  split.
  - rewrite lookup_standingsMap.
    replace (initialStats (handleSaveResult t form matchId)) with (initialStats t)
      by (rewrite (handleSaveResult_found t form matchId m L F); reflexivity).
    rewrite Lk. reflexivity.
  - assert (A : forall x, awarded1 (handleSaveResult t form matchId) x = awarded1 t x
                          /\ awarded2 (handleSaveResult t form matchId) x = awarded2 t x).
    { rewrite (handleSaveResult_found t form matchId m L F). split; reflexivity. }
    intros i. unfold share. rewrite (proj1 (A _)), (proj2 (A _)).
    destruct i as [| [| [| [| [| [| i]]]]]]; cbn [nth tally].
    + apply (row_after_save t form matchId m L N F K Standing.matchesPlayed
               (fun k x => side1 k x + side2 k x)); [rates_keep |].
      intros x k0 v0. apply (touch_totals t x k0 v0).
    + apply (row_after_save t form matchId m L N F K Standing.matchesWon
               (fun k x => side1 k x * (if wonBy1 x then 1 else 0)
                           + side2 k x * (if wonBy2 x then 1 else 0)));
        [rates_keep |].
      intros x k0 v0. apply (touch_totals t x k0 v0).
    + apply (row_after_save t form matchId m L N F K Standing.actualPoints
               (fun k x => side1 k x * awarded1 t x + side2 k x * awarded2 t x));
        [rates_keep |].
      intros x k0 v0. apply (touch_totals t x k0 v0).
    + apply (row_after_save t form matchId m L N F K Standing.runsScored
               (fun k x => side1 k x * JS.orZero (Match.t1Runs x)
                           + side2 k x * JS.orZero (Match.t2Runs x)));
        [rates_keep |].
      intros x k0 v0. apply (touch_totals t x k0 v0).
    + apply (row_after_save t form matchId m L N F K Standing.runsConceded
               (fun k x => side1 k x * JS.orZero (Match.t2Runs x)
                           + side2 k x * JS.orZero (Match.t1Runs x)));
        [rates_keep |].
      intros x k0 v0. apply (touch_totals t x k0 v0).
    + apply (row_after_save t form matchId m L N F K Standing.wicketsTaken
               (fun k x => side1 k x * JS.orZero (Match.t2Wickets x)
                           + side2 k x * JS.orZero (Match.t1Wickets x)));
        [rates_keep |].
      intros x k0 v0. apply (touch_totals t x k0 v0).
    + destruct (isCompleted m), i; reflexivity.
Qed.

Lemma result_enters_table_witness :
  let t := Scenario.before in
  let t' := handleSaveResult t Scenario.form "M-1" in
  let k := Team.id Scenario.A in
  pointsExact t'
  /\ exists m' s',
       find (hasId "M-1") (matches t') = Some m'
       /\ lookup k (standingsMap t') = Some s'
       /\ forall i,
            nth i (tally s') 0
            = nth i (tally (freshStanding Scenario.A)) 0
              - (if isCompleted Scenario.fixture
                 then nth i (share t k Scenario.fixture) 0 else 0)
              + nth i (share t' k m') 0.
Proof.
  intros t t' k.
  apply (result_enters_table t Scenario.form "M-1" Scenario.fixture k
                             (freshStanding Scenario.A)).
  - vm_compute. reflexivity.
  - reflexivity.
  - cbn. repeat constructor. intros [].
  - reflexivity.
  - reflexivity.
  - vm_compute. reflexivity.
Defined.

(* ================================================================= *)
(** ** Facts about a tournament of two teams *)

Lemma touch_mirrored t m a b va vb :
  a <> b ->
  (Match.team1Id m = a /\ Match.team2Id m = b)
  \/ (Match.team1Id m = b /\ Match.team2Id m = a) ->
  mirrored va vb ->
  mirrored (snd (touch t m (a, va))) (snd (touch t m (b, vb))).
Proof.
  intros D C M.
  assert (Eab : String.eqb a b = false) by (apply String.eqb_neq; exact D).
  assert (Eba : String.eqb b a = false) by (rewrite String.eqb_sym; exact Eab).
  destruct va, vb. unfold mirrored in M.
  cbn [Standing.runsScored Standing.runsConceded Standing.oversFaced
       Standing.oversBowled] in M.
  destruct M as (-> & -> & -> & ->).
  unfold mirrored, touch, applyMatch.
  destruct C as [[-> ->] | [-> ->]];
    destruct (Match.resultType m) as [[] |];
    rewrite !mutate_one, ?String.eqb_refl, ?Eab, ?Eba; cbn [hd snd]; fields;
    repeat split; reflexivity.
Qed.

Lemma evolve_mirrored t a b ms : forall va vb,
  a <> b ->
  (forall m, In m ms ->
     (Match.team1Id m = a /\ Match.team2Id m = b)
     \/ (Match.team1Id m = b /\ Match.team2Id m = a)) ->
  mirrored va vb ->
  mirrored (snd (evolve t ms (a, va))) (snd (evolve t ms (b, vb))).
Proof.
  induction ms as [| m ms IH]; intros va vb D C M; [exact M |].
  cbn [evolve fold_left]. fold (evolve t ms (touch t m (a, va)))
                               (evolve t ms (touch t m (b, vb))).
  pose proof (touch_key t m (a, va)) as Ka. pose proof (touch_key t m (b, vb)) as Kb.
  pose proof (touch_mirrored t m a b va vb D (C m (or_introl eq_refl)) M) as M'.
  destruct (touch t m (a, va)) as [a' va'], (touch t m (b, vb)) as [b' vb'].
  cbn [fst snd] in *. subst a' b'.
  apply IH; [exact D | | exact M']. intros x Hx. apply C. right. exact Hx.
Qed.

(** X28.  In a tournament of two teams in which no counted match sets a team
    against itself, each team's scoring rate is the other's economy rate,
    bit for bit, so the net run rate of one is that of the other with its
    two terms exchanged. *)
Theorem head_to_head t A B :
  teams t = [A; B] -> Team.id A <> Team.id B ->
  (forall m, In m (counted t) -> Match.team1Id m <> Match.team2Id m) ->
  exists sA sB,
    lookup (Team.id A) (standingsMap t) = Some sA
    /\ lookup (Team.id B) (standingsMap t) = Some sB
    /\ Standing.scoringRate sA = Standing.economyRate sB
    /\ Standing.economyRate sA = Standing.scoringRate sB
    /\ Standing.nrr sA = (Standing.scoringRate sA - Standing.economyRate sA)%float
    /\ Standing.nrr sB = (Standing.economyRate sA - Standing.scoringRate sA)%float.
Proof.
  intros T D S.
  assert (I : initialStats t = [(Team.id A, freshStanding A); (Team.id B, freshStanding B)]).
  { rewrite initialStats_distinct; rewrite T; [reflexivity |].
    cbn. repeat constructor; cbn; intuition. }
  assert (LA : lookup (Team.id A) (initialStats t) = Some (freshStanding A)).
  { rewrite I. cbn [lookup]. rewrite String.eqb_refl. reflexivity. }
  assert (LB : lookup (Team.id B) (initialStats t) = Some (freshStanding B)).
  { rewrite I. cbn [lookup]. apply String.eqb_neq in D. rewrite D, String.eqb_refl.
    reflexivity. }
  assert (M : mirrored (snd (evolve t (counted t) (Team.id A, freshStanding A)))
                       (snd (evolve t (counted t) (Team.id B, freshStanding B)))).
  { apply evolve_mirrored; [exact D | | repeat split].
    intros m Hm. pose proof (S m Hm) as Sm.
    apply counted_known in Hm. rewrite I in Hm. cbn [keys map fst In] in Hm.
    destruct Hm as [[H1 | [H1 | []]] [H2 | [H2 | []]]]; try congruence; auto. }
  rewrite !lookup_standingsMap, LA, LB. cbn [option_map].
  eexists _, _. split; [reflexivity |]. split; [reflexivity |].
  destruct M as (M1 & M2 & M3 & M4).
  revert M1 M2 M3 M4.
  generalize (snd (evolve t (counted t) (Team.id A, freshStanding A)))
             (snd (evolve t (counted t) (Team.id B, freshStanding B))).
  intros x y M1 M2 M3 M4. unfold computeRates.
  cbn [Standing.with_rates Standing.scoringRate Standing.economyRate Standing.nrr].
  rewrite M1, M2, M3, M4. repeat split; reflexivity.
Qed.

Lemma head_to_head_witness :
  exists sA sB,
    lookup (Team.id Scenario.A) (standingsMap Scenario.after) = Some sA
    /\ lookup (Team.id Scenario.B) (standingsMap Scenario.after) = Some sB
    /\ Standing.scoringRate sA = Standing.economyRate sB
    /\ Standing.economyRate sA = Standing.scoringRate sB
    /\ Standing.nrr sA = (Standing.scoringRate sA - Standing.economyRate sA)%float
    /\ Standing.nrr sB = (Standing.economyRate sA - Standing.scoringRate sA)%float.
Proof.
  apply (head_to_head Scenario.after Scenario.A Scenario.B).
  - reflexivity.
  - discriminate.
  - intros m Hm. vm_compute in Hm. destruct Hm as [<- | []]. discriminate.
Defined.
